(** * Resource lifecycle, execution queue and caches of the offline translator

    A shallow embedding of
    - [services/modelManager.ts]   (class [ModelManager]),
    - [utils/memoryManager.ts]     (class [MemoryManager]),
    - [services/optimizedTranslationService.ts] (the translation cache,
      the cache keys, the handling of the text and the detection of the
      language),
    - the class [OptimizedSpeechService] (audio chunks, silence detection),
    followed by the properties of the lifecycle specification that were
    checked against them and by further properties of the same code.

    JavaScript runs the three classes on one thread.  An [async] method is
    therefore a sequence of synchronous segments separated by [await]s; each
    segment is a state transformer below, and a pending [setTimeout], a
    pending promise or a continuation in the microtask queue is a piece of
    data in the state that says which segment runs next.  [Date.now()] is
    the field [now] of the state. *)

From stdpp Require Import gmap strings list fin_maps pretty.
From Stdlib Require Import ZArith Lia Bool Sorted Permutation QArith.

Local Open Scope Z_scope.

(** ** services/modelManager.ts *)

Module ModelManager.

Inductive QuantizationType := Q4 | Q8 | FP16 | FP32.

Record ModelConfig := {
  modelName : string;
  modelPath : string;
  isQuantized : bool;
  quantizationType : QuantizationType;
  maxTokens : Z;
  memoryLimit : Z;   (* MB *)
  loadTimeout : Z;   (* ms *)
  unloadDelay : Z    (* ms *)
}.

Record ModelStatus := {
  isLoaded : bool;
  isLoading : bool;
  lastUsed : Z;
  memoryUsage : Z;
  error : option string
}.

Definition GEMMA_CONFIG : ModelConfig := {|
  modelName := "gemma-3n-2b-q4";
  modelPath := "./assets/models/gemma-3n-2b-q4";
  isQuantized := true;
  quantizationType := Q4;
  maxTokens := 256;
  memoryLimit := 256;
  loadTimeout := 30000;
  unloadDelay := 300000
|}.

Definition TTS_CONFIG : ModelConfig := {|
  modelName := "indic-parler-tts-mini";
  modelPath := "./assets/models/indic-parler-tts-mini";
  isQuantized := true;
  quantizationType := Q8;
  maxTokens := 128;
  memoryLimit := 150;
  loadTimeout := 15000;
  unloadDelay := 600000
|}.

(** The class has one pair of methods per model ([loadGemmaModel] /
    [loadTTSModel], [executeWithGemma] / [executeWithTTS], ...).  The two
    members of a pair differ only in the key, the configuration record and
    the wording of a message, so each pair is one definition indexed by
    [ModelId]. *)
Inductive ModelId := Gemma | TTS.

#[global] Instance ModelId_eq_dec : EqDecision ModelId.
Proof. solve_decision. Defined.

Definition modelKey (m : ModelId) : string :=
  match m with Gemma => "gemma" | TTS => "tts" end.

Definition CONFIG (m : ModelId) : ModelConfig :=
  match m with Gemma => GEMMA_CONFIG | TTS => TTS_CONFIG end.

(** Configurations that differ from a given one in one field. *)
Definition withMemoryLimit (v : Z) (c : ModelConfig) : ModelConfig :=
  {| modelName := modelName c; modelPath := modelPath c; isQuantized := isQuantized c;
     quantizationType := quantizationType c; maxTokens := maxTokens c;
     memoryLimit := v; loadTimeout := loadTimeout c; unloadDelay := unloadDelay c |}.

Definition withLoadTimeout (v : Z) (c : ModelConfig) : ModelConfig :=
  {| modelName := modelName c; modelPath := modelPath c; isQuantized := isQuantized c;
     quantizationType := quantizationType c; maxTokens := maxTokens c;
     memoryLimit := memoryLimit c; loadTimeout := v; unloadDelay := unloadDelay c |}.

(** [new Error('Insufficient memory for Gemma model')] and its TTS twin. *)
Definition insufficientMemory (m : ModelId) : string :=
  match m with
  | Gemma => "Insufficient memory for Gemma model"
  | TTS => "Insufficient memory for TTS model"
  end.

(** Who awaits the promise returned by [loadGemmaModel] / [loadTTSModel]:
    the closure that [executeWith...] pushed on the request queue, or some
    other caller of the public method. *)
Inductive Caller :=
| QueueTask (id : nat)
| Direct (id : nat).

(** What a pending [setTimeout] will run. *)
Inductive Callback :=
| LoadResolved (m : ModelId) (k : Caller)
    (* [setTimeout(resolve, 2000)] of [loadQuantizedModel]; the rest of
       [load<m>Model] runs when it fires *)
| CheckStatus (m : ModelId) (k : Caller)
    (* [setTimeout(checkStatus, 100)] of [waitForModelLoad] *)
| UnloadCallback (key : string).
    (* the arrow function of [scheduleModelUnload] *)

Record Timer := { handle : nat; due : Z; callback : Callback }.

(** The closures of [requestQueue]. *)
Record QueuedOp := { opId : nat; opModel : ModelId }.

(** Observable events, newest first in the field [log]. *)
Inductive LogEvent :=
| Submitted (id : nat) (m : ModelId)               (* [requestQueue.push(...)] in [executeWith<m>] *)
| StatusSet (key : string) (s : ModelStatus)       (* a [setModelStatus] call *)
| LoadSettled (k : Caller) (m : ModelId) (err : option string)
                                                   (* [load<m>Model]'s promise settles *)
| Popped (id : nat)                                (* [requestQueue.shift()] and the closure is entered *)
| OperationBegin (id : nat)                        (* [operation()] is invoked *)
| Settled (id : nat) (ok : bool).                  (* [resolve(result)] / [reject(error)] *)

Inductive AppStateStatus := active | background | inactive | unknown | extension.

(** The value of [gemmaModel] / [ttsModel] when it is not [null]. *)
Inductive ModelObject := NativeModel.

(** A continuation of the manager that waits in the microtask queue.  An
    [await] always yields, also when the promise it awaits is settled
    already; the rest of the function runs from the microtask queue, after
    the synchronous segment that is running. *)
Inductive Continuation :=
| ClosureResumes (id : nat) (err : option string)
    (* the closure of task [id] after [await this.load<m>Model()], which
       fulfilled ([None]) or rejected with an error *)
| LoopResumes.
    (* [processQueue] after [await operation()] *)

Record State := {
  (* fields of the class *)
  gemmaModel : option ModelObject;
  ttsModel : option ModelObject;
  modelStatus : gmap string ModelStatus;
  unloadTimer : option nat;
  isBackgrounded : bool;
  requestQueue : list QueuedOp;
  isProcessingQueue : bool;
  (* the JavaScript runtime around it *)
  now : Z;                  (* Date.now() *)
  nextHandle : nat;         (* next timer handle; handles are positive *)
  timers : list Timer;      (* pending setTimeout callbacks *)
  microtasks : list Continuation;  (* the manager's part of the microtask queue *)
  nextTask : nat;           (* number of executeWith... calls so far *)
  nextCall : nat;           (* number of direct load calls so far *)
  pendingOps : list nat;    (* tasks whose operation() promise is pending *)
  log : list LogEvent
}.

Definition initial : State := {|
  gemmaModel := None; ttsModel := None; modelStatus := ∅;
  unloadTimer := None; isBackgrounded := false;
  requestQueue := []; isProcessingQueue := false;
  now := 0; nextHandle := 1; timers := []; microtasks := [];
  nextTask := 0; nextCall := 0;
  pendingOps := []; log := []
|}.

(** Field updates. *)
Definition with_gemmaModel (v : option ModelObject) (st : State) : State :=
  {| gemmaModel := v; ttsModel := ttsModel st; modelStatus := modelStatus st;
     unloadTimer := unloadTimer st; isBackgrounded := isBackgrounded st;
     requestQueue := requestQueue st; isProcessingQueue := isProcessingQueue st;
     now := now st; nextHandle := nextHandle st; timers := timers st;
     microtasks := microtasks st;
     nextTask := nextTask st; nextCall := nextCall st;
     pendingOps := pendingOps st; log := log st |}.

Definition with_ttsModel (v : option ModelObject) (st : State) : State :=
  {| gemmaModel := gemmaModel st; ttsModel := v; modelStatus := modelStatus st;
     unloadTimer := unloadTimer st; isBackgrounded := isBackgrounded st;
     requestQueue := requestQueue st; isProcessingQueue := isProcessingQueue st;
     now := now st; nextHandle := nextHandle st; timers := timers st;
     microtasks := microtasks st;
     nextTask := nextTask st; nextCall := nextCall st;
     pendingOps := pendingOps st; log := log st |}.

Definition with_modelStatus (v : gmap string ModelStatus) (st : State) : State :=
  {| gemmaModel := gemmaModel st; ttsModel := ttsModel st; modelStatus := v;
     unloadTimer := unloadTimer st; isBackgrounded := isBackgrounded st;
     requestQueue := requestQueue st; isProcessingQueue := isProcessingQueue st;
     now := now st; nextHandle := nextHandle st; timers := timers st;
     microtasks := microtasks st;
     nextTask := nextTask st; nextCall := nextCall st;
     pendingOps := pendingOps st; log := log st |}.

Definition with_unloadTimer (v : option nat) (st : State) : State :=
  {| gemmaModel := gemmaModel st; ttsModel := ttsModel st; modelStatus := modelStatus st;
     unloadTimer := v; isBackgrounded := isBackgrounded st;
     requestQueue := requestQueue st; isProcessingQueue := isProcessingQueue st;
     now := now st; nextHandle := nextHandle st; timers := timers st;
     microtasks := microtasks st;
     nextTask := nextTask st; nextCall := nextCall st;
     pendingOps := pendingOps st; log := log st |}.

Definition with_isBackgrounded (v : bool) (st : State) : State :=
  {| gemmaModel := gemmaModel st; ttsModel := ttsModel st; modelStatus := modelStatus st;
     unloadTimer := unloadTimer st; isBackgrounded := v;
     requestQueue := requestQueue st; isProcessingQueue := isProcessingQueue st;
     now := now st; nextHandle := nextHandle st; timers := timers st;
     microtasks := microtasks st;
     nextTask := nextTask st; nextCall := nextCall st;
     pendingOps := pendingOps st; log := log st |}.

Definition with_requestQueue (v : list QueuedOp) (st : State) : State :=
  {| gemmaModel := gemmaModel st; ttsModel := ttsModel st; modelStatus := modelStatus st;
     unloadTimer := unloadTimer st; isBackgrounded := isBackgrounded st;
     requestQueue := v; isProcessingQueue := isProcessingQueue st;
     now := now st; nextHandle := nextHandle st; timers := timers st;
     microtasks := microtasks st;
     nextTask := nextTask st; nextCall := nextCall st;
     pendingOps := pendingOps st; log := log st |}.

Definition with_isProcessingQueue (v : bool) (st : State) : State :=
  {| gemmaModel := gemmaModel st; ttsModel := ttsModel st; modelStatus := modelStatus st;
     unloadTimer := unloadTimer st; isBackgrounded := isBackgrounded st;
     requestQueue := requestQueue st; isProcessingQueue := v;
     now := now st; nextHandle := nextHandle st; timers := timers st;
     microtasks := microtasks st;
     nextTask := nextTask st; nextCall := nextCall st;
     pendingOps := pendingOps st; log := log st |}.

Definition with_now (v : Z) (st : State) : State :=
  {| gemmaModel := gemmaModel st; ttsModel := ttsModel st; modelStatus := modelStatus st;
     unloadTimer := unloadTimer st; isBackgrounded := isBackgrounded st;
     requestQueue := requestQueue st; isProcessingQueue := isProcessingQueue st;
     now := v; nextHandle := nextHandle st; timers := timers st;
     microtasks := microtasks st;
     nextTask := nextTask st; nextCall := nextCall st;
     pendingOps := pendingOps st; log := log st |}.

Definition with_nextHandle (v : nat) (st : State) : State :=
  {| gemmaModel := gemmaModel st; ttsModel := ttsModel st; modelStatus := modelStatus st;
     unloadTimer := unloadTimer st; isBackgrounded := isBackgrounded st;
     requestQueue := requestQueue st; isProcessingQueue := isProcessingQueue st;
     now := now st; nextHandle := v; timers := timers st;
     microtasks := microtasks st;
     nextTask := nextTask st; nextCall := nextCall st;
     pendingOps := pendingOps st; log := log st |}.

Definition with_timers (v : list Timer) (st : State) : State :=
  {| gemmaModel := gemmaModel st; ttsModel := ttsModel st; modelStatus := modelStatus st;
     unloadTimer := unloadTimer st; isBackgrounded := isBackgrounded st;
     requestQueue := requestQueue st; isProcessingQueue := isProcessingQueue st;
     now := now st; nextHandle := nextHandle st; timers := v;
     microtasks := microtasks st;
     nextTask := nextTask st; nextCall := nextCall st;
     pendingOps := pendingOps st; log := log st |}.

Definition with_microtasks (v : list Continuation) (st : State) : State :=
  {| gemmaModel := gemmaModel st; ttsModel := ttsModel st; modelStatus := modelStatus st;
     unloadTimer := unloadTimer st; isBackgrounded := isBackgrounded st;
     requestQueue := requestQueue st; isProcessingQueue := isProcessingQueue st;
     now := now st; nextHandle := nextHandle st; timers := timers st;
     microtasks := v;
     nextTask := nextTask st; nextCall := nextCall st;
     pendingOps := pendingOps st; log := log st |}.

Definition with_nextTask (v : nat) (st : State) : State :=
  {| gemmaModel := gemmaModel st; ttsModel := ttsModel st; modelStatus := modelStatus st;
     unloadTimer := unloadTimer st; isBackgrounded := isBackgrounded st;
     requestQueue := requestQueue st; isProcessingQueue := isProcessingQueue st;
     now := now st; nextHandle := nextHandle st; timers := timers st;
     microtasks := microtasks st;
     nextTask := v; nextCall := nextCall st;
     pendingOps := pendingOps st; log := log st |}.

Definition with_nextCall (v : nat) (st : State) : State :=
  {| gemmaModel := gemmaModel st; ttsModel := ttsModel st; modelStatus := modelStatus st;
     unloadTimer := unloadTimer st; isBackgrounded := isBackgrounded st;
     requestQueue := requestQueue st; isProcessingQueue := isProcessingQueue st;
     now := now st; nextHandle := nextHandle st; timers := timers st;
     microtasks := microtasks st;
     nextTask := nextTask st; nextCall := v;
     pendingOps := pendingOps st; log := log st |}.

Definition with_pendingOps (v : list nat) (st : State) : State :=
  {| gemmaModel := gemmaModel st; ttsModel := ttsModel st; modelStatus := modelStatus st;
     unloadTimer := unloadTimer st; isBackgrounded := isBackgrounded st;
     requestQueue := requestQueue st; isProcessingQueue := isProcessingQueue st;
     now := now st; nextHandle := nextHandle st; timers := timers st;
     microtasks := microtasks st;
     nextTask := nextTask st; nextCall := nextCall st;
     pendingOps := v; log := log st |}.

Definition emit (e : LogEvent) (st : State) : State :=
  {| gemmaModel := gemmaModel st; ttsModel := ttsModel st; modelStatus := modelStatus st;
     unloadTimer := unloadTimer st; isBackgrounded := isBackgrounded st;
     requestQueue := requestQueue st; isProcessingQueue := isProcessingQueue st;
     now := now st; nextHandle := nextHandle st; timers := timers st;
     microtasks := microtasks st;
     nextTask := nextTask st; nextCall := nextCall st;
     pendingOps := pendingOps st; log := e :: log st |}.

(** *** The runtime's timers and microtasks *)

(** [setTimeout(cb, delay)]: the callback may run once the clock has
    reached [now + delay]; the call returns a fresh handle. *)
Definition setTimeout (cb : Callback) (delay : Z) (st : State) : nat * State :=
  let h := nextHandle st in
  (h, with_nextHandle (S h)
        (with_timers (timers st ++ [{| handle := h; due := now st + delay; callback := cb |}]) st)).

(** [clearTimeout(h)]: a no-op when the timer has already run. *)
Definition clearTimeout (h : nat) (st : State) : State :=
  with_timers (List.filter (fun t => negb (Nat.eqb (handle t) h)) (timers st)) st.

(** [await] on a promise of the manager: the continuation joins the end
    of the microtask queue. *)
Definition queueMicrotask (c : Continuation) (st : State) : State :=
  with_microtasks (microtasks st ++ [c]) st.

(** *** Methods of the class *)

Definition setModelStatus (key : string) (s : ModelStatus) (st : State) : State :=
  emit (StatusSet key s) (with_modelStatus (<[key := s]> (modelStatus st)) st).

Definition getModelStatus (key : string) (st : State) : option ModelStatus :=
  modelStatus st !! key.

(** [this.modelStatus.get(key)?.isLoaded] and [?.isLoading]: [undefined]
    is falsy. *)
Definition statusFlag (f : ModelStatus -> bool) (key : string) (st : State) : bool :=
  match modelStatus st !! key with Some s => f s | None => false end.

Definition isModelLoaded (m : ModelId) (st : State) : bool :=
  statusFlag isLoaded (modelKey m) st.

Definition getCurrentMemoryUsage (st : State) : Z :=
  map_fold (fun (_ : string) (s : ModelStatus) (totalUsage : Z) => totalUsage + memoryUsage s)
           0 (modelStatus st).

Definition checkMemoryAvailability (requiredMB : Z) (st : State) : bool :=
  let availableMemory := 512 in
  let currentUsage := getCurrentMemoryUsage st in
  requiredMB <=? availableMemory - currentUsage.

(** The [memoryUsage] recorded for one key, 0 when the key is absent. *)
Definition recordedUsage (key : string) (st : State) : Z :=
  match modelStatus st !! key with Some s => memoryUsage s | None => 0 end.

Definition cancelUnloadTimer (st : State) : State :=
  match unloadTimer st with
  | Some h => with_unloadTimer None (clearTimeout h st)
  | None => st
  end.

Definition scheduleModelUnload (key : string) (delay : Z) (st : State) : State :=
  let st1 := cancelUnloadTimer st in
  let '(h, st2) := setTimeout (UnloadCallback key) delay st1 in
  with_unloadTimer (Some h) st2.

Definition unloadGemmaModel (st : State) : State :=
  match gemmaModel st with
  | Some _ =>
      setModelStatus "gemma"
        {| isLoaded := false; isLoading := false; lastUsed := now st;
           memoryUsage := 0; error := None |}
        (with_gemmaModel None st)
  | None => st
  end.

Definition unloadTTSModel (st : State) : State :=
  match ttsModel st with
  | Some _ =>
      setModelStatus "tts"
        {| isLoaded := false; isLoading := false; lastUsed := now st;
           memoryUsage := 0; error := None |}
        (with_ttsModel None st)
  | None => st
  end.

(** [clearCache()] only removes keys of the persistent [AsyncStorage]; it
    does not touch any field modelled here. *)
Definition unloadModelsOnBackground (st : State) : State :=
  unloadTTSModel (unloadGemmaModel st).

Definition handleAppStateChange (nextAppState : AppStateStatus) (st : State) : State :=
  match nextAppState with
  | background | inactive => unloadModelsOnBackground (with_isBackgrounded true st)
  | active => cancelUnloadTimer (with_isBackgrounded false st)
  | _ => st
  end.

(** The body of the timer callback of [scheduleModelUnload]. *)
Definition unloadCallback (key : string) (st : State) : State :=
  if String.eqb key "gemma" then unloadGemmaModel st
  else if String.eqb key "tts" then unloadTTSModel st
  else st.

(** *** Loading

    The section variable stands for the two [readonly] configuration
    records, so that the results hold for every footprint, timeout and
    delay; [CONFIG] above is the instance shipped in the source. *)

Section Lifecycle.

Variable config : ModelId -> ModelConfig.

(** How the synchronous part of an [async] call ends: the promise is
    already settled ([err = None] for fulfilled), or the call is suspended
    at an [await] and a timer holds its continuation. *)
Inductive LoadOutcome :=
| Returned (err : option string)
| Awaiting.

(** [waitForModelLoad]: [checkStatus()] is run once at once, and re-arms
    itself every 100 ms until the status exists and is not loading. *)
Definition checkStatus (m : ModelId) (k : Caller) (st : State) : LoadOutcome * State :=
  match modelStatus st !! modelKey m with
  | Some status =>
      if negb (isLoading status) then (Returned None, st)
      else (Awaiting, snd (setTimeout (CheckStatus m k) 100 st))
  | None => (Awaiting, snd (setTimeout (CheckStatus m k) 100 st))
  end.

Definition waitForModelLoad (m : ModelId) (k : Caller) (st : State) : LoadOutcome * State :=
  checkStatus m k st.

(** [loadGemmaModel] / [loadTTSModel] up to the first [await] that
    suspends.  The [try] block throws before [loadQuantizedModel] is
    entered when the memory check fails; the [catch] block then records the
    error and rethrows. *)
Definition loadModel (m : ModelId) (k : Caller) (st : State) : LoadOutcome * State :=
  if statusFlag isLoaded (modelKey m) st then (Returned None, st)
  else if statusFlag isLoading (modelKey m) st then waitForModelLoad m k st
  else
    let st1 :=
      setModelStatus (modelKey m)
        {| isLoaded := false; isLoading := true; lastUsed := now st;
           memoryUsage := 0; error := None |} st in
    if negb (checkMemoryAvailability (memoryLimit (config m)) st1) then
      (Returned (Some (insufficientMemory m)),
       setModelStatus (modelKey m)
         {| isLoaded := false; isLoading := false; lastUsed := now st1;
            memoryUsage := 0; error := Some (insufficientMemory m) |} st1)
    else
      (* loadQuantizedModel: await new Promise(resolve => setTimeout(resolve, 2000)) *)
      (Awaiting, snd (setTimeout (LoadResolved m k) 2000 st1)).

(** The rest of [load<m>Model], run when the 2000 ms timer of
    [loadQuantizedModel] fires.  Nothing in it can throw. *)
Definition finishLoad (m : ModelId) (st : State) : State :=
  let st1 :=
    setModelStatus (modelKey m)
      {| isLoaded := true; isLoading := false; lastUsed := now st;
         memoryUsage := memoryLimit (config m); error := None |} st in
  scheduleModelUnload (modelKey m) (unloadDelay (config m)) st1.

(** *** The request queue *)

(** [const result = await operation()]: the operation starts and its
    promise is pending. *)
Definition beginOperation (id : nat) (st : State) : State :=
  with_pendingOps (pendingOps st ++ [id]) (emit (OperationBegin id) st).

(** The promise of a load is fulfilled.  A closure of the queue that
    awaits it goes on from the microtask queue. *)
Definition resumeCaller (k : Caller) (m : ModelId) (st : State) : State :=
  let st1 := emit (LoadSettled k m None) st in
  match k with
  | QueueTask id => queueMicrotask (ClosureResumes id None) st1
  | Direct _ => st1
  end.

(** The closure pushed by [executeWithGemma] / [executeWithTTS], from its
    call to [await this.load<m>Model()].  The [await] yields in every
    case: when the load has returned or thrown in the same segment, the
    closure is already in the microtask queue; otherwise a timer of the
    load holds it. *)
Definition runClosure (op : QueuedOp) (st : State) : State :=
  let k := QueueTask (opId op) in
  match loadModel (opModel op) k st with
  | (Returned err, st1) =>
      queueMicrotask (ClosureResumes (opId op) err) (emit (LoadSettled k (opModel op) err) st1)
  | (Awaiting, st1) => st1
  end.

(** The closure after [await this.load<m>Model()]: it calls
    [operation()] and awaits it, or, from the [catch] block, rejects the
    promise of the task and returns; [processQueue], which awaits the
    closure, then goes on from the microtask queue. *)
Definition closureResumes (id : nat) (err : option string) (st : State) : State :=
  match err with
  | None => beginOperation id st
  | Some _ => queueMicrotask LoopResumes (emit (Settled id false) st)
  end.

(** The [while] loop of [processQueue] from its test to
    [await operation()], which yields in every case. *)
Definition loopTurn (st : State) : State :=
  match requestQueue st with
  | [] => with_isProcessingQueue false st
  | op :: rest => runClosure op (emit (Popped (opId op)) (with_requestQueue rest st))
  end.

Definition processQueue (st : State) : State :=
  if isProcessingQueue st || Nat.eqb (length (requestQueue st)) 0 then st
  else loopTurn (with_isProcessingQueue true st).

(** [executeWithGemma(operation)] / [executeWithTTS(operation)]. *)
Definition executeWith (m : ModelId) (st : State) : State :=
  let id := nextTask st in
  processQueue
    (emit (Submitted id m)
       (with_requestQueue (requestQueue st ++ [{| opId := id; opModel := m |}])
          (with_nextTask (S id) st))).

(** A call of the public [loadGemmaModel()] / [loadTTSModel()] from
    outside the queue. *)
Definition callLoad (m : ModelId) (st : State) : State :=
  let k := Direct (nextCall st) in
  match loadModel m k (with_nextCall (S (nextCall st)) st) with
  | (Returned err, st1) => emit (LoadSettled k m err) st1
  | (Awaiting, st1) => st1
  end.

(** *** One turn of the event loop *)

Definition runCallback (cb : Callback) (st : State) : State :=
  match cb with
  | LoadResolved m k => resumeCaller k m (finishLoad m st)
  | CheckStatus m k =>
      match checkStatus m k st with
      | (Returned _, st1) => resumeCaller k m st1
      | (Awaiting, st1) => st1
      end
  | UnloadCallback key => unloadCallback key st
  end.

Definition runMicrotask (c : Continuation) (st : State) : State :=
  match c with
  | ClosureResumes id err => closureResumes id err st
  | LoopResumes => loopTurn st
  end.

Definition findTimer (h : nat) (st : State) : option Timer :=
  List.find (fun t => Nat.eqb (handle t) h) (timers st).

(** The closure of task [id] after [await operation()]: [resolve(result)]
    or, from the [catch] block, [reject(error)]; the closure returns and
    [processQueue], which awaits it, goes on from the microtask queue. *)
Definition operationDone (id : nat) (ok : bool) (st : State) : State :=
  queueMicrotask LoopResumes
    (emit (Settled id ok)
       (with_pendingOps (List.filter (fun j => negb (Nat.eqb j id)) (pendingOps st)) st)).

(** What can happen next: a call of a public method (from any code that
    runs, also between two microtasks), the settling of a running
    operation, the next microtask of the manager, and the tasks of the
    event loop (a timer callback, a change of the application state), which
    run only when the microtask queue is empty. *)
Inductive Event :=
| ExecuteWith (m : ModelId)
| LoadCall (m : ModelId)
| OperationDone (id : nat) (ok : bool)
| Microtask
| TimerFires (h : nat)
| ClockAdvance (t : Z)
| AppStateChange (s : AppStateStatus).

Definition noMicrotask (st : State) : bool :=
  match microtasks st with [] => true | _ :: _ => false end.

(** [None]: the event cannot happen in this state (a timer that is not
    pending or not yet due, an operation that is not running, a clock
    that would run backwards, a microtask when none waits, a task of the
    event loop while a microtask waits). *)
Definition step (st : State) (e : Event) : option State :=
  match e with
  | ExecuteWith m => Some (executeWith m st)
  | LoadCall m => Some (callLoad m st)
  | OperationDone id ok =>
      if existsb (Nat.eqb id) (pendingOps st) then Some (operationDone id ok st) else None
  | Microtask =>
      match microtasks st with
      | c :: rest => Some (runMicrotask c (with_microtasks rest st))
      | [] => None
      end
  | TimerFires h =>
      if noMicrotask st then
        match findTimer h st with
        | Some t =>
            if due t <=? now st then Some (runCallback (callback t) (clearTimeout h st))
            else None
        | None => None
        end
      else None
  | ClockAdvance t => if now st <=? t then Some (with_now t st) else None
  | AppStateChange s => if noMicrotask st then Some (handleAppStateChange s st) else None
  end.

Fixpoint run (st : State) (es : list Event) : option State :=
  match es with
  | [] => Some st
  | e :: es' => match step st e with Some st' => run st' es' | None => None end
  end.

Definition reachable (st : State) : Prop := exists es, run initial es = Some st.

End Lifecycle.

(** *** Predicates on states and logs used in the statements below *)

Definition isUnload (cb : Callback) : bool :=
  match cb with UnloadCallback _ => true | _ => false end.

(** The pending idle-unload timers. *)
Definition unloadTimers (st : State) : list Timer :=
  List.filter (fun t => isUnload (callback t)) (timers st).

(** Handles are fresh and distinct, and the pending unload timers are
    exactly the pending timers whose handle is stored in [unloadTimer]. *)
Record timerInv (st : State) : Prop := {
  ti_fresh : forall t, In t (timers st) -> (handle t < nextHandle st)%nat;
  ti_nodup : NoDup (map handle (timers st));
  ti_unload : forall t, In t (timers st) ->
     (isUnload (callback t) = true <-> unloadTimer st = Some (handle t));
  ti_handle : forall h, unloadTimer st = Some h -> (h < nextHandle st)%nat
}.

(** [gemmaModel] and [ttsModel] are [null]. *)
Definition noModel (st : State) : Prop :=
  gemmaModel st = None /\ ttsModel st = None.

(** The key of the latest status write that marked a model as loaded. *)
Fixpoint lastLoadedKey (l : list LogEvent) : option string :=
  match l with
  | [] => None
  | StatusSet key s :: older => if isLoaded s then Some key else lastLoadedKey older
  | _ :: older => lastLoadedKey older
  end.

(** The queue task that a pending timer will resume, if any. *)
Definition callerTask (k : Caller) : option nat :=
  match k with QueueTask i => Some i | Direct _ => None end.

Definition timerTask (t : Timer) : option nat :=
  match callback t with
  | LoadResolved _ k | CheckStatus _ k => callerTask k
  | UnloadCallback _ => None
  end.

(** Tasks that were popped and whose closure is suspended in the load. *)
Definition waitingTasks (st : State) : list nat := omap timerTask (timers st).

(** Tasks that were popped and whose closure waits in the microtask
    queue. *)
Definition continuationTask (c : Continuation) : option nat :=
  match c with ClosureResumes i _ => Some i | LoopResumes => None end.

Definition resumingTasks (st : State) : list nat := omap continuationTask (microtasks st).

(** Tasks between "popped" and "settled", read off the state. *)
Definition openTasks (st : State) : list nat :=
  waitingTasks st ++ resumingTasks st ++ pendingOps st.

(** Reading a log (newest first) as a run of the queue:
    [Some (s, n, cur)] when
    - the submissions are numbered [0, 1, ..] in the order of the calls
      ([s] of them so far),
    - the rest is a sequence of complete rounds
      [Popped i; (OperationBegin i)?; Settled i] for [i = 0, 1, ..] in this
      order and without overlap ([n] rounds begun), each begun after
      [Submitted i], possibly followed by the beginning of the round of
      [cur] (with [true] once its operation has begun).
    [None] when two rounds overlap, a round is out of order, a task is
    popped before it is submitted or an event is out of place. *)
Fixpoint serial (l : list LogEvent) : option (nat * nat * option (nat * bool)) :=
  match l with
  | [] => Some (0%nat, 0%nat, None)
  | e :: older =>
      match serial older with
      | None => None
      | Some (s, n, cur) =>
          match e with
          | Submitted i _ => if Nat.eqb i s then Some (S s, n, cur) else None
          | Popped i =>
              match cur with
              | None => if Nat.eqb i n && Nat.ltb i s then Some (s, S n, Some (i, false)) else None
              | Some _ => None
              end
          | OperationBegin i =>
              match cur with
              | Some (j, false) => if Nat.eqb i j then Some (s, n, Some (i, true)) else None
              | _ => None
              end
          | Settled i _ =>
              match cur with
              | Some (j, _) => if Nat.eqb i j then Some (s, n, None) else None
              | None => None
              end
          | _ => Some (s, n, cur)
          end
      end
  end.

Fixpoint countPopped (l : list LogEvent) : nat :=
  match l with
  | [] => 0
  | Popped _ :: older => S (countPopped older)
  | _ :: older => countPopped older
  end.

Fixpoint countSettled (l : list LogEvent) : nat :=
  match l with
  | [] => 0
  | Settled _ _ :: older => S (countSettled older)
  | _ :: older => countSettled older
  end.

Fixpoint countSubmitted (l : list LogEvent) : nat :=
  match l with
  | [] => 0
  | Submitted _ _ :: older => S (countSubmitted older)
  | _ :: older => countSubmitted older
  end.

(** Where the queue stands: idle; [processQueue] about to go on; the
    closure of task [i] suspended on a timer of its load, or about to go
    on; the operation of task [i] running. *)
Inductive Phase :=
| Idle
| LoopPending
| ClosureSuspended (i : nat)
| ClosurePending (i : nat) (err : option string)
| Operating (i : nat).

(** The open round that [serial] reads in each phase. *)
Definition phaseRound (p : Phase) : option (nat * bool) :=
  match p with
  | Idle | LoopPending => None
  | ClosureSuspended i | ClosurePending i _ => Some (i, false)
  | Operating i => Some (i, true)
  end.

(** The state in phase [p] with [n] rounds begun: it agrees with the
    reading of its log. *)
Record queueAt (n : nat) (p : Phase) (st : State) : Prop := {
  qa_serial : serial (log st) = Some (nextTask st, n, phaseRound p);
  qa_ids : map opId (requestQueue st) = seq n (length (requestQueue st));
  qa_next : nextTask st = (n + length (requestQueue st))%nat;
  qa_flag : isProcessingQueue st = match p with Idle => false | _ => true end;
  qa_idle : p = Idle -> requestQueue st = [];
  qa_waiting : waitingTasks st = match p with ClosureSuspended i => [i] | _ => [] end;
  qa_micro : microtasks st =
             match p with
             | LoopPending => [LoopResumes]
             | ClosurePending i err => [ClosureResumes i err]
             | _ => []
             end;
  qa_pending : pendingOps st = match p with Operating i => [i] | _ => [] end
}.

Definition queueInv (st : State) : Prop := exists n p, queueAt n p st.

(** The log events that [serial] reads. *)
Definition isQueueEvent (e : LogEvent) : bool :=
  match e with
  | Submitted _ _ | Popped _ | OperationBegin _ | Settled _ _ => true
  | _ => false
  end.

(** The events of the queue, oldest first. *)
Definition queueLog (st : State) : list LogEvent :=
  rev (List.filter isQueueEvent (log st)).

(** Two states that the queue cannot tell apart. *)
Record queueSame (st st' : State) : Prop := {
  qs_queue : requestQueue st' = requestQueue st;
  qs_flag : isProcessingQueue st' = isProcessingQueue st;
  qs_next : nextTask st' = nextTask st;
  qs_pending : pendingOps st' = pendingOps st;
  qs_waiting : waitingTasks st' = waitingTasks st;
  qs_micro : microtasks st' = microtasks st;
  qs_serial : serial (log st') = serial (log st)
}.

(** What a load does to the queue's view of the state: nothing, except
    that a suspended call adds its caller to the waiting tasks. *)
Record loadEffect (k : Caller) (o : LoadOutcome) (st st' : State) : Prop := {
  le_queue : requestQueue st' = requestQueue st;
  le_flag : isProcessingQueue st' = isProcessingQueue st;
  le_next : nextTask st' = nextTask st;
  le_pending : pendingOps st' = pendingOps st;
  le_micro : microtasks st' = microtasks st;
  le_serial : serial (log st') = serial (log st);
  le_waiting : waitingTasks st' = waitingTasks st ++
     match o with Awaiting => option_list (callerTask k) | Returned _ => [] end
}.

Definition isLoadResolved (m : ModelId) (cb : Callback) : Prop :=
  exists k, cb = LoadResolved m k.

Definition isCheckStatus (m : ModelId) (cb : Callback) : Prop :=
  exists k, cb = CheckStatus m k.

(** The model that a load or poll timer belongs to. *)
Definition timerModel (cb : Callback) : option ModelId :=
  match cb with
  | LoadResolved m _ | CheckStatus m _ => Some m
  | UnloadCallback _ => None
  end.

Section LoadInvariant.

Variable config : ModelId -> ModelConfig.

(** Status and timers of model [m] agree: the status says "loading"
    exactly while the 2000 ms timer of one load is pending; a polling
    caller exists only while the model is loading or loaded; a loaded
    model carries no error. *)
Record loadInv (st : State) (m : ModelId) : Prop := {
  li_loading : statusFlag isLoading (modelKey m) st = true <->
               exists t, In t (timers st) /\ isLoadResolved m (callback t);
  li_single : forall t1 t2, In t1 (timers st) -> In t2 (timers st) ->
               isLoadResolved m (callback t1) -> isLoadResolved m (callback t2) -> t1 = t2;
  li_exclusive : forall s, modelStatus st !! modelKey m = Some s ->
               isLoaded s = true -> isLoading s = false /\ error s = None /\
               memoryUsage s = memoryLimit (config m);
  li_unloaded : forall s, modelStatus st !! modelKey m = Some s ->
               isLoaded s = false -> memoryUsage s = 0;
  li_waiters : forall t, In t (timers st) -> isCheckStatus m (callback t) ->
               statusFlag isLoading (modelKey m) st = true \/
               statusFlag isLoaded (modelKey m) st = true
}.

(** Every pending unload timer targets the model that was loaded last. *)
Definition lastInv (st : State) : Prop :=
  forall t key, In t (timers st) -> callback t = UnloadCallback key ->
                lastLoadedKey (log st) = Some key.

Definition lifeInv (st : State) : Prop :=
  lastInv st /\ forall m, loadInv st m.

End LoadInvariant.

(** *** Further methods, and readers of the state and the log *)

(** [cleanup()]: [clearCache()] only touches the persistent
    [AsyncStorage], and removing the subscription stops the delivery of
    further application-state events. *)
Definition cleanup (st : State) : State :=
  unloadTTSModel (unloadGemmaModel (cancelUnloadTimer st)).

(** The tasks whose promise has settled, newest first. *)
Fixpoint settledTasks (l : list LogEvent) : list nat :=
  match l with
  | [] => []
  | Settled i _ :: older => i :: settledTasks older
  | _ :: older => settledTasks older
  end.

(** The status entry of model [m] is [s]. *)
Definition statusIs (m : ModelId) (s : ModelStatus) (st : State) : Prop :=
  modelStatus st !! modelKey m = Some s.

(** What a run that enters through the queue alone maintains: every
    pending load or poll belongs to a queue task, the footprint of every
    load in flight still fits, and the recorded usage is within the 512 MB
    of [checkMemoryAvailability]. *)
Record budgetInv (config : ModelId -> ModelConfig) (st : State) : Prop := {
  bi_callers : forall t, In t (timers st) -> isUnload (callback t) = false ->
               timerTask t <> None;
  bi_pending : forall t m k, In t (timers st) -> callback t = LoadResolved m k ->
               getCurrentMemoryUsage st + memoryLimit (config m) <= 512;
  bi_usage : getCurrentMemoryUsage st <= 512
}.

(** The methods of the two models as they are shipped. *)
Definition loadGemmaModel : Caller -> State -> LoadOutcome * State := loadModel CONFIG Gemma.
Definition loadTTSModel : Caller -> State -> LoadOutcome * State := loadModel CONFIG TTS.
Definition executeWithGemma : State -> State := executeWith CONFIG Gemma.
Definition executeWithTTS : State -> State := executeWith CONFIG TTS.

End ModelManager.

(** ** JavaScript [Map] with string keys

    A [Map] iterates in insertion order and [set] on a present key keeps
    the position of the key.  Both caches iterate over their entries (to
    sort them or to look for the oldest one), so the order is part of the
    model: a list of pairs, oldest insertion first. *)

Module JsMap.

Section Ops.

Context {V : Type}.

Fixpoint get (k : string) (m : list (string * V)) : option V :=
  match m with
  | [] => None
  | (k', v) :: rest => if String.eqb k' k then Some v else get k rest
  end.

Fixpoint set (k : string) (v : V) (m : list (string * V)) : list (string * V) :=
  match m with
  | [] => [(k, v)]
  | (k', v') :: rest =>
      if String.eqb k' k then (k, v) :: rest else (k', v') :: set k v rest
  end.

Definition delete (k : string) (m : list (string * V)) : list (string * V) :=
  List.filter (fun kv => negb (String.eqb (fst kv) k)) m.

Definition size (m : list (string * V)) : nat := length m.

Definition keys (m : list (string * V)) : list string := map fst m.

Definition values (m : list (string * V)) : list V := map snd m.

(** What holds of every [Map]: a key occurs once. *)
Definition wf (m : list (string * V)) : Prop := NoDup (keys m).

End Ops.

End JsMap.

(** ** utils/memoryManager.ts *)

Module MemoryManager.

Record CacheItem := {
  key : string;
  size : Z;
  timestamp : Z;
  priority : Z   (* 1 = high, 2 = medium, 3 = low *)
}.

(** [Platform.OS]. *)
Inductive PlatformOS := ios | android | windows | macos | web.

(** The argument [data : any] of [addCacheItem], as far as
    [estimateDataSize] looks at it: a string is measured by the bytes of
    its UTF-8 encoding ([new Blob([data]).size]), an object by the bytes of
    [JSON.stringify(data)], anything else counts 0.  Strings are given by
    their UTF-8 bytes. *)
Inductive JsData :=
| JsString (utf8 : string)
| JsObject (json : string)
| JsOther.

(** A string of [n] bytes, for the examples. *)
Fixpoint payload (n : nat) : string :=
  match n with
  | O => EmptyString
  | S n' => String (Ascii.ascii_of_nat 120) (payload n')
  end.

Definition estimateDataSize (data : JsData) : Z :=
  match data with
  | JsString utf8 => Z.of_nat (String.length utf8)
  | JsObject json => Z.of_nat (String.length json)
  | JsOther => 0
  end.

(** [MEMORY_THRESHOLD = 0.8] is the double [3602879701896397 / 2^52].
    [getTotalMemory()] is 4096 or 8192, a power of two, so the quotient
    [usedMemory / totalMemory] is computed exactly and the comparison
    [usageRatio > MEMORY_THRESHOLD] is the comparison of two fractions. *)
Definition MEMORY_THRESHOLD_num : Z := 3602879701896397.
Definition MEMORY_THRESHOLD_den : Z := 4503599627370496.

Definition CLEANUP_INTERVAL : Z := 300000.
Definition CACHE_EXPIRY : Z := 3600000.

(** The field [cacheItems]. *)
Definition Cache := list (string * CacheItem).

Definition removeCacheItem (k : string) (cacheItems : Cache) : Cache :=
  JsMap.delete k cacheItems.

Definition getCacheItem (k : string) (cacheItems : Cache) : option CacheItem :=
  JsMap.get k cacheItems.

Definition getTotalMemory (os : PlatformOS) : Z :=
  match os with ios => 4096 | _ => 8192 end.

Definition getCacheSize (cacheItems : Cache) : Z :=
  fold_left (fun totalSize item => totalSize + size item) (JsMap.values cacheItems) 0.

Definition getModelMemory : Z := 256.

Definition getUsedMemory (cacheItems : Cache) : Z :=
  let cacheSize := getCacheSize cacheItems in
  let modelMemory := getModelMemory in
  let baseMemory := 512 in
  baseMemory + cacheSize + modelMemory.

(** [usageRatio > this.MEMORY_THRESHOLD] with
    [usageRatio = usedMemory / totalMemory]. *)
Definition overThreshold (os : PlatformOS) (cacheItems : Cache) : bool :=
  MEMORY_THRESHOLD_num * getTotalMemory os <? getUsedMemory cacheItems * MEMORY_THRESHOLD_den.

Definition isExpired (now : Z) (item : CacheItem) : bool :=
  CACHE_EXPIRY <? now - timestamp item.

Definition deleteKeys (ks : list string) (cacheItems : Cache) : Cache :=
  fold_left (fun c k => JsMap.delete k c) ks cacheItems.

Definition removeExpiredCacheItems (now : Z) (cacheItems : Cache) : Cache :=
  let expiredKeys :=
    map fst (List.filter (fun kv => isExpired now (snd kv)) cacheItems) in
  deleteKeys expiredKeys cacheItems.

(** [Array.prototype.sort((a, b) => a.timestamp - b.timestamp)]: a stable
    sort by increasing timestamp. *)
Fixpoint insertByTimestamp (x : CacheItem) (l : list CacheItem) : list CacheItem :=
  match l with
  | [] => [x]
  | y :: rest =>
      if timestamp x <? timestamp y then x :: y :: rest
      else y :: insertByTimestamp x rest
  end.

Definition sortByTimestamp (l : list CacheItem) : list CacheItem :=
  fold_left (fun sorted x => insertByTimestamp x sorted) l [].

Definition lowPriorityItems (cacheItems : Cache) : list CacheItem :=
  sortByTimestamp (List.filter (fun item => priority item =? 3) (JsMap.values cacheItems)).

(** [Math.ceil(lowPriorityItems.length * 0.5)]. *)
Definition itemsToRemove (cacheItems : Cache) : nat :=
  Nat.div2 (S (length (lowPriorityItems cacheItems))).

Definition removeLowPriorityItems (cacheItems : Cache) : Cache :=
  deleteKeys (map key (firstn (itemsToRemove cacheItems) (lowPriorityItems cacheItems)))
             cacheItems.

(** The listeners of [notifyMemoryWarningListeners] are callbacks of other
    components and are not part of the cache. *)
Definition performMemoryCleanup (os : PlatformOS) (now : Z) (cacheItems : Cache) : Cache :=
  let c1 := removeExpiredCacheItems now cacheItems in
  if overThreshold os c1 then removeLowPriorityItems c1 else c1.

Definition checkMemoryThreshold (os : PlatformOS) (now : Z) (cacheItems : Cache) : Cache :=
  if overThreshold os cacheItems then performMemoryCleanup os now cacheItems
  else cacheItems.

Definition addCacheItem (os : PlatformOS) (now : Z)
    (k : string) (data : JsData) (prio : Z) (cacheItems : Cache) : Cache :=
  let item := {| key := k; size := estimateDataSize data; timestamp := now; priority := prio |} in
  checkMemoryThreshold os now (JsMap.set k item cacheItems).

(** [clearAsyncStorageCache()] only removes keys of the persistent
    [AsyncStorage]. *)
Definition performAggressiveCleanup (cacheItems : Cache) : Cache :=
  let keysToRemove :=
    map fst (List.filter (fun kv => 1 <? priority (snd kv)) cacheItems) in
  deleteKeys keysToRemove cacheItems.

Definition resumeNormalOperation (cacheItems : Cache) : Cache := cacheItems.

Definition handleAppStateChange
    (nextAppState : ModelManager.AppStateStatus) (cacheItems : Cache) : Cache :=
  match nextAppState with
  | ModelManager.background | ModelManager.inactive => performAggressiveCleanup cacheItems
  | ModelManager.active => resumeNormalOperation cacheItems
  | _ => cacheItems
  end.

(** [performPeriodicCleanup] reads the clock in its own call of
    [removeExpiredCacheItems] ([now]) and, when the usage is above the
    threshold afterwards, once more in the call that [performMemoryCleanup]
    makes ([now'], the later reading). *)
Definition performPeriodicCleanup (os : PlatformOS) (now now' : Z) (cacheItems : Cache)
    : Cache :=
  checkMemoryThreshold os now' (removeExpiredCacheItems now cacheItems).

Definition forceCleanup (cacheItems : Cache) : Cache := [].

(** [getCacheStats()]; [priorityBreakdown] is given for the three
    priorities that the object is initialised with. *)
Record CacheStats := {
  totalItems : nat;
  totalSize : Z;
  priorityBreakdown : nat * nat * nat
}.

Definition countPriority (p : Z) (cacheItems : Cache) : nat :=
  length (List.filter (fun item => priority item =? p) (JsMap.values cacheItems)).

Definition getCacheStats (cacheItems : Cache) : CacheStats :=
  {| totalItems := JsMap.size cacheItems;
     totalSize := getCacheSize cacheItems;
     priorityBreakdown :=
       (countPriority 1 cacheItems, countPriority 2 cacheItems, countPriority 3 cacheItems) |}.

(** An entry of the map as [addCacheItem] stores it, for the examples. *)
Definition entry (k : string) (sz ts prio : Z) : string * CacheItem :=
  (k, {| key := k; size := sz; timestamp := ts; priority := prio |}).

(** The order of [sortByTimestamp]. *)
Definition olderOrEqual (a b : CacheItem) : Prop := timestamp a <= timestamp b.

(** Each entry is stored under its own key, as [addCacheItem] does. *)
Definition keyed (cacheItems : Cache) : Prop :=
  forall k item, In (k, item) cacheItems -> key item = k.

(** *** The listeners of memory warnings

    The listeners are functions, compared by identity
    ([Array.prototype.indexOf] uses [===]); a listener is given by a number
    that identifies it. *)
Definition addMemoryWarningListener (listener : nat) (memoryWarningListeners : list nat)
    : list nat :=
  memoryWarningListeners ++ [listener].

Fixpoint indexOf (listener : nat) (l : list nat) : option nat :=
  match l with
  | [] => None
  | x :: rest =>
      if Nat.eqb x listener then Some O else option_map S (indexOf listener rest)
  end.

(** [splice(index, 1)] at the index of the first occurrence. *)
Definition removeMemoryWarningListener (listener : nat) (memoryWarningListeners : list nat)
    : list nat :=
  match indexOf listener memoryWarningListeners with
  | Some index => firstn index memoryWarningListeners ++ skipn (S index) memoryWarningListeners
  | None => memoryWarningListeners
  end.

End MemoryManager.

(** ** The two listeners of the application state

    [ModelManager] and [MemoryManager] each register a handler for the
    ['change'] event of [AppState]; one event runs both. *)

Module SignalBridge.

Record Services := {
  manager : ModelManager.State;
  cacheItems : MemoryManager.Cache
}.

Definition appStateChange (s : ModelManager.AppStateStatus) (sv : Services) : Services :=
  {| manager := ModelManager.handleAppStateChange s (manager sv);
     cacheItems := MemoryManager.handleAppStateChange s (cacheItems sv) |}.

End SignalBridge.

(** ** services/optimizedTranslationService.ts: the translation cache *)

Module TranslationCache.

Section Cache.

(** The type of [confidence], a JavaScript number that the cache only
    stores. *)
Variable Confidence : Type.

Record CacheEntry := {
  text : string;
  timestamp : Z;
  confidence : Confidence
}.

Definition CACHE_EXPIRY_HOURS : Z := 24.
Definition MAX_CACHE_SIZE : nat := 500.

(** The field [translationCache]. *)
Definition Cache := list (string * CacheEntry).

Definition getFromCache (now : Z) (k : string) (translationCache : Cache)
    : option string * Cache :=
  match JsMap.get k translationCache with
  | Some entry =>
      if now - timestamp entry <? CACHE_EXPIRY_HOURS * 3600000
      then (Some (text entry), translationCache)
      else (None, JsMap.delete k translationCache)
  | None => (None, translationCache)
  end.

(** The [for] loop of [evictOldestCacheEntry]: the pair
    [(oldestKey, oldestTime)] after the entries seen so far. *)
Definition oldestStep (acc : string * Z) (kv : string * CacheEntry) : string * Z :=
  if timestamp (snd kv) <? snd acc then (fst kv, timestamp (snd kv)) else acc.

Definition evictOldestCacheEntry (now : Z) (translationCache : Cache) : Cache :=
  let '(oldestKey, _) := fold_left oldestStep translationCache (EmptyString, now) in
  (* [if (oldestKey)]: the empty string is falsy *)
  if String.eqb oldestKey EmptyString then translationCache
  else JsMap.delete oldestKey translationCache.

Definition addToCache (now : Z) (k : string) (txt : string) (conf : Confidence)
    (translationCache : Cache) : Cache :=
  let c1 :=
    if Nat.leb MAX_CACHE_SIZE (JsMap.size translationCache)
    then evictOldestCacheEntry now translationCache
    else translationCache in
  JsMap.set k {| text := txt; timestamp := now; confidence := conf |} c1.

Definition cleanupExpiredCache (now : Z) (translationCache : Cache) : Cache :=
  List.filter
    (fun kv => negb (CACHE_EXPIRY_HOURS * 3600000 <? now - timestamp (snd kv)))
    translationCache.

(** [getCacheStats()]: [{ size, memoryUsage: size * 100 }]. *)
Definition getCacheStats (translationCache : Cache) : nat * Z :=
  (JsMap.size translationCache, Z.of_nat (JsMap.size translationCache) * 100).

End Cache.

(** A cache of [n] entries under distinct keys of the form produced by
    [generateCacheKey], all stamped [ts], for the examples. *)
Definition filledCache (ts : Z) (n : nat) : list (string * CacheEntry Z) :=
  map (fun i : nat =>
         (String.append "translation_en_hi_" (pretty i),
          {| text := "namaste"; timestamp := ts; confidence := 1 |}))
      (seq 0 n).

Arguments text {Confidence} _.
Arguments timestamp {Confidence} _.
Arguments confidence {Confidence} _.
Arguments getFromCache {Confidence} _ _ _.
Arguments evictOldestCacheEntry {Confidence} _ _.
Arguments addToCache {Confidence} _ _ _ _ _.
Arguments cleanupExpiredCache {Confidence} _ _.
Arguments getCacheStats {Confidence} _.

End TranslationCache.

(** ** JavaScript strings, arrays and 32-bit integers

    A string whose content is read ([charCodeAt], [length], [split], a
    character class of a regular expression) is given by its UTF-16 code
    units; a string that is only stored, compared and concatenated (a
    language code, a cache key, a cached translation) is a [string]. *)

Module Js.

Definition CodeUnits := list Z.

(** [ToInt32]: the signed 32-bit integer congruent to [x]. *)
Definition toInt32 (x : Z) : Z := (x + 2 ^ 31) mod 2 ^ 32 - 2 ^ 31.

(** [x << n] and [x & y]. *)
Definition shl (x n : Z) : Z := toInt32 (Z.shiftl (toInt32 x) (n mod 32)).

Definition band (x y : Z) : Z := Z.land (toInt32 x) (toInt32 y).

(** [Math.ceil(a / b)] for integers. *)
Definition ceilDiv (a b : Z) : Z := - (- a / b).

(** [s.split(sep)] for a separator of one code unit: never an empty
    array. *)
Fixpoint split (sep : Z) (s : CodeUnits) : list CodeUnits :=
  match s with
  | [] => [[]]
  | c :: rest =>
      if c =? sep then [] :: split sep rest
      else
        match split sep rest with
        | w :: ws => (c :: w) :: ws
        | [] => [[c]]
        end
  end.

(** [words.join(sep)]. *)
Fixpoint join (sep : Z) (words : list CodeUnits) : CodeUnits :=
  match words with
  | [] => []
  | w :: rest =>
      match rest with
      | [] => w
      | _ :: _ => w ++ sep :: join sep rest
      end
  end.

(** [array.slice(start, end)]: a negative index counts from the end. *)
Definition sliceIndex (len i : Z) : Z :=
  if i <? 0 then Z.max (len + i) 0 else Z.min i len.

Definition slice {A} (start final : Z) (l : list A) : list A :=
  let len := Z.of_nat (length l) in
  let k := sliceIndex len start in
  firstn (Z.to_nat (sliceIndex len final - k)) (skipn (Z.to_nat k) l).

(** The code units that [trim] removes: WhiteSpace and LineTerminator. *)
Definition isWhiteSpace (c : Z) : bool :=
  ((9 <=? c) && (c <=? 13)) || (c =? 32) || (c =? 160) || (c =? 0x1680) ||
  ((0x2000 <=? c) && (c <=? 0x200A)) || (c =? 0x2028) || (c =? 0x2029) ||
  (c =? 0x202F) || (c =? 0x205F) || (c =? 0x3000) || (c =? 0xFEFF).

Fixpoint trimStart (s : CodeUnits) : CodeUnits :=
  match s with
  | c :: rest => if isWhiteSpace c then trimStart rest else s
  | [] => []
  end.

Definition trim (s : CodeUnits) : CodeUnits := rev (trimStart (rev (trimStart s))).

(** [regexp.test(text)] for a regular expression that is one character
    class made of ranges of code units, without flags. *)
Definition inRange (c : Z) (r : Z * Z) : bool := (fst r <=? c) && (c <=? snd r).

Definition test (class : list (Z * Z)) (text : CodeUnits) : bool :=
  existsb (fun c => existsb (inRange c) class) text.

(** The code units of an ASCII string, for the examples. *)
Definition ascii (s : string) : CodeUnits :=
  map (fun a => Z.of_nat (Ascii.nat_of_ascii a)) (String.list_ascii_of_string s).

End Js.

(** ** services/optimizedTranslationService.ts: requests, keys and text *)

Module TranslationService.

Import Js.

Record TranslationRequest := {
  text : CodeUnits;
  fromLang : string;
  toLang : string;
  maxTokens : option Z
}.

Definition MAX_TOKENS : Z := 256.
Definition STREAM_CHUNK_SIZE : Z := 32.

(** One turn of the loop of [hashText]. *)
Definition hashStep (hash char : Z) : Z :=
  let hash := (shl hash 5 - hash) + char in
  band hash hash.

(** The value of [hash] when the loop of [hashText] ends. *)
Definition hashLoop (text : CodeUnits) : Z := fold_left hashStep text 0.

Definition hashText (text : CodeUnits) : string := pretty (hashLoop text).

Definition generateCacheKey (request : TranslationRequest) : string :=
  "translation_" +:+ fromLang request +:+ "_" +:+ toLang request +:+ "_" +:+
  hashText (text request).

(** [validateTranslationRequest]: the message of the error it throws, if
    any. *)
Definition validateTranslationRequest (request : TranslationRequest) : option string :=
  if Nat.eqb (length (text request)) 0 || Nat.eqb (length (trim (text request))) 0
  then Some "Translation text cannot be empty"
  else if String.eqb (fromLang request) "" || String.eqb (toLang request) ""
  then Some "Source and target languages must be specified"
  else None.

Definition truncateTextForTokens (text : CodeUnits) (maxTokens : Z) : CodeUnits :=
  let words := split 32 text in
  if Z.of_nat (length words) <=? maxTokens then text
  else join 32 (slice 0 maxTokens words).

(** [request.maxTokens || this.MAX_TOKENS] and the text that
    [performGemmaTranslation] puts into the prompt. *)
Definition tokenLimit (request : TranslationRequest) : Z :=
  match maxTokens request with
  | Some n => if n =? 0 then MAX_TOKENS else n
  | None => MAX_TOKENS
  end.

Definition truncatedText (request : TranslationRequest) : CodeUnits :=
  truncateTextForTokens (text request) (tokenLimit request).

(** *** [translateText] and the cache

    The method up to its first [await]: the answer comes from the cache,
    or the request is rejected, or the translation is handed to the model
    manager.  An empty cached text is falsy and counts as a miss. *)

Inductive TranslateOutcome :=
| FromCache (translatedText : string)
| Rejected (message : string)
| AwaitingModel.

Section Translate.

Variable Confidence : Type.

Definition translateText (now : Z) (request : TranslationRequest)
    (translationCache : TranslationCache.Cache Confidence)
    : TranslateOutcome * TranslationCache.Cache Confidence :=
  let cacheKey := generateCacheKey request in
  let '(cachedResult, cache1) := TranslationCache.getFromCache now cacheKey translationCache in
  match cachedResult with
  | Some t =>
      if negb (String.eqb t "") then (FromCache t, cache1)
      else
        match validateTranslationRequest request with
        | Some message => (Rejected message, cache1)
        | None => (AwaitingModel, cache1)
        end
  | None =>
      match validateTranslationRequest request with
      | Some message => (Rejected message, cache1)
      | None => (AwaitingModel, cache1)
      end
  end.

(** The rest of [translateText], run when the model manager has
    delivered the result of the operation. *)
Definition translateTextResume (now : Z) (request : TranslationRequest)
    (translatedText : string) (confidence : Confidence)
    (translationCache : TranslationCache.Cache Confidence)
    : TranslationCache.Cache Confidence :=
  TranslationCache.addToCache now (generateCacheKey request) translatedText confidence
    translationCache.

(** A completed translation: the clock when [translateText] resumes, the
    request and the result that is cached. *)
Record Completion := {
  completedAt : Z;
  completedRequest : TranslationRequest;
  completedText : string;
  completedConfidence : Confidence
}.

(** The cache after a sequence of completed translations. *)
Definition completeAll (completions : list Completion)
    (translationCache : TranslationCache.Cache Confidence)
    : TranslationCache.Cache Confidence :=
  fold_left
    (fun cache c =>
       translateTextResume (completedAt c) (completedRequest c) (completedText c)
         (completedConfidence c) cache)
    completions translationCache.

End Translate.

(** *** [translateTextStream]

    The [for] loop over the words of the translated text, with the chunks
    handed to [onChunk] in order.  [confidence] is a floating-point number
    derived from [tokensUsed] and is left out of the record.  The loop
    advances by [STREAM_CHUNK_SIZE] words, so [length words] turns are
    enough ([fuel]). *)

Record StreamingResponse := {
  partialText : CodeUnits;
  isComplete : bool;
  tokensUsed : Z
}.

Fixpoint streamLoop (fuel : nat) (words : list CodeUnits) (i : Z)
    (accumulatedText : CodeUnits) (tokensUsed : Z) : list StreamingResponse :=
  match fuel with
  | O => []
  | S fuel' =>
      if i <? Z.of_nat (length words) then
        let chunk := join 32 (slice i (i + STREAM_CHUNK_SIZE) words) in
        let accumulatedText :=
          accumulatedText ++ (match accumulatedText with [] => [] | _ :: _ => [32] end) ++ chunk in
        let tokensUsed := tokensUsed + STREAM_CHUNK_SIZE in
        {| partialText := accumulatedText;
           isComplete := Z.of_nat (length words) <=? i + STREAM_CHUNK_SIZE;
           tokensUsed := tokensUsed |}
        :: streamLoop fuel' words (i + STREAM_CHUNK_SIZE) accumulatedText tokensUsed
      else []
  end.

Definition translateTextStream (translatedText : CodeUnits) : list StreamingResponse :=
  let words := split 32 translatedText in
  streamLoop (length words) words 0 [] 0.

(** *** [simpleLanguageDetection]

    The same method is in [services/translationService.ts]. *)

Definition hindiPattern : list (Z * Z) := [(0x0900, 0x097F)].
Definition arabicPattern : list (Z * Z) := [(0x0600, 0x06FF)].
Definition chinesePattern : list (Z * Z) := [(0x4E00, 0x9FFF)].
Definition japanesePattern : list (Z * Z) :=
  [(0x3040, 0x309F); (0x30A0, 0x30FF); (0x4E00, 0x9FFF)].
Definition koreanPattern : list (Z * Z) := [(0xAC00, 0xD7AF)].
Definition cyrillicPattern : list (Z * Z) := [(0x0400, 0x04FF)].
Definition nepaliPattern : list (Z * Z) := [(0x0900, 0x097F)].
Definition bengaliPattern : list (Z * Z) := [(0x0980, 0x09FF)].
Definition tamilPattern : list (Z * Z) := [(0x0B80, 0x0BFF)].
Definition teluguPattern : list (Z * Z) := [(0x0C00, 0x0C7F)].
Definition kannadaPattern : list (Z * Z) := [(0x0C80, 0x0CFF)].
Definition malayalamPattern : list (Z * Z) := [(0x0D00, 0x0D7F)].
Definition gujaratiPattern : list (Z * Z) := [(0x0A80, 0x0AFF)].
Definition punjabiPattern : list (Z * Z) := [(0x0A00, 0x0A7F)].
Definition odiaPattern : list (Z * Z) := [(0x0B00, 0x0B7F)].

Definition simpleLanguageDetection (text : CodeUnits) : string :=
  if test hindiPattern text then "hi"
  else if test nepaliPattern text then "ne"
  else if test bengaliPattern text then "bn"
  else if test tamilPattern text then "ta"
  else if test teluguPattern text then "te"
  else if test kannadaPattern text then "kn"
  else if test malayalamPattern text then "ml"
  else if test gujaratiPattern text then "gu"
  else if test punjabiPattern text then "pa"
  else if test odiaPattern text then "or"
  else if test arabicPattern text then "ar"
  else if test chinesePattern text then "zh"
  else if test japanesePattern text then "ja"
  else if test koreanPattern text then "ko"
  else if test cyrillicPattern text then "ru"
  else "en".

(** The exact polynomial that [hashText] computes modulo [2^32]. *)
Definition polynomial31 (text : CodeUnits) : Z :=
  fold_left (fun h c => 31 * h + c) text 0.

Arguments translateText {Confidence} _ _ _.
Arguments translateTextResume {Confidence} _ _ _ _ _.
Arguments completedAt {Confidence} _.
Arguments completedRequest {Confidence} _.
Arguments completedText {Confidence} _.
Arguments completedConfidence {Confidence} _.
Arguments completeAll {Confidence} _ _.

End TranslationService.

(** ** [OptimizedSpeechService]: audio chunks and silence detection

    The class follows [ModelManager] in [services/modelManager.ts]. *)

Module SpeechService.

Import Js.

Record AudioChunk := {
  data : string;        (* Base64 encoded audio data *)
  isComplete : bool;
  duration : Z
}.

Definition MAX_AUDIO_CHUNKS : nat := 10.
Definition CHUNK_DURATION : Z := 2000.
Definition SILENCE_TIMEOUT : Z := 5000.

(** [addAudioChunk]: [push], then [shift] when the limit is exceeded. *)
Definition addAudioChunk (chunk : AudioChunk) (audioChunks : list AudioChunk)
    : list AudioChunk :=
  let audioChunks := audioChunks ++ [chunk] in
  if Nat.ltb MAX_AUDIO_CHUNKS (length audioChunks) then tl audioChunks else audioChunks.

Definition clearAudioChunks (audioChunks : list AudioChunk) : list AudioChunk := [].

(** [getMemoryUsage()]: [{ audioChunks, estimatedSize }]. *)
Definition getMemoryUsage (audioChunks : list AudioChunk) : nat * Z :=
  (length audioChunks, Z.of_nat (length audioChunks) * 1024).

Section Stream.

(** [btoa]: the Base64 text of a string whose code units are below 256;
    on any other string it throws ([None]). *)
Variable btoa : CodeUnits -> option string.

(** [generateAudioChunk], after its delay of 200 ms. *)
Definition generateAudioChunk (text : CodeUnits) : option AudioChunk :=
  match btoa (Js.ascii "audio_data_for_" ++ text) with
  | Some encoded =>
      Some {| data := encoded; isComplete := false; duration := CHUNK_DURATION |}
  | None => None
  end.

(** The loop of [speakTextStream], run as the operation of a queue task:
    the store [audioChunks], the chunks handed to [onChunk] so far, and
    whether the loop ran to its end ([false]: a call threw and the
    operation rejects).  The loop advances by [chunkSize >= 1] words, so
    [length words] turns are enough ([fuel]). *)
Fixpoint speakLoop (fuel : nat) (words : list CodeUnits) (chunkSize i : Z)
    (audioChunks handed : list AudioChunk) : list AudioChunk * list AudioChunk * bool :=
  match fuel with
  | O => (audioChunks, handed, true)
  | S fuel' =>
      if i <? Z.of_nat (length words) then
        let chunk := join 32 (slice i (i + chunkSize) words) in
        match generateAudioChunk chunk with
        | Some audioChunk =>
            speakLoop fuel' words chunkSize (i + chunkSize)
              (addAudioChunk audioChunk audioChunks) (handed ++ [audioChunk])
        | None => (audioChunks, handed, false)
        end
      else (audioChunks, handed, true)
  end.

Definition speakTextStream (text : CodeUnits) (audioChunks : list AudioChunk)
    : list AudioChunk * list AudioChunk * bool :=
  let words := split 32 text in
  let chunkSize := ceilDiv (Z.of_nat (length words)) 5 in
  speakLoop (length words) words chunkSize 0 audioChunks [].

(** The texts that the loop cuts out, one per turn: the same loop without
    the calls. *)
Fixpoint chunkLoop (fuel : nat) (words : list CodeUnits) (chunkSize i : Z)
    : list CodeUnits :=
  match fuel with
  | O => []
  | S fuel' =>
      if i <? Z.of_nat (length words) then
        join 32 (slice i (i + chunkSize) words)
        :: chunkLoop fuel' words chunkSize (i + chunkSize)
      else []
  end.

Definition chunkTexts (text : CodeUnits) : list CodeUnits :=
  let words := split 32 text in
  let chunkSize := ceilDiv (Z.of_nat (length words)) 5 in
  chunkLoop (length words) words chunkSize 0.

End Stream.

(** *** Silence detection

    The fields that silence detection reads and writes; [recording] says
    whether the field of that name holds an object. *)
Record Recorder := {
  isRecording : bool;
  recording : bool;
  silenceStartTime : Z;
  silenceTimer : bool      (* a [setTimeout(monitorAudioLevel, 100)] is pending *)
}.

(** What one run of [monitorAudioLevel] reads: the clock and the audio
    level ([Math.random() * 100] in the source). *)
Record Sample := { sampledAt : Z; audioLevel : Q }.

(** [simulatedAudioLevel < 10]. *)
Definition isSilent (s : Sample) : bool := negb (Qle_bool 10 (audioLevel s)).

(** [stopRecording], as far as these fields go, called by
    [autoStopRecording]. *)
Definition stopRecording (r : Recorder) : Recorder :=
  {| isRecording := false; recording := false;
     silenceStartTime := silenceStartTime r; silenceTimer := false |}.

Definition monitorAudioLevel (s : Sample) (r : Recorder) : Recorder :=
  if negb (isRecording r) || negb (recording r) then r
  else if isSilent s then
    if silenceStartTime r =? 0 then
      {| isRecording := true; recording := true;
         silenceStartTime := sampledAt s; silenceTimer := true |}
    else if SILENCE_TIMEOUT <=? sampledAt s - silenceStartTime r then stopRecording r
    else {| isRecording := true; recording := true;
            silenceStartTime := silenceStartTime r; silenceTimer := true |}
  else
    {| isRecording := true; recording := true; silenceStartTime := 0; silenceTimer := true |}.

(** The recorder when [startRecording] has called
    [startSilenceDetection], before the first run of
    [monitorAudioLevel]. *)
Definition started : Recorder :=
  {| isRecording := true; recording := true; silenceStartTime := 0; silenceTimer := false |}.

(** The runs of [monitorAudioLevel] that the timer triggers, one per
    sample. *)
Definition monitorAll (samples : list Sample) (r : Recorder) : Recorder :=
  fold_left (fun r s => monitorAudioLevel s r) samples r.

(** The recorder while it listens, with the given start of the silence. *)
Definition listening (start : Z) : Recorder :=
  {| isRecording := true; recording := true; silenceStartTime := start; silenceTimer := true |}.

(** A stretch of silence: consecutive silent samples, the last one at
    least [SILENCE_TIMEOUT] after the first. *)
Definition silentStretch (samples : list Sample) : Prop :=
  exists before first run last after,
    samples = before ++ first :: run ++ last :: after /\
    Forall (fun s => isSilent s = true) (first :: run ++ [last]) /\
    SILENCE_TIMEOUT <= sampledAt last - sampledAt first.

End SpeechService.

(** * Properties of the model manager *)

Import ModelManager.

Section TimerInvariant.

Variable config : ModelId -> ModelConfig.

Lemma timerInv_fields st st' :
  timers st' = timers st -> nextHandle st' = nextHandle st ->
  unloadTimer st' = unloadTimer st -> timerInv st -> timerInv st'.
Proof.
  intros Ht Hn Hu [H1 H2 H3 H4]; split; rewrite ?Ht, ?Hn, ?Hu; auto.
Qed.

Ltac frame_timers :=
  intros; eapply timerInv_fields; [ | | | eassumption]; reflexivity.

Lemma timerInv_initial : timerInv initial.
Proof.
  split; cbn; try tauto; try discriminate. constructor.
Qed.

Lemma timerInv_setTimeout cb delay st :
  isUnload cb = false -> timerInv st -> timerInv (snd (setTimeout cb delay st)).
Proof.
  intros Hcb [H1 H2 H3 H4]; split; cbn.
  - intros t [Hin | [<- | []]]%in_app_iff; cbn; [specialize (H1 _ Hin)|]; lia.
  - rewrite map_app; cbn. apply NoDup_app. split_and!; auto.
    + intros h Hh [Heq | []]%list_elem_of_In.
      apply list_elem_of_In, in_map_iff in Hh as (t & <- & Hin).
      specialize (H1 _ Hin). cbn in Heq. lia.
    + apply NoDup_singleton.
  - intros t [Hin | [<- | []]]%in_app_iff; cbn; auto.
    rewrite Hcb. split; [discriminate|]. intros Hu%H4. lia.
  - intros h Hu%H4. lia.
Qed.

Lemma NoDup_map_filter {A B} (f : A -> B) (p : A -> bool) (l : list A) :
  NoDup (map f l) -> NoDup (map f (List.filter p l)).
Proof.
  induction l as [|a l IH]; cbn; [auto|].
  intros [Hn Hd]%NoDup_cons. destruct (p a); cbn; auto.
  apply NoDup_cons. split; auto.
  intros Hin. apply Hn. apply list_elem_of_In, in_map_iff in Hin as (x & Hx & Hin).
  apply filter_In in Hin as [Hin _].
  apply list_elem_of_In, in_map_iff. eauto.
Qed.

Lemma timerInv_clearTimeout h st : timerInv st -> timerInv (clearTimeout h st).
Proof.
  intros [H1 H2 H3 H4]; split; cbn; auto.
  - intros t [Hin _]%filter_In. auto.
  - apply NoDup_map_filter, H2.
  - intros t [Hin _]%filter_In. auto.
Qed.

Lemma timerInv_cancelUnloadTimer st : timerInv st -> timerInv (cancelUnloadTimer st).
Proof.
  intros Hinv. unfold cancelUnloadTimer.
  destruct (unloadTimer st) as [h|] eqn:Hu; [|assumption].
  destruct Hinv as [H1 H2 H3 H4]; split; cbn.
  - intros t [Hin _]%filter_In. auto.
  - apply NoDup_map_filter, H2.
  - intros t [Hin Hne]%filter_In. split; [|discriminate].
    intros Hun. apply H3 in Hun; [|assumption]. rewrite Hu in Hun.
    injection Hun as ->. rewrite Nat.eqb_refl in Hne. discriminate.
  - discriminate.
Qed.

Lemma no_member_nil {A} (l : list A) : (forall x, In x l -> False) -> l = [].
Proof.
  destruct l as [|a l]; [reflexivity|]. intros H. destruct (H a). left; reflexivity.
Qed.

(** After [cancelUnloadTimer] no unload timer is pending. *)
Lemma cancelUnloadTimer_unloadTimers st :
  timerInv st -> unloadTimers (cancelUnloadTimer st) = [] /\
  unloadTimer (cancelUnloadTimer st) = None.
Proof.
  intros [H1 H2 H3 H4]. unfold cancelUnloadTimer, unloadTimers.
  destruct (unloadTimer st) as [h|] eqn:Hu; cbn.
  - split; [|reflexivity].
    apply no_member_nil. intros t Hin.
    apply filter_In in Hin as [[Hin Hne]%filter_In Hun].
    apply H3 in Hun; [|assumption]. injection Hun as ->.
    rewrite Nat.eqb_refl in Hne. discriminate.
  - split; [|assumption].
    apply no_member_nil. intros t [Hin Hun]%filter_In.
    apply H3 in Hun; [discriminate|assumption].
Qed.

Lemma cancelUnloadTimer_frame st :
  nextHandle (cancelUnloadTimer st) = nextHandle st /\
  now (cancelUnloadTimer st) = now st /\
  modelStatus (cancelUnloadTimer st) = modelStatus st /\
  log (cancelUnloadTimer st) = log st /\
  gemmaModel (cancelUnloadTimer st) = gemmaModel st /\
  ttsModel (cancelUnloadTimer st) = ttsModel st /\
  requestQueue (cancelUnloadTimer st) = requestQueue st /\
  isProcessingQueue (cancelUnloadTimer st) = isProcessingQueue st /\
  nextTask (cancelUnloadTimer st) = nextTask st /\
  pendingOps (cancelUnloadTimer st) = pendingOps st /\
  microtasks (cancelUnloadTimer st) = microtasks st.
Proof.
  unfold cancelUnloadTimer. destruct (unloadTimer st); cbn; repeat split.
Qed.

Lemma scheduleModelUnload_timers key delay st :
  timers (scheduleModelUnload key delay st) =
  timers (cancelUnloadTimer st) ++
    [{| handle := nextHandle st; due := now st + delay; callback := UnloadCallback key |}] /\
  unloadTimer (scheduleModelUnload key delay st) = Some (nextHandle st) /\
  nextHandle (scheduleModelUnload key delay st) = S (nextHandle st).
Proof.
  unfold scheduleModelUnload, setTimeout; cbn.
  destruct (cancelUnloadTimer_frame st) as (-> & -> & _). repeat split.
Qed.

Lemma scheduleModelUnload_spec key delay st :
  timerInv st ->
  timerInv (scheduleModelUnload key delay st) /\
  unloadTimers (scheduleModelUnload key delay st) =
    [{| handle := nextHandle st; due := now st + delay; callback := UnloadCallback key |}].
Proof.
  intros Hinv.
  destruct (scheduleModelUnload_timers key delay st) as (Ht & Hu & Hn).
  destruct (cancelUnloadTimer_unloadTimers st Hinv) as [Hnil Hnone].
  pose proof (timerInv_cancelUnloadTimer st Hinv) as [H1 H2 H3 H4].
  destruct (cancelUnloadTimer_frame st) as (Hnh & _).
  rewrite Hnh in H1.
  split.
  - split; rewrite ?Ht, ?Hu, ?Hn.
    + intros t [Hin | [<- | []]]%in_app_iff; cbn; [specialize (H1 _ Hin)|]; lia.
    + rewrite map_app; cbn. apply NoDup_app. split_and!; auto.
      * intros h Hh [Heq | []]%list_elem_of_In.
        apply list_elem_of_In, in_map_iff in Hh as (t & <- & Hin).
        specialize (H1 _ Hin). cbn in Heq. lia.
      * apply NoDup_singleton.
    + intros t [Hin | [<- | []]]%in_app_iff; cbn; [|tauto].
      split.
      * intros Hun. apply H3 in Hun; [|assumption]. congruence.
      * intros [=Heq]. specialize (H1 _ Hin). lia.
    + intros h [= <-]. lia.
  - unfold unloadTimers in *. rewrite Ht, List.filter_app, Hnil. reflexivity.
Qed.

Lemma timerInv_unloadCallback key st : timerInv st -> timerInv (unloadCallback key st).
Proof.
  unfold unloadCallback, unloadGemmaModel, unloadTTSModel.
  repeat case_match; auto; frame_timers.
Qed.

Lemma timerInv_handleAppStateChange s st :
  timerInv st -> timerInv (handleAppStateChange s st).
Proof.
  intros Hinv. destruct s; cbn; auto.
  - apply timerInv_cancelUnloadTimer. revert Hinv. frame_timers.
  - unfold unloadModelsOnBackground, unloadGemmaModel, unloadTTSModel; cbn.
    repeat case_match; revert Hinv; frame_timers.
  - unfold unloadModelsOnBackground, unloadGemmaModel, unloadTTSModel; cbn.
    repeat case_match; revert Hinv; frame_timers.
Qed.

Lemma timerInv_checkStatus m k st :
  timerInv st -> timerInv (snd (checkStatus m k st)).
Proof.
  intros Hinv. unfold checkStatus.
  repeat case_match; cbn [snd]; auto; apply timerInv_setTimeout; auto.
Qed.

Lemma timerInv_loadModel m k st :
  timerInv st -> timerInv (snd (loadModel config m k st)).
Proof.
  intros Hinv. unfold loadModel, waitForModelLoad.
  repeat case_match; cbn [snd]; auto.
  - apply timerInv_checkStatus, Hinv.
  - revert Hinv. frame_timers.
  - apply timerInv_setTimeout; [reflexivity|]. revert Hinv. frame_timers.
Qed.

Lemma timerInv_finishLoad m st : timerInv st -> timerInv (finishLoad config m st).
Proof.
  intros Hinv. unfold finishLoad.
  apply scheduleModelUnload_spec. revert Hinv. frame_timers.
Qed.

Lemma timerInv_resumeCaller k m st : timerInv st -> timerInv (resumeCaller k m st).
Proof. unfold resumeCaller, queueMicrotask. destruct k; frame_timers. Qed.

Lemma timerInv_runClosure op st :
  timerInv st -> timerInv (runClosure config op st).
Proof.
  intros Hinv. unfold runClosure.
  pose proof (timerInv_loadModel (opModel op) (QueueTask (opId op)) st Hinv) as H.
  destruct (loadModel _ _ _ _) as [[e|] st1]; cbn [snd] in *.
  - revert H. frame_timers.
  - exact H.
Qed.

Lemma timerInv_loopTurn st : timerInv st -> timerInv (loopTurn config st).
Proof.
  intros Hinv. unfold loopTurn. destruct (requestQueue st) as [|op rest].
  - revert Hinv. frame_timers.
  - apply timerInv_runClosure. revert Hinv. frame_timers.
Qed.

Lemma timerInv_runMicrotask c st : timerInv st -> timerInv (runMicrotask config c st).
Proof.
  intros Hinv. destruct c as [id [e|]|]; cbn [runMicrotask closureResumes].
  - revert Hinv. frame_timers.
  - revert Hinv. frame_timers.
  - apply timerInv_loopTurn, Hinv.
Qed.

Lemma timerInv_step st e st' :
  step config st e = Some st' -> timerInv st -> timerInv st'.
Proof.
  destruct e as [m|m|id ok| |h|t|s]; cbn; intros Hstep Hinv.
  - injection Hstep as <-. unfold executeWith, processQueue.
    case_match.
    + revert Hinv. frame_timers.
    + apply timerInv_loopTurn. revert Hinv. frame_timers.
  - injection Hstep as <-. unfold callLoad.
    pose proof (timerInv_loadModel m (Direct (nextCall st))
                  (with_nextCall (S (nextCall st)) st)) as H.
    destruct (loadModel _ _ _ _) as [[err|] st1]; cbn [snd] in H.
    + assert (H1 : timerInv st1) by (apply H; revert Hinv; frame_timers).
      revert H1. frame_timers.
    + apply H. revert Hinv. frame_timers.
  - case_match; [|discriminate]. injection Hstep as <-.
    revert Hinv. frame_timers.
  - destruct (microtasks st) as [|c rest]; [discriminate|]. injection Hstep as <-.
    apply timerInv_runMicrotask. revert Hinv. frame_timers.
  - destruct (noMicrotask st); [|discriminate].
    destruct (findTimer h st) as [t|]; [|discriminate].
    case_match; [|discriminate]. injection Hstep as <-.
    pose proof (timerInv_clearTimeout h st Hinv) as Hcl.
    destruct (callback t) as [m k|m k|key]; cbn [runCallback].
    + apply timerInv_resumeCaller, timerInv_finishLoad, Hcl.
    + pose proof (timerInv_checkStatus m k _ Hcl) as Hcs.
      destruct (checkStatus _ _ _) as [[]]; cbn [snd] in Hcs; auto.
      apply timerInv_resumeCaller, Hcs.
    + apply timerInv_unloadCallback, Hcl.
  - case_match; [|discriminate]. injection Hstep as <-. revert Hinv. frame_timers.
  - destruct (noMicrotask st); [|discriminate].
    injection Hstep as <-. apply timerInv_handleAppStateChange, Hinv.
Qed.

Lemma run_invariant (P : State -> Prop) :
  (forall st e st', step config st e = Some st' -> P st -> P st') ->
  forall es st st', run config st es = Some st' -> P st -> P st'.
Proof.
  intros Hstep es. induction es as [|e es IH]; cbn; intros st st' Hrun HP.
  - injection Hrun as <-. exact HP.
  - destruct (step config st e) as [st1|] eqn:He; [|discriminate].
    eapply IH; eauto.
Qed.

Lemma timerInv_reachable st : reachable config st -> timerInv st.
Proof.
  intros [es Hrun]. eapply (run_invariant timerInv); eauto using timerInv_step, timerInv_initial.
Qed.

End TimerInvariant.

(** ** The model objects are never created

    [gemmaModel] and [ttsModel] are initialised to [null] and the only
    assignments to them in the class assign [null] again. *)

Section NoModel.

Variable config : ModelId -> ModelConfig.

Ltac unfold_machine :=
  unfold executeWith, processQueue, callLoad, operationDone, queueMicrotask,
    runCallback, runMicrotask, closureResumes, loopTurn, runClosure, resumeCaller,
    beginOperation, finishLoad, loadModel,
    waitForModelLoad, checkStatus, scheduleModelUnload, cancelUnloadTimer,
    handleAppStateChange, unloadModelsOnBackground, unloadCallback,
    unloadGemmaModel, unloadTTSModel, setModelStatus, setTimeout, clearTimeout in *.

Lemma noModel_fields st st' :
  gemmaModel st' = gemmaModel st -> ttsModel st' = ttsModel st ->
  noModel st -> noModel st'.
Proof. unfold noModel. intros -> ->. auto. Qed.

Ltac frame_models :=
  intros; eapply noModel_fields; [ | | eassumption];
  unfold_machine; repeat case_match; simplify_eq; reflexivity.

Lemma noModel_loadModel m k st : noModel st -> noModel (snd (loadModel config m k st)).
Proof. frame_models. Qed.

Lemma noModel_runClosure op st : noModel st -> noModel (runClosure config op st).
Proof.
  intros Hinv. unfold runClosure.
  pose proof (noModel_loadModel (opModel op) (QueueTask (opId op)) st Hinv) as Hl.
  destruct (loadModel _ _ _ _) as [[e|] st1]; cbn [snd] in *; revert Hl; frame_models.
Qed.

Lemma noModel_loopTurn st : noModel st -> noModel (loopTurn config st).
Proof.
  intros Hinv. unfold loopTurn. destruct (requestQueue st) as [|op rest].
  - exact Hinv.
  - apply noModel_runClosure. exact Hinv.
Qed.

Lemma noModel_unload st :
  noModel st -> unloadGemmaModel st = st /\ unloadTTSModel st = st.
Proof.
  intros [Hg Ht]. unfold unloadGemmaModel, unloadTTSModel. rewrite Hg, Ht. auto.
Qed.

Lemma noModel_step st e st' :
  step config st e = Some st' -> noModel st -> noModel st'.
Proof.
  destruct e as [m|m|id ok| |h|t|s]; cbn; intros Hstep Hinv.
  - injection Hstep as <-. unfold executeWith, processQueue.
    case_match.
    + exact Hinv.
    + apply noModel_loopTurn. exact Hinv.
  - injection Hstep as <-. revert Hinv. frame_models.
  - case_match; [|discriminate]. injection Hstep as <-. exact Hinv.
  - destruct (microtasks st) as [|c rest]; [discriminate|]. injection Hstep as <-.
    destruct c as [id [e|]|]; cbn [runMicrotask closureResumes]; [exact Hinv|exact Hinv|].
    apply noModel_loopTurn. exact Hinv.
  - destruct (noMicrotask st); [|discriminate].
    destruct (findTimer h st) as [t|]; [|discriminate].
    case_match; [|discriminate]. injection Hstep as <-.
    destruct (callback t) as [m k|m k|key]; cbn [runCallback].
    + revert Hinv. frame_models.
    + revert Hinv. frame_models.
    + assert (Hcl : noModel (clearTimeout h st)) by (revert Hinv; frame_models).
      unfold unloadCallback. destruct (noModel_unload _ Hcl) as [-> ->].
      repeat case_match; exact Hcl.
  - case_match; [|discriminate]. injection Hstep as <-. revert Hinv. frame_models.
  - destruct (noMicrotask st); [|discriminate]. injection Hstep as <-.
    destruct s; cbn; auto.
    + revert Hinv. frame_models.
    + assert (Hb : noModel (with_isBackgrounded true st)) by (revert Hinv; frame_models).
      unfold unloadModelsOnBackground.
      destruct (noModel_unload _ Hb) as [-> ->]. exact Hb.
    + assert (Hb : noModel (with_isBackgrounded true st)) by (revert Hinv; frame_models).
      unfold unloadModelsOnBackground.
      destruct (noModel_unload _ Hb) as [-> ->]. exact Hb.
Qed.

Lemma noModel_reachable st : reachable config st -> noModel st.
Proof.
  intros [es Hrun]. eapply (run_invariant config noModel); eauto using noModel_step.
  split; reflexivity.
Qed.

End NoModel.

(** ** The request queue is a single-flight FIFO *)

Section QueueInvariant.

Variable config : ModelId -> ModelConfig.

Lemma serial_cons_other e l : isQueueEvent e = false -> serial (e :: l) = serial l.
Proof.
  intros He. cbn. destruct (serial l) as [[[s n] cur]|]; destruct e; try discriminate; reflexivity.
Qed.

Lemma queueSame_refl st : queueSame st st.
Proof. split; reflexivity. Qed.

Lemma queueSame_trans st1 st2 st3 :
  queueSame st1 st2 -> queueSame st2 st3 -> queueSame st1 st3.
Proof. intros [] []; split; congruence. Qed.

Lemma queueAt_same n p st st' : queueSame st st' -> queueAt n p st -> queueAt n p st'.
Proof.
  intros [H1 H2 H3 H4 H5 H6 H7] [Q1 Q2 Q3 Q4 Q5 Q6 Q7 Q8].
  split; rewrite ?H1, ?H2, ?H3, ?H4, ?H5, ?H6, ?H7; auto.
Qed.

Lemma queueInv_same st st' : queueSame st st' -> queueInv st -> queueInv st'.
Proof. intros Hs (n & p & Hq). exists n, p. eapply queueAt_same; eauto. Qed.

Ltac same_queue :=
  split; cbn -[serial]; rewrite ?serial_cons_other by reflexivity; reflexivity.

Lemma waitingTasks_setTimeout cb delay st :
  waitingTasks (snd (setTimeout cb delay st)) =
  waitingTasks st ++ option_list (timerTask {| handle := nextHandle st; due := now st + delay; callback := cb |}).
Proof.
  unfold waitingTasks; cbn. rewrite omap_app. cbn.
  destruct (timerTask _); reflexivity.
Qed.

Lemma omap_filter_none {A B} (f : A -> option B) (p : A -> bool) (l : list A) :
  (forall x, In x l -> p x = false -> f x = None) ->
  omap f (List.filter p l) = omap f l.
Proof.
  induction l as [|a l IH]; cbn; [reflexivity|]. intros H.
  destruct (p a) eqn:Hp; cbn.
  - rewrite IH by auto. reflexivity.
  - rewrite (H a) by auto. apply IH. auto.
Qed.

Lemma timerTask_unload t : isUnload (callback t) = true -> timerTask t = None.
Proof. unfold timerTask. destruct (callback t); cbn; congruence. Qed.

Lemma queueSame_cancelUnloadTimer st :
  timerInv st -> queueSame st (cancelUnloadTimer st).
Proof.
  intros Hinv. unfold cancelUnloadTimer.
  destruct (unloadTimer st) as [h|] eqn:Hu; [|apply queueSame_refl].
  split; try reflexivity. unfold waitingTasks; cbn.
  apply omap_filter_none. intros t Hin Hp.
  apply timerTask_unload. apply (ti_unload _ Hinv); [assumption|].
  rewrite Hu. apply negb_false_iff, Nat.eqb_eq in Hp. congruence.
Qed.

Lemma queueSame_scheduleModelUnload key delay st :
  timerInv st -> queueSame st (scheduleModelUnload key delay st).
Proof.
  intros Hinv.
  eapply queueSame_trans; [apply queueSame_cancelUnloadTimer, Hinv|].
  unfold scheduleModelUnload.
  split; try reflexivity.
  unfold waitingTasks; cbn. rewrite omap_app. cbn. apply app_nil_r.
Qed.

Lemma queueSame_unloadCallback key st : queueSame st (unloadCallback key st).
Proof.
  unfold unloadCallback, unloadGemmaModel, unloadTTSModel.
  repeat case_match; try apply queueSame_refl; same_queue.
Qed.

Lemma queueSame_handleAppStateChange s st :
  timerInv st -> queueSame st (handleAppStateChange s st).
Proof.
  intros Hinv. destruct s; cbn; try apply queueSame_refl.
  - eapply queueSame_trans; [|apply queueSame_cancelUnloadTimer].
    + same_queue.
    + revert Hinv. apply timerInv_fields; reflexivity.
  - unfold unloadModelsOnBackground, unloadGemmaModel, unloadTTSModel; cbn.
    repeat case_match; same_queue.
  - unfold unloadModelsOnBackground, unloadGemmaModel, unloadTTSModel; cbn.
    repeat case_match; same_queue.
Qed.

Lemma loadEffect_checkStatus m k st :
  loadEffect k (fst (checkStatus m k st)) st (snd (checkStatus m k st)).
Proof.
  unfold checkStatus.
  repeat case_match; cbn [fst snd]; split; try reflexivity;
    rewrite ?waitingTasks_setTimeout, ?app_nil_r; reflexivity.
Qed.

Lemma loadEffect_loadModel m k st :
  loadEffect k (fst (loadModel config m k st)) st (snd (loadModel config m k st)).
Proof.
  unfold loadModel, waitForModelLoad.
  repeat case_match; cbn [fst snd]; try apply loadEffect_checkStatus.
  - split; try reflexivity. symmetry; apply app_nil_r.
  - split; try reflexivity; cbn -[serial]; rewrite ?serial_cons_other by reflexivity;
      try reflexivity.
    symmetry; apply app_nil_r.
  - split; try reflexivity;
      [cbn -[serial]; rewrite ?serial_cons_other by reflexivity; reflexivity|].
    rewrite waitingTasks_setTimeout. reflexivity.
Qed.

(** No closure touches the queue. *)
Lemma runClosure_requestQueue op st :
  requestQueue (runClosure config op st) = requestQueue st.
Proof.
  unfold runClosure.
  pose proof (le_queue _ _ _ _ (loadEffect_loadModel (opModel op) (QueueTask (opId op)) st)) as Hq.
  destruct (loadModel _ _ _ _) as [[e|] st1]; cbn [fst snd] in *; exact Hq.
Qed.

Lemma queueSame_finishLoad m st : timerInv st -> queueSame st (finishLoad config m st).
Proof.
  intros Hinv. unfold finishLoad.
  eapply queueSame_trans; [|apply queueSame_scheduleModelUnload].
  - same_queue.
  - revert Hinv. apply timerInv_fields; reflexivity.
Qed.

(** The promise of the load that the closure of task [i] awaits is
    fulfilled: the closure joins the microtask queue. *)
Lemma queueAt_resumeCaller n i m st :
  isProcessingQueue st = true ->
  serial (log st) = Some (nextTask st, n, Some (i, false)) ->
  map opId (requestQueue st) = seq n (length (requestQueue st)) ->
  nextTask st = (n + length (requestQueue st))%nat ->
  waitingTasks st = [] -> microtasks st = [] -> pendingOps st = [] ->
  queueAt n (ClosurePending i None) (resumeCaller (QueueTask i) m st).
Proof.
  intros Hf Hs Hq Hn Hw Hm Hp.
  split; cbn -[serial]; rewrite ?serial_cons_other by reflexivity; auto.
  - discriminate.
  - rewrite Hm. reflexivity.
Qed.

(** One turn of the loop of [processQueue], entered when no round is
    open. *)
Lemma queueAt_loopTurn n st :
  isProcessingQueue st = true ->
  serial (log st) = Some (nextTask st, n, None) ->
  map opId (requestQueue st) = seq n (length (requestQueue st)) ->
  nextTask st = (n + length (requestQueue st))%nat ->
  waitingTasks st = [] -> microtasks st = [] -> pendingOps st = [] ->
  match requestQueue st with
  | [] => queueAt n Idle (loopTurn config st)
  | op :: _ =>
      opId op = n /\
      exists p, queueAt (S n) p (loopTurn config st) /\
                (p = ClosureSuspended n \/ exists err, p = ClosurePending n err)
  end.
Proof.
  intros Hf Hs Hi Hn Hw Hm Hp. unfold loopTurn.
  destruct (requestQueue st) as [|op rest] eqn:Hq.
  - split; cbn; rewrite ?Hq; auto.
  - cbn in Hi, Hn. injection Hi as Hid Hi. split; [exact Hid|].
    set (st1 := emit (Popped (opId op)) (with_requestQueue rest st)).
    assert (Hs1 : serial (log st1) = Some (nextTask st, S n, Some (n, false))).
    { cbn -[Nat.ltb]. rewrite Hs, Hid, Nat.eqb_refl.
      assert (Hlt : Nat.ltb n (nextTask st) = true) by (apply Nat.ltb_lt; lia).
      rewrite Hlt. reflexivity. }
    unfold runClosure.
    pose proof (loadEffect_loadModel (opModel op) (QueueTask (opId op)) st1) as Hl.
    destruct (loadModel _ _ _ _) as [[err|] st2]; cbn [fst snd] in Hl;
      destruct Hl as [L1 L2 L3 L4 L5 L6 L7]; cbn in L1, L2, L3, L4, L5.
    + exists (ClosurePending n err). split; [|right; eauto].
      rewrite Hid.
      split; cbn -[serial]; rewrite ?serial_cons_other by reflexivity;
        rewrite ?L1, ?L2, ?L3, ?L4, ?L5, ?L6, ?L7; auto.
      * rewrite Hn. lia.
      * discriminate.
      * change (omap timerTask (timers st2)) with (waitingTasks st2).
        rewrite L7, app_nil_r. exact Hw.
      * rewrite Hm. reflexivity.
    + exists (ClosureSuspended n). split; [|left; reflexivity].
      split; rewrite ?L1, ?L2, ?L3, ?L4, ?L5, ?L6, ?L7; auto.
      * rewrite Hn. lia.
      * discriminate.
      * change (waitingTasks st1) with (waitingTasks st). rewrite Hw, Hid. reflexivity.
Qed.

Lemma filter_all {A} (p : A -> bool) (l : list A) :
  (forall x, In x l -> p x = true) -> List.filter p l = l.
Proof.
  induction l as [|a l IH]; cbn; [reflexivity|]. intros H.
  rewrite (H a) by auto. f_equal. apply IH. auto.
Qed.

(** Firing or clearing the pending timer [h] removes exactly that timer. *)
Lemma findTimer_split h st t :
  NoDup (map handle (timers st)) -> findTimer h st = Some t ->
  exists l1 l2, timers st = l1 ++ t :: l2 /\
                timers (clearTimeout h st) = l1 ++ l2 /\ handle t = h.
Proof.
  unfold findTimer, clearTimeout; cbn. generalize (timers st) as l.
  induction l as [|a l IH]; cbn; [discriminate|].
  intros [Hn Hd]%NoDup_cons. destruct (Nat.eqb (handle a) h) eqn:Ha; cbn.
  - intros [= ->]. apply Nat.eqb_eq in Ha. exists [], l. split_and!; auto.
    cbn. apply filter_all. intros x Hx. apply negb_true_iff, Nat.eqb_neq.
    intros Heq. apply Hn. apply list_elem_of_In, in_map_iff. exists x. split; [congruence|auto].
  - intros Hf. destruct (IH Hd Hf) as (l1 & l2 & -> & -> & Hh).
    exists (a :: l1), l2. auto.
Qed.

Lemma waitingTasks_split st l1 t l2 :
  timers st = l1 ++ t :: l2 ->
  waitingTasks st = omap timerTask l1 ++ option_list (timerTask t) ++ omap timerTask l2.
Proof.
  unfold waitingTasks. intros ->. rewrite omap_app. cbn.
  destruct (timerTask t); reflexivity.
Qed.

Lemma queueAt_initial : queueAt 0 Idle initial.
Proof. split; reflexivity. Qed.

Lemma queueInv_initial : queueInv initial.
Proof. exists 0%nat, Idle. apply queueAt_initial. Qed.

(** A submission: when the queue is idle the task is popped in the same
    segment; otherwise it only joins the queue. *)
Lemma queueAt_executeWith m n p st :
  queueAt n p st ->
  match p with
  | Idle => exists p', queueAt (S n) p' (executeWith config m st) /\
                       (p' = ClosureSuspended n \/ exists err, p' = ClosurePending n err)
  | _ => queueAt n p (executeWith config m st)
  end.
Proof.
  intros [Q1 Q2 Q3 Q4 Q5 Q6 Q7 Q8]. unfold executeWith.
  set (st0 := emit _ _).
  assert (Hs0 : serial (log st0) = Some (nextTask st0, n, phaseRound p)).
  { unfold st0. cbn. rewrite Q1, Nat.eqb_refl. reflexivity. }
  assert (Hq0 : map opId (requestQueue st0) = seq n (length (requestQueue st0))).
  { cbn. rewrite map_app, length_app, Q2. cbn.
    rewrite Nat.add_1_r, seq_S. rewrite Q3. reflexivity. }
  assert (Hn0 : nextTask st0 = (n + length (requestQueue st0))%nat).
  { cbn. rewrite length_app, Q3. cbn. lia. }
  assert (Hlen : Nat.eqb (length (requestQueue st0)) 0 = false).
  { cbn. rewrite length_app. cbn. apply Nat.eqb_neq. lia. }
  unfold processQueue. change (isProcessingQueue st0) with (isProcessingQueue st).
  rewrite Q4, Hlen.
  assert (Hbusy : p <> Idle -> queueAt n p st0).
  { intros Hp. split; auto. intros ->. congruence. }
  destruct p as [| |i|i err|i]; cbn [orb]; try (apply Hbusy; discriminate).
  pose proof (queueAt_loopTurn n (with_isProcessingQueue true st0)
                eq_refl Hs0 Hq0 Hn0 Q6 Q7 Q8) as Hturn.
  cbn [requestQueue with_isProcessingQueue] in Hturn.
  change (requestQueue st0) with (requestQueue st ++ [{| opId := nextTask st; opModel := m |}]) in Hturn.
  rewrite (Q5 eq_refl) in Hturn. cbn [app] in Hturn.
  destruct Hturn as [_ Hturn]. exact Hturn.
Qed.

Lemma queueSame_callLoad m st : queueSame st (callLoad config m st).
Proof.
  unfold callLoad.
  set (st0 := with_nextCall _ st).
  pose proof (loadEffect_loadModel m (Direct (nextCall st)) st0) as Hl.
  destruct (loadModel _ _ _ _) as [[err|] st1]; cbn [fst snd] in Hl;
    destruct Hl as [L1 L2 L3 L4 L5 L6 L7]; rewrite app_nil_r in L7;
    split; cbn -[serial]; rewrite ?serial_cons_other by reflexivity; assumption.
Qed.

(** The operation of the running task settles: its round is complete and
    [processQueue] is about to go on. *)
Lemma queueAt_operationDone id ok n p st :
  existsb (Nat.eqb id) (pendingOps st) = true ->
  queueAt n p st ->
  p = Operating id /\ queueAt n LoopPending (operationDone id ok st).
Proof.
  intros Hex [Q1 Q2 Q3 Q4 Q5 Q6 Q7 Q8].
  apply existsb_exists in Hex as (j & Hin & ->%Nat.eqb_eq).
  rewrite Q8 in Hin.
  destruct p as [| |i|i err|i]; try destruct Hin.
  - subst i. split; [reflexivity|].
    unfold operationDone, queueMicrotask.
    split; cbn -[serial]; auto.
    + cbn. cbn in Q1. rewrite Q1, Nat.eqb_refl. reflexivity.
    + discriminate.
    + rewrite Q7. reflexivity.
    + rewrite Q8. cbn. rewrite Nat.eqb_refl. reflexivity.
  - destruct H.
Qed.

(** The next microtask of the manager runs. *)
Lemma queueAt_microtask c rest n p st :
  microtasks st = c :: rest ->
  queueAt n p st ->
  let st' := runMicrotask config c (with_microtasks rest st) in
  rest = [] /\
  ((p = LoopPending /\ c = LoopResumes /\
    match requestQueue st with
    | [] => queueAt n Idle st'
    | op :: _ =>
        opId op = n /\
        exists p', queueAt (S n) p' st' /\
                   (p' = ClosureSuspended n \/ exists err, p' = ClosurePending n err)
    end) \/
   (exists i err, p = ClosurePending i err /\ c = ClosureResumes i err /\
      queueAt n (match err with None => Operating i | Some _ => LoopPending end) st')).
Proof.
  intros Hm [Q1 Q2 Q3 Q4 Q5 Q6 Q7 Q8]. rewrite Hm in Q7.
  destruct p as [| |i|i err|i]; try discriminate; injection Q7 as -> ->; cbn zeta;
    (split; [reflexivity|]).
  - left. split_and!; auto. cbn [runMicrotask].
    apply (queueAt_loopTurn n (with_microtasks [] st)); auto.
  - right. exists i, err. split_and!; auto.
    cbn [runMicrotask closureResumes]. cbn in Q1.
    destruct err as [e|].
    + unfold queueMicrotask. split; cbn -[serial]; auto.
      * cbn. rewrite Q1, Nat.eqb_refl. reflexivity.
      * discriminate.
    + unfold beginOperation. split; cbn -[serial]; auto.
      * cbn. rewrite Q1, Nat.eqb_refl. reflexivity.
      * discriminate.
      * rewrite Q8. reflexivity.
Qed.

(** A timer runs: the phase changes only when the timer holds the closure
    of the open round. *)
Lemma queueAt_timerFires h t n p st :
  timerInv st -> findTimer h st = Some t ->
  queueAt n p st ->
  let st' := runCallback config (callback t) (clearTimeout h st) in
  match timerTask t with
  | Some i => p = ClosureSuspended i /\
              (queueAt n (ClosurePending i None) st' \/ queueAt n (ClosureSuspended i) st')
  | None => queueAt n p st'
  end.
Proof.
  intros Hti Hfind Hinv. cbn zeta.
  destruct (findTimer_split h st t (ti_nodup _ Hti) Hfind) as (l1 & l2 & Hl & Hcl & Hh).
  pose proof (waitingTasks_split st l1 t l2 Hl) as Hw.
  assert (Hwc : waitingTasks (clearTimeout h st) = omap timerTask l1 ++ omap timerTask l2).
  { unfold waitingTasks. rewrite Hcl. apply omap_app. }
  pose proof (timerInv_clearTimeout h st Hti) as Htic.
  destruct (timerTask t) as [i|] eqn:Htask.
  - (* the timer resumes the closure of task [i] *)
    destruct Hinv as [Q1 Q2 Q3 Q4 Q5 Q6 Q7 Q8]. cbn in Hw. rewrite Q6 in Hw.
    assert (Hcase : p = ClosureSuspended i /\ omap timerTask l1 = [] /\ omap timerTask l2 = []).
    { destruct p as [| |j|j err|j]; try (destruct (omap timerTask l1); discriminate).
      destruct (omap timerTask l1) as [|a [|b l]]; cbn in Hw; try discriminate.
      injection Hw as -> Hw. auto. }
    destruct Hcase as (-> & Hl1 & Hl2). split; [reflexivity|].
    rewrite Hl1, Hl2 in Hwc. cbn [app] in Hwc. cbn in Q1, Q4, Q7, Q8.
    unfold timerTask in Htask.
    destruct (callback t) as [m k|m k|key]; [| |discriminate];
      destruct k as [j|j]; cbn in Htask; [|discriminate| |discriminate];
      injection Htask as ->; cbn [runCallback].
    + left. destruct (queueSame_finishLoad m _ Htic) as [F1 F2 F3 F4 F5 F6 F7].
      apply queueAt_resumeCaller;
        rewrite ?F1, ?F2, ?F3, ?F4, ?F5, ?F6, ?F7; auto.
    + pose proof (loadEffect_checkStatus m (QueueTask i) (clearTimeout h st)) as He.
      destruct (checkStatus _ _ _) as [[err|] st1]; cbn [fst snd] in He;
        destruct He as [L1 L2 L3 L4 L5 L6 L7].
      * left. rewrite app_nil_r in L7.
        apply queueAt_resumeCaller;
          rewrite ?L1, ?L2, ?L3, ?L4, ?L5, ?L6, ?L7; auto.
      * right. split; rewrite ?L1, ?L2, ?L3, ?L4, ?L5, ?L6, ?L7, ?Hwc; auto; discriminate.
  - (* the timer belongs to a direct caller or is the unload timer *)
    cbn in Hw. rewrite <- Hwc in Hw.
    assert (Hsame : queueSame st (clearTimeout h st)) by (split; auto).
    apply (queueAt_same _ _ _ _ Hsame) in Hinv.
    revert Hinv. apply queueAt_same.
    unfold timerTask in Htask.
    destruct (callback t) as [m k|m k|key]; cbn [runCallback].
    + destruct k as [j|j]; [discriminate|].
      eapply queueSame_trans; [apply queueSame_finishLoad, Htic|]. same_queue.
    + destruct k as [j|j]; [discriminate|].
      pose proof (loadEffect_checkStatus m (Direct j) (clearTimeout h st)) as He.
      destruct (checkStatus _ _ _) as [[err|] st1]; cbn [fst snd] in He;
        destruct He as [L1 L2 L3 L4 L5 L6 L7]; rewrite app_nil_r in L7;
        split; cbn -[serial]; rewrite ?serial_cons_other by reflexivity; assumption.
    + apply queueSame_unloadCallback.
Qed.

Lemma queueInv_step st e st' :
  step config st e = Some st' -> timerInv st -> queueInv st -> queueInv st'.
Proof.
  destruct e as [m|m|id ok| |h|t|s]; cbn; intros Hstep Hti (n & p & Hinv).
  - injection Hstep as <-. pose proof (queueAt_executeWith m n p st Hinv) as H.
    destruct p; try (exists n; eauto; fail).
    destruct H as (p' & H & _). exists (S n), p'. exact H.
  - injection Hstep as <-. exists n, p. revert Hinv. apply queueAt_same, queueSame_callLoad.
  - destruct (existsb _ _) eqn:Hex; [|discriminate]. injection Hstep as <-.
    destruct (queueAt_operationDone id ok n p st Hex Hinv) as [_ H]. exists n, LoopPending. exact H.
  - destruct (microtasks st) as [|c rest] eqn:Hm; [discriminate|]. injection Hstep as <-.
    destruct (queueAt_microtask c rest n p st Hm Hinv) as [_ [(_ & _ & H)|(i & err & _ & _ & H)]].
    + destruct (requestQueue st) as [|op q]; [exists n, Idle; exact H|].
      destruct H as (_ & p' & H & _). exists (S n), p'. exact H.
    + eexists n, _. exact H.
  - destruct (noMicrotask st); [|discriminate].
    destruct (findTimer h st) as [t|] eqn:Hfind; [|discriminate].
    destruct (due t <=? now st); [|discriminate]. injection Hstep as <-.
    pose proof (queueAt_timerFires h t n p st Hti Hfind Hinv) as Hfire. cbn zeta in Hfire.
    destruct (timerTask t) as [i|].
    + destruct Hfire as [_ [Hfire|Hfire]]; eexists n, _; exact Hfire.
    + exists n, p. exact Hfire.
  - case_match; [|discriminate]. injection Hstep as <-.
    exists n, p. revert Hinv. apply queueAt_same. same_queue.
  - destruct (noMicrotask st); [|discriminate]. injection Hstep as <-.
    exists n, p. revert Hinv.
    apply queueAt_same, queueSame_handleAppStateChange, Hti.
Qed.

Lemma queueInv_run es st st' :
  run config st es = Some st' -> timerInv st -> queueInv st -> queueInv st'.
Proof.
  revert st. induction es as [|e es IH]; cbn; intros st Hrun Hti Hinv.
  - injection Hrun as <-. exact Hinv.
  - destruct (step config st e) as [st1|] eqn:He; [|discriminate].
    eapply IH; eauto using timerInv_step, queueInv_step.
Qed.

(** *** What a well-read log says *)

Lemma serial_suffix newer older r :
  serial (newer ++ older) = Some r -> exists r', serial older = Some r'.
Proof.
  revert r. induction newer as [|e newer IH]; cbn; intros r Hr; [eauto|].
  destruct (serial (newer ++ older)) as [r0|]; [|discriminate]. eauto.
Qed.

Lemma serial_facts l s n cur :
  serial l = Some (s, n, cur) ->
  countSubmitted l = s /\ countPopped l = n /\ (n <= s)%nat /\
  match cur with
  | None => countSettled l = n
  | Some (i, _) => n = S i /\ countSettled l = i
  end /\
  (forall j, (j < s)%nat -> exists m, In (Submitted j m) l) /\
  (forall j, (j < countSettled l)%nat -> exists ok, In (Settled j ok) l).
Proof.
  revert s n cur. induction l as [|e l IH]; intros s n cur; cbn -[Nat.ltb].
  - intros [= <- <- <-]. split_and!; auto; intros j Hj; lia.
  - destruct (serial l) as [[[s0 n0] cur0]|]; [|discriminate].
    destruct (IH _ _ _ eq_refl) as (H1 & H2 & H3 & H4 & H5 & H6).
    assert (K5 : forall j, (j < s0)%nat -> exists m, In (Submitted j m) (e :: l)).
    { intros j Hj. destruct (H5 j Hj) as [m' Hm]. exists m'. right. exact Hm. }
    assert (K6 : forall j, (j < countSettled l)%nat -> exists ok, In (Settled j ok) (e :: l)).
    { intros j Hj. destruct (H6 j Hj) as [ok Hok]. exists ok. right. exact Hok. }
    destruct e as [i m|key st|k m err|i|i|i ok].
    + destruct (Nat.eqb i s0) eqn:He; [|discriminate]. apply Nat.eqb_eq in He. subst i.
      intros [= <- <- <-]. split_and!; auto; try lia.
      intros j Hj. destruct (decide (j = s0)) as [->|Hne].
      * exists m. left. reflexivity.
      * apply K5. lia.
    + intros [= <- <- <-]. split_and!; auto.
    + intros [= <- <- <-]. split_and!; auto.
    + destruct cur0 as [[j b]|]; [discriminate|].
      destruct (Nat.eqb i n0) eqn:He; [|discriminate]. apply Nat.eqb_eq in He. subst i.
      destruct (Nat.ltb n0 s0) eqn:Hlt; [|discriminate]. apply Nat.ltb_lt in Hlt.
      cbn. intros [= <- <- <-]. split_and!; auto; try lia.
    + destruct cur0 as [[j []]|]; try discriminate.
      destruct (Nat.eqb i j) eqn:He; [|discriminate]. apply Nat.eqb_eq in He. subst i.
      destruct H4 as [H4 H4'].
      intros [= <- <- <-]. split_and!; auto.
    + destruct cur0 as [[j b]|]; try discriminate.
      destruct (Nat.eqb i j) eqn:He; [|discriminate]. apply Nat.eqb_eq in He. subst i.
      destruct H4 as [-> H4].
      intros [= <- <- <-]. split_and!; auto; try lia.
      intros j' Hj. destruct (decide (j' = j)) as [->|Hne].
      * exists ok. left. reflexivity.
      * apply K6. lia.
Qed.

End QueueInvariant.

(** ** Statuses and timers agree *)

Section LifeInvariant.

Variable config : ModelId -> ModelConfig.

Lemma modelKey_inj m m' : modelKey m = modelKey m' -> m = m'.
Proof. destruct m, m'; cbn; congruence. Qed.

Lemma lifeInv_fields st st' :
  modelStatus st' = modelStatus st -> timers st' = timers st ->
  lastLoadedKey (log st') = lastLoadedKey (log st) ->
  lifeInv config st -> lifeInv config st'.
Proof.
  intros Hm Ht Hl [Hlast Hload]. split.
  - unfold lastInv. rewrite Ht, Hl. exact Hlast.
  - intros m. destruct (Hload m) as [H1 H2 H3 H4 H5].
    split; unfold statusFlag in *; rewrite ?Hm, ?Ht; auto.
Qed.

Ltac frame_life :=
  intros; eapply lifeInv_fields; [ | | | eassumption]; reflexivity.

Lemma lifeInv_initial : lifeInv config initial.
Proof.
  split.
  - intros t key [].
  - intros m. split; cbn; try (intros; exfalso; tauto).
    + unfold statusFlag. cbn. rewrite lookup_empty.
      split; [discriminate|]. intros (t & [] & _).
    + intros s. rewrite lookup_empty. discriminate.
    + intros s. rewrite lookup_empty. discriminate.
Qed.

(** Timers that are not unload timers survive [cancelUnloadTimer]. *)
Lemma cancelUnloadTimer_other st t :
  timerInv st -> isUnload (callback t) = false ->
  (In t (timers (cancelUnloadTimer st)) <-> In t (timers st)).
Proof.
  intros Hti Hun. unfold cancelUnloadTimer.
  destruct (unloadTimer st) as [h|] eqn:Hu; [|tauto]. cbn.
  rewrite filter_In. split; [tauto|]. intros Hin. split; [assumption|].
  apply negb_true_iff, Nat.eqb_neq. intros Heq.
  assert (isUnload (callback t) = true); [|congruence].
  apply (ti_unload _ Hti); [assumption|]. congruence.
Qed.

Lemma lifeInv_cancelUnloadTimer st :
  timerInv st -> lifeInv config st -> lifeInv config (cancelUnloadTimer st).
Proof.
  intros Hti [Hlast Hload].
  destruct (cancelUnloadTimer_frame st) as (_ & _ & Hm & Hl & _).
  destruct (cancelUnloadTimer_unloadTimers st Hti) as [Hnil _].
  split.
  - intros t key Hin Hcb.
    assert (Hu : In t (unloadTimers (cancelUnloadTimer st))).
    { apply filter_In. split; [assumption|]. rewrite Hcb. reflexivity. }
    rewrite Hnil in Hu. destruct Hu.
  - intros m. destruct (Hload m) as [H1 H2 H3 H4 H5].
    assert (Hlr : forall t, isLoadResolved m (callback t) ->
              (In t (timers (cancelUnloadTimer st)) <-> In t (timers st))).
    { intros t [k Hk]. apply cancelUnloadTimer_other; [assumption|]. rewrite Hk. reflexivity. }
    assert (Hcs : forall t, isCheckStatus m (callback t) ->
              (In t (timers (cancelUnloadTimer st)) <-> In t (timers st))).
    { intros t [k Hk]. apply cancelUnloadTimer_other; [assumption|]. rewrite Hk. reflexivity. }
    split; unfold statusFlag in *; rewrite ?Hm; auto.
    + rewrite H1. split; intros (t & Hin & Hk); exists t; (split; [apply (Hlr t Hk), Hin|exact Hk]).
    + intros t1 t2 Hin1 Hin2 Hk1 Hk2. apply H2; auto; [apply (Hlr t1 Hk1), Hin1|apply (Hlr t2 Hk2), Hin2].
    + intros t Hin Hk. apply (H5 t); [apply (Hcs t Hk), Hin|exact Hk].
Qed.

Lemma loadInv_view m st st' :
  modelStatus st' !! modelKey m = modelStatus st !! modelKey m ->
  (forall t, isLoadResolved m (callback t) \/ isCheckStatus m (callback t) ->
             (In t (timers st') <-> In t (timers st))) ->
  loadInv config st m -> loadInv config st' m.
Proof.
  intros Hm Ht [H1 H2 H3 H4 H5].
  split; unfold statusFlag in *; rewrite ?Hm; auto.
  - rewrite H1. split; intros (t & Hin & Hk); exists t; (split; [apply (Ht t), Hin; auto|exact Hk]).
  - intros t1 t2 Hin1 Hin2 Hk1 Hk2.
    apply H2; auto; [apply (Ht t1), Hin1|apply (Ht t2), Hin2]; auto.
  - intros t Hin Hk. apply (H5 t); [apply (Ht t), Hin; auto|exact Hk].
Qed.

Lemma timerModel_of m cb :
  isLoadResolved m cb \/ isCheckStatus m cb -> timerModel cb = Some m.
Proof. intros [[k ->]|[k ->]]; reflexivity. Qed.

(** A write to the status of [m] and a new timer of [m] leave the other
    model alone. *)
Lemma loadInv_other m m' st st' new :
  m' <> m ->
  modelStatus st' !! modelKey m' = modelStatus st !! modelKey m' ->
  timers st' = timers st ++ new ->
  (forall t, In t new -> timerModel (callback t) = Some m) ->
  loadInv config st m' -> loadInv config st' m'.
Proof.
  intros Hne Hm Ht Hnew. apply loadInv_view; [exact Hm|].
  intros t Hk. rewrite Ht, in_app_iff. split; [|auto].
  intros [Hin|Hin]; [exact Hin|].
  apply timerModel_of in Hk. rewrite (Hnew t Hin) in Hk. congruence.
Qed.

Lemma lookup_setModelStatus_ne m m' s st :
  m' <> m ->
  modelStatus (setModelStatus (modelKey m) s st) !! modelKey m' = modelStatus st !! modelKey m'.
Proof.
  intros Hne. cbn. apply lookup_insert_ne. intros Heq. apply Hne. symmetry.
  apply modelKey_inj, Heq.
Qed.

Lemma lastInv_extend st st' new :
  timers st' = timers st ++ new ->
  (forall t, In t new -> isUnload (callback t) = false) ->
  lastLoadedKey (log st') = lastLoadedKey (log st) ->
  lastInv st -> lastInv st'.
Proof.
  intros Ht Hnew Hl Hlast t key Hin Hcb. rewrite Hl.
  rewrite Ht in Hin. apply in_app_iff in Hin as [Hin|Hin]; [eauto|].
  apply Hnew in Hin. rewrite Hcb in Hin. discriminate.
Qed.

(** A caller starts polling while the model is loading or loaded. *)
Lemma lifeInv_poll m k st :
  statusFlag isLoading (modelKey m) st = true \/ statusFlag isLoaded (modelKey m) st = true ->
  lifeInv config st -> lifeInv config (snd (setTimeout (CheckStatus m k) 100 st)).
Proof.
  intros Hst [Hlast Hload].
  set (new := {| handle := nextHandle st; due := now st + 100; callback := CheckStatus m k |}).
  split.
  - apply (lastInv_extend st _ [new]); auto.
    intros t [<-|[]]. reflexivity.
  - intros m'. destruct (decide (m' = m)) as [->|Hne].
    + destruct (Hload m) as [H1 H2 H3 H4 H5].
      assert (Hnlr : ~ isLoadResolved m (callback new)) by (intros [k' Hk']; discriminate).
      split; auto; cbn [setTimeout snd timers with_timers with_nextHandle].
      * change (statusFlag isLoading (modelKey m) _) with (statusFlag isLoading (modelKey m) st).
        rewrite H1. split; intros (t & Hin & Hk); exists t.
        -- split; [apply in_app_iff; auto|exact Hk].
        -- apply in_app_iff in Hin as [Hin|[<-|[]]]; [auto|contradiction].
      * intros t1 t2 [Hin1|[<-|[]]]%in_app_iff [Hin2|[<-|[]]]%in_app_iff Hk1 Hk2;
          try contradiction. auto.
    + apply (loadInv_other m m' st _ [new]); auto.
      intros t [<-|[]]. reflexivity.
Qed.

Lemma lifeInv_checkStatus m k st :
  statusFlag isLoading (modelKey m) st = true \/ statusFlag isLoaded (modelKey m) st = true ->
  lifeInv config st -> lifeInv config (snd (checkStatus m k st)).
Proof.
  intros Hst Hinv. unfold checkStatus.
  repeat case_match; cbn [snd]; auto using lifeInv_poll.
Qed.

Lemma lifeInv_loadModel m k st :
  lifeInv config st -> lifeInv config (snd (loadModel config m k st)).
Proof.
  intros Hinv. unfold loadModel, waitForModelLoad.
  destruct (statusFlag isLoaded _ st) eqn:Hld; [exact Hinv|].
  destruct (statusFlag isLoading _ st) eqn:Hlg; [apply lifeInv_checkStatus; auto|].
  destruct Hinv as [Hlast Hload].
  pose proof (Hload m) as [H1 H2 H3 H4 H5].
  assert (Hno_lr : forall t, In t (timers st) -> ~ isLoadResolved m (callback t)).
  { intros t Hin Hk.
    assert (statusFlag isLoading (modelKey m) st = true) by (apply H1; eauto). congruence. }
  assert (Hno_cs : forall t, In t (timers st) -> ~ isCheckStatus m (callback t)).
  { intros t Hin Hk. destruct (H5 t Hin Hk); congruence. }
  destruct (negb (checkMemoryAvailability _ _)); cbn [snd].
  - (* the memory check fails *)
    split.
    + apply (lastInv_extend st _ []); [cbn; symmetry; apply app_nil_r|intros t []|reflexivity|exact Hlast].
    + intros m'. destruct (decide (m' = m)) as [->|Hne].
      * split; unfold statusFlag; cbn; rewrite ?lookup_insert_eq; cbn.
        -- split; [discriminate|]. intros (t & Hin & Hk). destruct (Hno_lr t Hin Hk).
        -- exact H2.
        -- intros s [= <-]. discriminate.
        -- intros s [= <-]. reflexivity.
        -- intros t Hin Hk. destruct (Hno_cs t Hin Hk).
      * apply (loadInv_other m m' st _ []); auto.
        -- rewrite !lookup_setModelStatus_ne by assumption. reflexivity.
        -- cbn. symmetry; apply app_nil_r.
        -- intros t [].
  - (* the load is started *)
    set (new := {| handle := nextHandle st; due := now st + 2000; callback := LoadResolved m k |}).
    split.
    + apply (lastInv_extend st _ [new]); [reflexivity| |reflexivity|exact Hlast].
      intros t [<-|[]]. reflexivity.
    + intros m'. destruct (decide (m' = m)) as [->|Hne].
      * split; unfold statusFlag; cbn; rewrite ?lookup_insert_eq; cbn.
        -- split; [|reflexivity]. intros _. exists new. split; [apply in_app_iff; cbn; auto|].
           exists k. reflexivity.
        -- intros t1 t2 [Hin1|[<-|[]]]%in_app_iff [Hin2|[<-|[]]]%in_app_iff Hk1 Hk2;
             try reflexivity; exfalso; eapply Hno_lr; eauto.
        -- intros s [= <-]. discriminate.
        -- intros s [= <-]. reflexivity.
        -- intros t [Hin|[<-|[]]]%in_app_iff Hk; [destruct (Hno_cs t Hin Hk)|].
           destruct Hk as [k' Hk']. discriminate.
      * apply (loadInv_other m m' st _ [new]); auto.
        -- cbn [setTimeout snd]. 
           change (modelStatus (with_nextHandle _ (with_timers _ ?x))) with (modelStatus x).
           apply lookup_setModelStatus_ne, Hne.
        -- intros t [<-|[]]. reflexivity.
Qed.

Lemma lifeInv_resumeCaller k m st :
  lifeInv config st -> lifeInv config (resumeCaller k m st).
Proof. unfold resumeCaller, queueMicrotask. destruct k; frame_life. Qed.

Lemma lifeInv_runClosure op st :
  lifeInv config st -> lifeInv config (runClosure config op st).
Proof.
  intros Hinv. unfold runClosure.
  pose proof (lifeInv_loadModel (opModel op) (QueueTask (opId op)) st Hinv) as Hl.
  destruct (loadModel _ _ _ _) as [[e|] st1]; cbn [snd] in *.
  - revert Hl. frame_life.
  - exact Hl.
Qed.

Lemma lifeInv_loopTurn st :
  lifeInv config st -> lifeInv config (loopTurn config st).
Proof.
  intros Hinv. unfold loopTurn. destruct (requestQueue st) as [|op rest].
  - revert Hinv. frame_life.
  - apply lifeInv_runClosure. revert Hinv. frame_life.
Qed.

Lemma NoDup_map_eq {A B} (f : A -> B) (l : list A) x y :
  NoDup (map f l) -> In x l -> In y l -> f x = f y -> x = y.
Proof.
  induction l as [|a l IH]; cbn; [tauto|].
  intros [Hn Hd]%NoDup_cons [->|Hx] [->|Hy] Heq; auto.
  - destruct Hn. apply list_elem_of_In, in_map_iff. exists y. auto.
  - destruct Hn. apply list_elem_of_In, in_map_iff. exists x. auto.
Qed.

(** Removing a timer that is not the 2000 ms timer of a load. *)
Lemma lifeInv_clearTimeout h st :
  (forall t, In t (timers st) -> handle t = h ->
             forall m k, callback t <> LoadResolved m k) ->
  lifeInv config st -> lifeInv config (clearTimeout h st).
Proof.
  intros Hh [Hlast Hload]. split.
  - intros t key [Hin _]%filter_In Hcb. exact (Hlast t key Hin Hcb).
  - intros m. destruct (Hload m) as [H1 H2 H3 H4 H5].
    split; auto.
    + change (statusFlag isLoading (modelKey m) (clearTimeout h st))
        with (statusFlag isLoading (modelKey m) st).
      rewrite H1. split; intros (t & Hin & Hk); exists t; (split; [|exact Hk]).
      * apply filter_In. split; [exact Hin|].
        apply negb_true_iff, Nat.eqb_neq. intros Heq.
        destruct Hk as [k Hk]. exact (Hh t Hin Heq m k Hk).
      * apply filter_In in Hin. tauto.
    + intros t1 t2 [Hin1 _]%filter_In [Hin2 _]%filter_In. auto.
    + intros t [Hin _]%filter_In Hk. exact (H5 t Hin Hk).
Qed.

Lemma finishLoad_timers m st t :
  timerInv st -> isUnload (callback t) = false ->
  (In t (timers (finishLoad config m st)) <-> In t (timers st)).
Proof.
  intros Hti Hun. unfold finishLoad.
  set (st1 := setModelStatus _ _ st).
  assert (Hti1 : timerInv st1) by (revert Hti; apply timerInv_fields; reflexivity).
  destruct (scheduleModelUnload_timers (modelKey m) (unloadDelay (config m)) st1) as (-> & _).
  rewrite in_app_iff, (cancelUnloadTimer_other st1 t Hti1 Hun). cbn.
  split; [|auto]. intros [Hin|[<-|[]]]; [exact Hin|discriminate].
Qed.

(** The 2000 ms timer [t] of a load of [m] fires. *)
Lemma lifeInv_finishLoad h t m k st :
  timerInv st -> findTimer h st = Some t -> callback t = LoadResolved m k ->
  lifeInv config st -> lifeInv config (finishLoad config m (clearTimeout h st)).
Proof.
  intros Hti Hfind Hcb [Hlast Hload].
  destruct (findTimer_split h st t (ti_nodup _ Hti) Hfind) as (l1 & l2 & Hl & _ & Hh).
  assert (Hint : In t (timers st)) by (rewrite Hl; apply in_app_iff; cbn; auto).
  pose proof (timerInv_clearTimeout h st Hti) as Htic.
  set (stc := clearTimeout h st) in *.
  assert (Hmem : forall t', isUnload (callback t') = false ->
            (In t' (timers (finishLoad config m stc)) <-> In t' (timers st) /\ handle t' <> h)).
  { intros t' Hun. rewrite (finishLoad_timers m stc t' Htic Hun). unfold stc; cbn.
    rewrite filter_In, negb_true_iff, Nat.eqb_neq. reflexivity. }
  assert (Hstatus : modelStatus (finishLoad config m stc) =
            <[modelKey m := {| isLoaded := true; isLoading := false; lastUsed := now st;
                               memoryUsage := memoryLimit (config m); error := None |}]>
              (modelStatus st)).
  { unfold finishLoad, scheduleModelUnload, setTimeout. cbn.
    destruct (cancelUnloadTimer_frame
                (setModelStatus (modelKey m)
                   {| isLoaded := true; isLoading := false; lastUsed := now st;
                      memoryUsage := memoryLimit (config m); error := None |} stc))
      as (_ & _ & -> & _). reflexivity. }
  split.
  - intros t' key Hin' Hcb'.
    assert (Hti1 : timerInv (setModelStatus (modelKey m)
              {| isLoaded := true; isLoading := false; lastUsed := now stc;
                 memoryUsage := memoryLimit (config m); error := None |} stc))
      by (revert Htic; apply timerInv_fields; reflexivity).
    destruct (scheduleModelUnload_spec (modelKey m) (unloadDelay (config m)) _ Hti1)
      as [_ Hun].
    assert (Hu : In t' (unloadTimers (finishLoad config m stc))).
    { apply filter_In. split; [exact Hin'|]. rewrite Hcb'. reflexivity. }
    unfold finishLoad in Hu. rewrite Hun in Hu. destruct Hu as [<-|[]].
    cbn in Hcb'. injection Hcb' as <-.
    unfold finishLoad, scheduleModelUnload, setTimeout. cbn.
    destruct (cancelUnloadTimer_frame
                (setModelStatus (modelKey m)
                   {| isLoaded := true; isLoading := false; lastUsed := now st;
                      memoryUsage := memoryLimit (config m); error := None |} stc))
      as (_ & _ & _ & -> & _). reflexivity.
  - intros m'. destruct (decide (m' = m)) as [->|Hne].
    + destruct (Hload m) as [H1 H2 H3 H4 H5].
      split; unfold statusFlag; rewrite ?Hstatus, ?lookup_insert_eq; cbn.
      * split; [discriminate|]. intros (t' & Hin' & Hk').
        assert (Hun : isUnload (callback t') = false) by (destruct Hk' as [k' ->]; reflexivity).
        apply (Hmem t' Hun) in Hin' as [Hin' Hne'].
        assert (t' = t); [|congruence].
        apply H2; auto. exists k. exact Hcb.
      * intros t1 t2 Hin1 Hin2 Hk1 Hk2.
        assert (Hun1 : isUnload (callback t1) = false) by (destruct Hk1 as [k' ->]; reflexivity).
        assert (Hun2 : isUnload (callback t2) = false) by (destruct Hk2 as [k' ->]; reflexivity).
        apply (Hmem t1 Hun1) in Hin1 as [Hin1 _]. apply (Hmem t2 Hun2) in Hin2 as [Hin2 _].
        auto.
      * intros s [= <-]. auto.
      * intros s [= <-]. discriminate.
      * auto.
    + apply (loadInv_view m' st); [| |exact (Hload m')].
      * rewrite Hstatus. apply lookup_insert_ne. intros Heq. apply Hne. symmetry.
        apply modelKey_inj, Heq.
      * intros t' Hk'.
        assert (Hun : isUnload (callback t') = false)
          by (destruct Hk' as [[k' ->]|[k' ->]]; reflexivity).
        rewrite (Hmem t' Hun). split; [tauto|]. intros Hin'. split; [exact Hin'|].
        intros Heq. 
        assert (t' = t)
          by (apply (NoDup_map_eq handle (timers st)); auto using ti_nodup; congruence).
        subst t'. apply timerModel_of in Hk'. rewrite Hcb in Hk'. cbn in Hk'. congruence.
Qed.

Lemma findTimer_In h st t : findTimer h st = Some t -> In t (timers st) /\ handle t = h.
Proof.
  unfold findTimer. intros [Hin Heq]%find_some. split; [exact Hin|].
  apply Nat.eqb_eq, Heq.
Qed.

Lemma lifeInv_timerFires h t st :
  timerInv st -> noModel st -> findTimer h st = Some t ->
  lifeInv config st -> lifeInv config (runCallback config (callback t) (clearTimeout h st)).
Proof.
  intros Hti Hnm Hfind Hinv.
  destruct (findTimer_In h st t Hfind) as [Hin Hh].
  assert (Honly : forall t', In t' (timers st) -> handle t' = h -> t' = t).
  { intros t' Hin' Hh'. apply (NoDup_map_eq handle (timers st)); auto using ti_nodup.
    congruence. }
  destruct (callback t) as [m k|m k|key] eqn:Hcb; cbn [runCallback].
  - apply lifeInv_resumeCaller. eapply lifeInv_finishLoad; eauto.
  - assert (Hc : lifeInv config (clearTimeout h st)).
    { apply lifeInv_clearTimeout; [|exact Hinv].
      intros t' Hin' Hh' m' k' Hcb'. rewrite (Honly t' Hin' Hh') in Hcb'. congruence. }
    assert (Hst : statusFlag isLoading (modelKey m) (clearTimeout h st) = true \/
                  statusFlag isLoaded (modelKey m) (clearTimeout h st) = true).
    { destruct Hinv as [_ Hload]. apply (li_waiters _ _ _ (Hload m) t Hin).
      exists k. exact Hcb. }
    pose proof (lifeInv_checkStatus m k _ Hst Hc) as Hcs.
    destruct (checkStatus _ _ _) as [[err|] st1]; cbn [snd] in Hcs; auto.
    apply lifeInv_resumeCaller, Hcs.
  - assert (Hc : lifeInv config (clearTimeout h st)).
    { apply lifeInv_clearTimeout; [|exact Hinv].
      intros t' Hin' Hh' m' k' Hcb'. rewrite (Honly t' Hin' Hh') in Hcb'. congruence. }
    assert (Hnmc : noModel (clearTimeout h st)) by exact Hnm.
    unfold unloadCallback. destruct (noModel_unload _ Hnmc) as [-> ->].
    repeat case_match; exact Hc.
Qed.

Lemma lifeInv_step st e st' :
  step config st e = Some st' -> timerInv st -> noModel st ->
  lifeInv config st -> lifeInv config st'.
Proof.
  destruct e as [m|m|id ok| |h|t|s]; cbn; intros Hstep Hti Hnm Hinv.
  - injection Hstep as <-. unfold executeWith, processQueue.
    case_match.
    + revert Hinv. frame_life.
    + apply lifeInv_loopTurn. revert Hinv. frame_life.
  - injection Hstep as <-. unfold callLoad.
    pose proof (lifeInv_loadModel m (Direct (nextCall st))
                  (with_nextCall (S (nextCall st)) st)) as Hl.
    destruct (loadModel _ _ _ _) as [[err|] st1]; cbn [snd] in Hl.
    + assert (H1 : lifeInv config st1) by (apply Hl; revert Hinv; frame_life).
      revert H1. frame_life.
    + apply Hl. revert Hinv. frame_life.
  - case_match; [|discriminate]. injection Hstep as <-.
    revert Hinv. frame_life.
  - destruct (microtasks st) as [|c rest]; [discriminate|]. injection Hstep as <-.
    destruct c as [id [e|]|]; cbn [runMicrotask closureResumes].
    + revert Hinv. frame_life.
    + revert Hinv. frame_life.
    + apply lifeInv_loopTurn. revert Hinv. frame_life.
  - destruct (noMicrotask st); [|discriminate].
    destruct (findTimer h st) as [t|] eqn:Hfind; [|discriminate].
    case_match; [|discriminate]. injection Hstep as <-.
    apply lifeInv_timerFires; assumption.
  - case_match; [|discriminate]. injection Hstep as <-. revert Hinv. frame_life.
  - destruct (noMicrotask st); [|discriminate].
    injection Hstep as <-. destruct s; cbn; auto.
    + apply lifeInv_cancelUnloadTimer.
      * revert Hti. apply timerInv_fields; reflexivity.
      * revert Hinv. frame_life.
    + assert (Hb : noModel (with_isBackgrounded true st)) by exact Hnm.
      unfold unloadModelsOnBackground. destruct (noModel_unload _ Hb) as [-> ->].
      revert Hinv. frame_life.
    + assert (Hb : noModel (with_isBackgrounded true st)) by exact Hnm.
      unfold unloadModelsOnBackground. destruct (noModel_unload _ Hb) as [-> ->].
      revert Hinv. frame_life.
Qed.

(** All invariants of the manager, for every state the event loop can
    reach. *)
Lemma reachable_invariants es st :
  run config initial es = Some st ->
  timerInv st /\ noModel st /\ lifeInv config st /\ queueInv st.
Proof.
  assert (Hgen : forall es st0 st,
            run config st0 es = Some st ->
            timerInv st0 /\ noModel st0 /\ lifeInv config st0 /\ queueInv st0 ->
            timerInv st /\ noModel st /\ lifeInv config st /\ queueInv st).
  { clear es st. intros es. induction es as [|e es IH]; cbn; intros st0 st Hrun Hinv.
    - injection Hrun as <-. exact Hinv.
    - destruct (step config st0 e) as [st1|] eqn:He; [|discriminate].
      apply (IH st1 st Hrun). destruct Hinv as (H1 & H2 & H3 & H4).
      split_and!; eauto using timerInv_step, noModel_step, lifeInv_step, queueInv_step. }
  intros Hrun. apply (Hgen es initial st Hrun).
  split_and!; auto using timerInv_initial, lifeInv_initial, queueInv_initial.
  split; reflexivity.
Qed.

End LifeInvariant.

(** ** The memory ledger *)

Section Ledger.

Lemma usage_fold_comm (z1 z2 : ModelStatus) (y : Z) :
  y + memoryUsage z2 + memoryUsage z1 = y + memoryUsage z1 + memoryUsage z2.
Proof. lia. Qed.

Lemma getCurrentMemoryUsage_setModelStatus key s st :
  getCurrentMemoryUsage (setModelStatus key s st) =
  getCurrentMemoryUsage st - recordedUsage key st + memoryUsage s.
Proof.
  unfold getCurrentMemoryUsage, recordedUsage. cbn.
  destruct (modelStatus st !! key) as [old|] eqn:Hk.
  - rewrite <- insert_delete_eq.
    rewrite map_fold_insert_L; [|intros; apply usage_fold_comm|apply lookup_delete_eq].
    rewrite (map_fold_delete_L _ _ key old (modelStatus st));
      [|intros; apply usage_fold_comm|exact Hk].
    lia.
  - rewrite map_fold_insert_L; [|intros; apply usage_fold_comm|exact Hk]. lia.
Qed.

Lemma recordedUsage_setModelStatus key s st :
  recordedUsage key (setModelStatus key s st) = memoryUsage s.
Proof. unfold recordedUsage. cbn. rewrite lookup_insert_eq. reflexivity. Qed.

Lemma finishLoad_modelStatus config m st :
  modelStatus (finishLoad config m st) =
  <[modelKey m := {| isLoaded := true; isLoading := false; lastUsed := now st;
                     memoryUsage := memoryLimit (config m); error := None |}]>
    (modelStatus st).
Proof.
  unfold finishLoad, scheduleModelUnload, setTimeout. cbn.
  destruct (cancelUnloadTimer_frame
              (setModelStatus (modelKey m)
                 {| isLoaded := true; isLoading := false; lastUsed := now st;
                    memoryUsage := memoryLimit (config m); error := None |} st))
    as (_ & _ & -> & _). reflexivity.
Qed.

Lemma resumeCaller_modelStatus k m st :
  modelStatus (resumeCaller k m st) = modelStatus st.
Proof. destruct k; reflexivity. Qed.

Lemma resumeCaller_timers k m st :
  timers (resumeCaller k m st) = timers st /\
  unloadTimer (resumeCaller k m st) = unloadTimer st.
Proof. destruct k; split; reflexivity. Qed.

Lemma resumeCaller_log k m st : In (LoadSettled k m None) (log (resumeCaller k m st)).
Proof. destruct k; cbn; auto. Qed.

(** When the 2000 ms timer of a load fires, in whatever state, the load
    succeeds: the model is marked loaded with its footprint and the
    promise is fulfilled. *)
Lemma load_completion config m k st :
  let st' := runCallback config (LoadResolved m k) st in
  modelStatus st' !! modelKey m =
    Some {| isLoaded := true; isLoading := false; lastUsed := now st;
            memoryUsage := memoryLimit (config m); error := None |} /\
  In (LoadSettled k m None) (log st').
Proof.
  cbn [runCallback]. split; [|apply resumeCaller_log].
  rewrite resumeCaller_modelStatus, finishLoad_modelStatus. apply lookup_insert_eq.
Qed.

End Ledger.

(** ** The model on small runs *)

(** Two submissions in a row: the second task is popped only when the
    first has settled, although it uses the other model. *)
Example two_tasks_run_in_turn :
  option_map queueLog
    (run CONFIG initial
       [ExecuteWith Gemma; ExecuteWith TTS; ClockAdvance 2000; TimerFires 1; Microtask;
        OperationDone 0 true; Microtask; ClockAdvance 4000; TimerFires 3; Microtask;
        OperationDone 1 false; Microtask]) =
  Some [Submitted 0 Gemma; Popped 0; Submitted 1 TTS; OperationBegin 0; Settled 0 true;
        Popped 1; OperationBegin 1; Settled 1 false].
Proof. vm_compute. reflexivity. Qed.

(** Two submissions in one synchronous segment, for a model that is
    loaded: the first task is popped at once, but its operation begins
    from the microtask queue, after the second submission. *)
Example operation_begins_after_the_segment :
  option_map queueLog
    (run CONFIG initial
       [LoadCall Gemma; ClockAdvance 2000; TimerFires 1;
        ExecuteWith Gemma; ExecuteWith Gemma; Microtask]) =
  Some [Submitted 0 Gemma; Popped 0; Submitted 1 Gemma; OperationBegin 0].
Proof. vm_compute. reflexivity. Qed.

(** A load that is refused rejects the task from the microtask queue, and
    the next task is popped one microtask later. *)
Example refused_load_rejects_the_task :
  option_map queueLog
    (run (fun m => withMemoryLimit 600 (CONFIG m)) initial
       [ExecuteWith Gemma; ExecuteWith TTS; Microtask; Microtask]) =
  Some [Submitted 0 Gemma; Popped 0; Submitted 1 TTS; Settled 0 false; Popped 1].
Proof. vm_compute. reflexivity. Qed.

(** A timer cannot run before it is due, an operation that is not
    running cannot settle, and a timer or a change of the application
    state waits for the microtask queue to be empty. *)
Example events_that_cannot_happen :
  run CONFIG initial [ExecuteWith Gemma; ClockAdvance 1999; TimerFires 1] = None /\
  run CONFIG initial [ExecuteWith Gemma; OperationDone 0 true] = None /\
  run CONFIG initial [ExecuteWith Gemma; ClockAdvance 2000; TimerFires 1;
                      AppStateChange background] = None /\
  run CONFIG initial [ExecuteWith Gemma; Microtask] = None.
Proof. vm_compute. auto. Qed.

(** With the shipped footprints both models fit: 256 + 150 = 406. *)
Example both_models_fit :
  option_map getCurrentMemoryUsage
    (run CONFIG initial
       [LoadCall Gemma; LoadCall TTS; ClockAdvance 2000; TimerFires 1; TimerFires 2]) =
  Some 406.
Proof. vm_compute. reflexivity. Qed.

(** ** Claims about the model manager *)

Section ManagerClaims.

Variable config : ModelId -> ModelConfig.

(** C1 (as amended).  For a model [m] that is neither loaded nor loading
    and has no usage recorded, with footprint [F = memoryLimit] and [U] the
    usage recorded in the whole status map:
    - if [U + F <= 512] the call is admitted: the status is written as
      loading and the call waits for the 2000 ms timer of
      [loadQuantizedModel]; when that timer runs, in whatever state, the
      model is marked loaded with footprint [F] and the call succeeds;
    - if [U + F > 512] the call fails with the "Insufficient memory"
      error of [m]; the recorded usage is [U] afterwards and no timer is
      added; the status of [m] was first written with [isLoading = true]
      and then, by the [catch] block, with [isLoading = false] and the
      error message.
    A call for a model that is already loaded returns at once, whatever
    [U + F] is. *)
Theorem load_is_admitted_iff_budget_allows (m : ModelId) (k : Caller) (st : State) :
  let U := getCurrentMemoryUsage st in
  let F := memoryLimit (config m) in
  let idle :=
    statusFlag isLoaded (modelKey m) st = false /\
    statusFlag isLoading (modelKey m) st = false /\
    recordedUsage (modelKey m) st = 0 in
  let loading := {| isLoaded := false; isLoading := true; lastUsed := now st;
                    memoryUsage := 0; error := None |} in
  let failed := {| isLoaded := false; isLoading := false; lastUsed := now st;
                   memoryUsage := 0; error := Some (insufficientMemory m) |} in
  (statusFlag isLoaded (modelKey m) st = true ->
     loadModel config m k st = (Returned None, st)) /\
  (idle -> U + F <= 512 ->
     exists st',
       loadModel config m k st = (Awaiting, st') /\
       modelStatus st' !! modelKey m = Some loading /\
       timers st' = timers st ++
         [{| handle := nextHandle st; due := now st + 2000; callback := LoadResolved m k |}] /\
       log st' = StatusSet (modelKey m) loading :: log st) /\
  (idle -> 512 < U + F ->
     exists st',
       loadModel config m k st = (Returned (Some (insufficientMemory m)), st') /\
       getCurrentMemoryUsage st' = U /\
       modelStatus st' !! modelKey m = Some failed /\
       timers st' = timers st /\
       log st' = StatusSet (modelKey m) failed :: StatusSet (modelKey m) loading :: log st) /\
  (forall st2,
     let done := runCallback config (LoadResolved m k) st2 in
     modelStatus done !! modelKey m =
       Some {| isLoaded := true; isLoading := false; lastUsed := now st2;
               memoryUsage := F; error := None |} /\
     In (LoadSettled k m None) (log done)).
Proof.
  intros U F idle loading failed.
  assert (Hu1 : idle -> getCurrentMemoryUsage (setModelStatus (modelKey m) loading st) = U).
  { intros (_ & _ & Hrec).
    rewrite getCurrentMemoryUsage_setModelStatus, Hrec. cbn. unfold U. lia. }
  split; [|split; [|split]]; [| | |intros st2; apply load_completion].
  - intros Hld. unfold loadModel. rewrite Hld. reflexivity.
  - intros Hidle Hfit. pose proof (Hu1 Hidle) as Hu. destruct Hidle as (Hld & Hlg & _).
    unfold loadModel. rewrite Hld, Hlg.
    unfold checkMemoryAvailability. fold loading. rewrite Hu.
    assert (Hc : (memoryLimit (config m) <=? 512 - U) = true)
      by (apply Z.leb_le; unfold F in Hfit; lia).
    rewrite Hc. cbn [negb].
    eexists. split; [reflexivity|]. cbn. rewrite lookup_insert_eq. auto.
  - intros Hidle Hover. pose proof (Hu1 Hidle) as Hu. destruct Hidle as (Hld & Hlg & _).
    unfold loadModel. rewrite Hld, Hlg.
    unfold checkMemoryAvailability. fold loading. rewrite Hu.
    assert (Hc : (memoryLimit (config m) <=? 512 - U) = false)
      by (apply Z.leb_gt; unfold F in Hover; lia).
    rewrite Hc. cbn [negb].
    eexists. split; [reflexivity|]. split_and!.
    + rewrite getCurrentMemoryUsage_setModelStatus, recordedUsage_setModelStatus, Hu.
      cbn. lia.
    + cbn. rewrite lookup_insert_eq. reflexivity.
    + reflexivity.
    + reflexivity.
Qed.

(** C2.  For every sequence of calls of [executeWithGemma] and
    [executeWithTTS], interleaved in any way with direct loads, the
    microtasks of the manager, timers, clock ticks and application state
    changes (a call may come between the pop of a task and the beginning
    of its operation, which runs from the microtask queue):
    - at most one task is between "popped" and "settled", in the state
      and at every earlier instant of the log;
    - the tasks are popped in the order of their submission: the pop
      numbered [i] takes the submission numbered [i], which is already in
      the log, and happens when every earlier round is complete;
    - the operation of task [i] begins only after every task [j < i] has
      settled, whichever model the tasks use. *)
Theorem queue_runs_one_task_at_a_time_in_submission_order (es : list Event) (st : State) :
  run config initial es = Some st ->
  (length (openTasks st) <= 1)%nat /\
  forall newer older, log st = newer ++ older ->
    (countSettled older <= countPopped older <= S (countSettled older))%nat /\
    (forall i m older', older = Submitted i m :: older' -> i = countSubmitted older') /\
    (forall i older', older = Popped i :: older' ->
       i = countPopped older' /\ countSettled older' = countPopped older' /\
       exists m, In (Submitted i m) older') /\
    (forall i older', older = OperationBegin i :: older' ->
       forall j, (j < i)%nat -> exists ok, In (Settled j ok) older').
Proof.
  intros Hrun.
  pose proof (queueInv_run config es _ _ Hrun timerInv_initial queueInv_initial)
    as (n & p & [Hs Q2 Q3 Q4 Q5 Q6 Q7 Q8]).
  split.
  - unfold openTasks, resumingTasks. rewrite Q6, Q7, Q8. destruct p; cbn; lia.
  - intros newer older Hlog. rewrite Hlog in Hs.
    destruct (serial_suffix _ _ _ Hs) as [[[s' n'] cur'] Hs'].
    split; [|split; [|split]].
    + destruct (serial_facts _ _ _ _ Hs') as (_ & -> & _ & H4 & _).
      destruct cur' as [[i b]|]; [destruct H4 as [-> ->]|rewrite H4]; lia.
    + intros i m older' ->. cbn in Hs'.
      destruct (serial older') as [[[s0 n0] cur0]|] eqn:Hs0; [|discriminate].
      destruct (Nat.eqb i s0) eqn:He; [|discriminate]. apply Nat.eqb_eq in He.
      destruct (serial_facts _ _ _ _ Hs0) as (-> & _). exact He.
    + intros i older' ->. cbn -[Nat.ltb] in Hs'.
      destruct (serial older') as [[[s0 n0] cur0]|] eqn:Hs0; [|discriminate].
      destruct cur0 as [[j b]|]; [discriminate|].
      destruct (Nat.eqb i n0) eqn:He; [|discriminate]. apply Nat.eqb_eq in He. subst i.
      destruct (Nat.ltb n0 s0) eqn:Hlt; [|discriminate]. apply Nat.ltb_lt in Hlt.
      destruct (serial_facts _ _ _ _ Hs0) as (_ & H2 & _ & H4 & H5 & _).
      split_and!; [congruence|congruence|]. apply H5, Hlt.
    + intros i older' -> j Hj. cbn in Hs'.
      destruct (serial older') as [[[s0 n0] cur0]|] eqn:Hs0; [|discriminate].
      destruct cur0 as [[j0 []]|]; try discriminate.
      destruct (Nat.eqb i j0) eqn:He; [|discriminate]. apply Nat.eqb_eq in He. subst j0.
      destruct (serial_facts _ _ _ _ Hs0) as (_ & _ & _ & [_ H4] & _ & H6).
      apply H6. lia.
Qed.


(** C9.  In every state that the event loop can reach:
    - at most one unload timer is pending, for the whole manager;
    - a pending unload timer is the one whose handle is in
      [unloadTimer], and it targets the model that was loaded last;
    - [scheduleModelUnload] leaves exactly the timer it arms: a pending
      unload of either model is cancelled first;
    - so when the load of a model completes, the only pending unload is
      that of this model, due [unloadDelay] later. *)
Theorem one_unload_timer_for_the_process (es : list Event) (st : State) :
  run config initial es = Some st ->
  (length (unloadTimers st) <= 1)%nat /\
  (forall t, In t (unloadTimers st) ->
     unloadTimer st = Some (handle t) /\
     exists key, callback t = UnloadCallback key /\ lastLoadedKey (log st) = Some key) /\
  (forall key delay,
     unloadTimers (scheduleModelUnload key delay st) =
       [{| handle := nextHandle st; due := now st + delay; callback := UnloadCallback key |}]) /\
  (forall m k,
     unloadTimers (runCallback config (LoadResolved m k) st) =
       [{| handle := nextHandle st; due := now st + unloadDelay (config m);
           callback := UnloadCallback (modelKey m) |}]).
Proof.
  intros Hrun.
  destruct (reachable_invariants config es st Hrun) as (Hti & Hnm & [Hlast Hload] & Hq).
  assert (Hun : forall t, In t (unloadTimers st) ->
            In t (timers st) /\ unloadTimer st = Some (handle t)).
  { intros t [Hin Hu]%filter_In. split; [exact Hin|]. apply (ti_unload _ Hti); assumption. }
  split_and!.
  - destruct (unloadTimers st) as [|t1 [|t2 l]] eqn:Hl; cbn; try lia.
    exfalso.
    destruct (Hun t1) as [Hin1 Hu1]; [left; reflexivity|].
    destruct (Hun t2) as [Hin2 Hu2]; [right; left; reflexivity|].
    assert (Heq : t1 = t2)
      by (apply (NoDup_map_eq handle (timers st)); auto using ti_nodup; congruence).
    subst t2.
    assert (Hnd : NoDup (map handle (unloadTimers st)))
      by (apply NoDup_map_filter, (ti_nodup _ Hti)).
    rewrite Hl in Hnd. cbn in Hnd. apply NoDup_cons in Hnd as [Hnd _].
    apply Hnd. left.
  - intros t Ht. destruct (Hun t Ht) as [Hin Hu]. split; [exact Hu|].
    apply filter_In in Ht as [_ Hcb].
    destruct (callback t) as [| |key] eqn:Hk; try discriminate.
    exists key. split; [reflexivity|]. exact (Hlast t key Hin Hk).
  - intros key delay. apply scheduleModelUnload_spec, Hti.
  - intros m k. cbn [runCallback]. unfold unloadTimers.
    destruct (resumeCaller_timers k m (finishLoad config m st)) as [-> _].
    unfold finishLoad.
    apply (scheduleModelUnload_spec (modelKey m) (unloadDelay (config m))
             (setModelStatus (modelKey m) _ st)).
    revert Hti. apply timerInv_fields; reflexivity.
Qed.

(** C6 (as amended).  [loadTimeout] is never read and no load fails with a
    timeout:
    - two configurations with the same footprints and unload delays give
      the same runs, whatever their load timeouts;
    - the synchronous part of a load returns success (already loaded),
      waits, or fails with the "Insufficient memory" error; no other
      error exists; when it has started a load, the timer of that load
      is due 2000 ms later;
    - when the timer of a load runs, at whatever time, the load succeeds
      and commits the footprint. *)
Theorem loads_have_no_timeout (m : ModelId) (k : Caller) (st : State) :
  (forall config',
     (forall m', memoryLimit (config' m') = memoryLimit (config m') /\
                 unloadDelay (config' m') = unloadDelay (config m')) ->
     forall st0 es, run config' st0 es = run config st0 es) /\
  (fst (loadModel config m k st) = Returned None \/
   fst (loadModel config m k st) = Awaiting \/
   fst (loadModel config m k st) = Returned (Some (insufficientMemory m))) /\
  (forall t, In t (timers (snd (loadModel config m k st))) ->
     callback t = LoadResolved m k -> In t (timers st) \/ due t = now st + 2000) /\
  (let st' := runCallback config (LoadResolved m k) st in
   modelStatus st' !! modelKey m =
     Some {| isLoaded := true; isLoading := false; lastUsed := now st;
             memoryUsage := memoryLimit (config m); error := None |} /\
   In (LoadSettled k m None) (log st')).
Proof.
  split_and!.
  - intros config' Hsame.
    assert (Hload : forall m' k' s, loadModel config' m' k' s = loadModel config m' k' s).
    { intros m' k' s. unfold loadModel. destruct (Hsame m') as [-> _]. reflexivity. }
    assert (Hfin : forall m' s, finishLoad config' m' s = finishLoad config m' s).
    { intros m' s. unfold finishLoad. destruct (Hsame m') as [-> ->]. reflexivity. }
    assert (Hrc : forall op s, runClosure config' op s = runClosure config op s).
    { intros op s. unfold runClosure. rewrite Hload. reflexivity. }
    assert (Hlt : forall s, loopTurn config' s = loopTurn config s).
    { intros s. unfold loopTurn. destruct (requestQueue s); [reflexivity|apply Hrc]. }
    assert (Hstep : forall s e, step config' s e = step config s e).
    { intros s [m'|m'|id ok| |h|t|a]; cbn [step]; try reflexivity.
      - unfold executeWith, processQueue. rewrite Hlt. reflexivity.
      - unfold callLoad. rewrite Hload. reflexivity.
      - destruct (microtasks s) as [|[id err|] rest]; cbn [runMicrotask]; rewrite ?Hlt; reflexivity.
      - destruct (noMicrotask s); [|reflexivity].
        destruct (findTimer h s) as [t|]; [|reflexivity].
        destruct (callback t); cbn [runCallback]; rewrite ?Hfin; reflexivity. }
    intros st0 es. revert st0. induction es as [|e es IH]; intros st0; cbn; [reflexivity|].
    rewrite Hstep. destruct (step config st0 e); auto.
  - unfold loadModel, waitForModelLoad, checkStatus.
    repeat case_match; cbn; auto.
  - intros t. unfold loadModel, waitForModelLoad, checkStatus.
    repeat case_match; cbn; auto.
    + intros [Hin|[<-|[]]]%in_app_iff; [auto|discriminate].
    + intros [Hin|[<-|[]]]%in_app_iff; [auto|discriminate].
    + intros [Hin|[<-|[]]]%in_app_iff; auto.
  - apply load_completion.
Qed.

End ManagerClaims.

(** The unload methods do nothing in a reachable state, because the
    fields they test are [null]. *)
Lemma unload_is_a_noop config es st :
  run config initial es = Some st ->
  unloadGemmaModel st = st /\ unloadTTSModel st = st /\
  (forall key, unloadCallback key st = st) /\
  handleAppStateChange background st = with_isBackgrounded true st.
Proof.
  intros Hrun. destruct (reachable_invariants config es st Hrun) as (_ & Hnm & _).
  destruct (noModel_unload st Hnm) as [Hg Ht]. split_and!; auto.
  - intros key. unfold unloadCallback. rewrite Hg, Ht. repeat case_match; reflexivity.
  - cbn. unfold unloadModelsOnBackground.
    assert (Hb : noModel (with_isBackgrounded true st)) by exact Hnm.
    destruct (noModel_unload _ Hb) as [-> ->]. reflexivity.
Qed.

(** In a reachable state a model that is not loaded has no usage
    recorded, and a loaded one has its footprint recorded. *)
Lemma reachable_recorded_usage config es st m :
  run config initial es = Some st ->
  recordedUsage (modelKey m) st =
    if statusFlag isLoaded (modelKey m) st then memoryLimit (config m) else 0.
Proof.
  intros Hrun. destruct (reachable_invariants config es st Hrun) as (_ & _ & [_ Hload] & _).
  unfold recordedUsage, statusFlag.
  destruct (modelStatus st !! modelKey m) as [s|] eqn:Hs; [|reflexivity].
  destruct (isLoaded s) eqn:Hl.
  - apply (li_exclusive _ _ _ (Hload m) s Hs Hl).
  - apply (li_unloaded _ _ _ (Hload m) s Hs Hl).
Qed.

Lemma queue_runs_one_task_at_a_time_witness :
  exists st,
    run CONFIG initial
      [ExecuteWith Gemma; ExecuteWith TTS; ClockAdvance 2000; TimerFires 1; Microtask;
       OperationDone 0 true; Microtask; ClockAdvance 5000; TimerFires 3] = Some st /\
    (length (openTasks st) <= 1)%nat /\
    forall newer older, log st = newer ++ older ->
      (countSettled older <= countPopped older <= S (countSettled older))%nat /\
      (forall i m older', older = Submitted i m :: older' -> i = countSubmitted older') /\
      (forall i older', older = Popped i :: older' ->
         i = countPopped older' /\ countSettled older' = countPopped older' /\
         exists m, In (Submitted i m) older') /\
      (forall i older', older = OperationBegin i :: older' ->
         forall j, (j < i)%nat -> exists ok, In (Settled j ok) older').
Proof.
  destruct (run CONFIG initial _) as [st|] eqn:Hrun; [|vm_compute in Hrun; discriminate].
  exists st. split; [reflexivity|].
  exact (queue_runs_one_task_at_a_time_in_submission_order CONFIG _ st Hrun).
Defined.

Lemma load_is_admitted_witness :
  let config := fun m => withMemoryLimit 600 (CONFIG m) in
  exists st',
    loadModel config Gemma (Direct 0) initial =
      (Returned (Some (insufficientMemory Gemma)), st') /\
    getCurrentMemoryUsage st' = getCurrentMemoryUsage initial /\
    modelStatus st' !! modelKey Gemma =
      Some {| isLoaded := false; isLoading := false; lastUsed := now initial;
              memoryUsage := 0; error := Some (insufficientMemory Gemma) |} /\
    timers st' = timers initial /\
    log st' =
      StatusSet (modelKey Gemma)
        {| isLoaded := false; isLoading := false; lastUsed := now initial;
           memoryUsage := 0; error := Some (insufficientMemory Gemma) |}
      :: StatusSet (modelKey Gemma)
           {| isLoaded := false; isLoading := true; lastUsed := now initial;
              memoryUsage := 0; error := None |}
      :: log initial.
Proof.
  intros config.
  apply (proj1 (proj2 (proj2
    (load_is_admitted_iff_budget_allows config Gemma (Direct 0) initial)))).
  - split_and!; reflexivity.
  - vm_compute. reflexivity.
Defined.

(** C1, counterexample.  With a footprint of 600 the load of the Gemma
    model is rejected in the initial state, and the status of the model is
    written with [isLoading = true] before the rejection.  With the
    shipped configuration and both models loaded, the recorded usage is
    406 and the footprint of the TTS model 150, yet [loadTTSModel]
    succeeds. *)
Lemma load_rejection_writes_loading_first :
  (let config := fun m => withMemoryLimit 600 (CONFIG m) in
   512 < getCurrentMemoryUsage initial + memoryLimit (config Gemma) /\
   fst (loadModel config Gemma (Direct 0) initial) =
     Returned (Some "Insufficient memory for Gemma model") /\
   log (snd (loadModel config Gemma (Direct 0) initial)) =
     [StatusSet "gemma"
        {| isLoaded := false; isLoading := false; lastUsed := 0; memoryUsage := 0;
           error := Some "Insufficient memory for Gemma model" |};
      StatusSet "gemma"
        {| isLoaded := false; isLoading := true; lastUsed := 0; memoryUsage := 0;
           error := None |}]) /\
  (exists st,
     run CONFIG initial
       [LoadCall Gemma; LoadCall TTS; ClockAdvance 2000; TimerFires 1; TimerFires 2] = Some st /\
     getCurrentMemoryUsage st = 406 /\
     512 < getCurrentMemoryUsage st + memoryLimit (CONFIG TTS) /\
     fst (loadTTSModel (Direct 2) st) = Returned None).
Proof.
  split.
  - vm_compute. split_and!; reflexivity.
  - eexists. split; [vm_compute; reflexivity|]. vm_compute. split_and!; reflexivity.
Qed.



Lemma one_unload_timer_witness :
  exists st,
    run CONFIG initial
      [ExecuteWith Gemma; ClockAdvance 2000; TimerFires 1; Microtask; LoadCall TTS;
       ClockAdvance 4000; TimerFires 3] = Some st /\
    (length (unloadTimers st) <= 1)%nat /\
    forall t, In t (unloadTimers st) ->
      unloadTimer st = Some (handle t) /\
      exists key, callback t = UnloadCallback key /\ lastLoadedKey (log st) = Some key.
Proof.
  destruct (run CONFIG initial _) as [st|] eqn:Hrun; [|vm_compute in Hrun; discriminate].
  exists st. split; [reflexivity|].
  pose proof (one_unload_timer_for_the_process CONFIG _ st Hrun) as (H1 & H2 & _).
  exact (conj H1 H2).
Defined.

(** C5.  The Gemma model is loaded at 2000 and its unload timer is due at
    302000.
    - A call of [loadGemmaModel] at 200000 returns at once: the timer is
      still the one due at 302000 and [lastUsed] is still 2000.
    - A task submitted at 301000 finds the model loaded and its
      operation begins; the timer runs at 302000, while the operation is
      running.
    - When the timer has run, also in a run without any further call,
      the status still says loaded and the recorded usage is still 256:
      the unload method did nothing. *)
Theorem unload_timer_ignores_use_and_unloads_nothing :
  let loaded := {| isLoaded := true; isLoading := false; lastUsed := 2000;
                   memoryUsage := 256; error := None |} in
  (exists st st',
     run CONFIG initial [LoadCall Gemma; ClockAdvance 2000; TimerFires 1] = Some st /\
     timers st = [{| handle := 2; due := 302000; callback := UnloadCallback "gemma" |}] /\
     modelStatus st !! "gemma" = Some loaded /\
     run CONFIG st [ClockAdvance 302000; TimerFires 2] = Some st' /\
     timers st' = [] /\
     modelStatus st' !! "gemma" = Some loaded /\
     getCurrentMemoryUsage st' = 256) /\
  (exists st st',
     run CONFIG initial
       [LoadCall Gemma; ClockAdvance 2000; TimerFires 1; ClockAdvance 200000; LoadCall Gemma]
       = Some st /\
     In (LoadSettled (Direct 1) Gemma None) (log st) /\
     timers st = [{| handle := 2; due := 302000; callback := UnloadCallback "gemma" |}] /\
     modelStatus st !! "gemma" = Some loaded /\
     run CONFIG st [ClockAdvance 301000; ExecuteWith Gemma; Microtask; ClockAdvance 302000;
                    TimerFires 2] = Some st' /\
     pendingOps st' = [0%nat] /\
     timers st' = [] /\
     modelStatus st' !! "gemma" = Some loaded /\
     getCurrentMemoryUsage st' = 256).
Proof.
  intros loaded. split.
  - eexists. eexists. split; [vm_compute; reflexivity|].
    split; [reflexivity|]. split; [reflexivity|].
    split; [vm_compute; reflexivity|].
    split_and!; reflexivity.
  - eexists. eexists. split; [vm_compute; reflexivity|].
    split; [vm_compute; auto|]. split; [reflexivity|]. split; [reflexivity|].
    split; [vm_compute; reflexivity|].
    split_and!; reflexivity.
Qed.

Lemma loads_have_no_timeout_witness :
  let config' := fun m => withLoadTimeout 1 (CONFIG m) in
  run config' initial [LoadCall Gemma; ClockAdvance 2000; TimerFires 1] =
  run CONFIG initial [LoadCall Gemma; ClockAdvance 2000; TimerFires 1].
Proof.
  intros config'.
  apply (proj1 (loads_have_no_timeout CONFIG Gemma (Direct 0) initial) config').
  intros m'. split; reflexivity.
Defined.

(** C6, counterexample.  With a load timeout of 1000 ms the load of the
    Gemma model started at 0 completes at 2000 and succeeds.  With the
    shipped timeout of 30000 ms and the timer of the load served late, at
    31000, the load succeeds as well.  Neither run records an error. *)
Lemma load_outlives_its_timeout :
  (exists st,
     run (fun m => withLoadTimeout 1000 (CONFIG m)) initial
       [LoadCall Gemma; ClockAdvance 2000; TimerFires 1] = Some st /\
     now st = 2000 /\
     modelStatus st !! "gemma" =
       Some {| isLoaded := true; isLoading := false; lastUsed := 2000;
               memoryUsage := 256; error := None |} /\
     In (LoadSettled (Direct 0) Gemma None) (log st)) /\
  (exists st,
     run CONFIG initial [LoadCall Gemma; ClockAdvance 31000; TimerFires 1] = Some st /\
     loadTimeout (CONFIG Gemma) = 30000 /\
     modelStatus st !! "gemma" =
       Some {| isLoaded := true; isLoading := false; lastUsed := 31000;
               memoryUsage := 256; error := None |} /\
     In (LoadSettled (Direct 0) Gemma None) (log st)).
Proof.
  split; (eexists; split; [vm_compute; reflexivity|]);
    split_and!; try (vm_compute; reflexivity); vm_compute; auto.
Qed.

(** * Properties of the caches *)

(** ** JavaScript [Map] *)

Section JsMapFacts.

Context {V : Type}.

Implicit Types (m : list (string * V)) (k : string) (v : V).

Lemma JsMap_in_delete k k' v m :
  In (k', v) (JsMap.delete k m) <-> In (k', v) m /\ k' <> k.
Proof.
  unfold JsMap.delete. rewrite filter_In. cbn.
  rewrite negb_true_iff, String.eqb_neq. reflexivity.
Qed.

Lemma JsMap_get_In k v m : JsMap.get k m = Some v -> In (k, v) m.
Proof.
  induction m as [|[k' v'] m IH]; cbn; [discriminate|].
  destruct (String.eqb k' k) eqn:He.
  - apply String.eqb_eq in He. intros [= ->]. left. congruence.
  - auto.
Qed.

Lemma JsMap_get_None k m : JsMap.get k m = None <-> ~ In k (JsMap.keys m).
Proof.
  induction m as [|[k' v'] m IH]; cbn; [tauto|].
  destruct (String.eqb k' k) eqn:He.
  - apply String.eqb_eq in He. split; [discriminate|]. intros H. destruct H. auto.
  - apply String.eqb_neq in He. rewrite IH. tauto.
Qed.

Lemma JsMap_In_get k v m : JsMap.wf m -> In (k, v) m -> JsMap.get k m = Some v.
Proof.
  unfold JsMap.wf. induction m as [|[k' v'] m IH]; cbn; [tauto|].
  intros [Hn Hd]%NoDup_cons [[= -> ->]|Hin].
  - rewrite String.eqb_refl. reflexivity.
  - destruct (String.eqb k' k) eqn:He; [|auto].
    apply String.eqb_eq in He. subst k'. destruct Hn.
    apply list_elem_of_In, in_map_iff. exists (k, v). auto.
Qed.

Lemma JsMap_wf_unique k v v' m : JsMap.wf m -> In (k, v) m -> In (k, v') m -> v = v'.
Proof.
  intros Hwf H1 H2. apply (JsMap_In_get _ _ _ Hwf) in H1, H2. congruence.
Qed.

Lemma JsMap_get_delete_eq k m : JsMap.get k (JsMap.delete k m) = None.
Proof.
  apply JsMap_get_None. unfold JsMap.keys. intros (kv & Hk & Hin)%in_map_iff.
  destruct kv as [k' v]. cbn in Hk. subst k'.
  apply JsMap_in_delete in Hin. tauto.
Qed.

Lemma JsMap_wf_filter (p : string * V -> bool) m : JsMap.wf m -> JsMap.wf (List.filter p m).
Proof. apply NoDup_map_filter. Qed.

Lemma JsMap_wf_delete k m : JsMap.wf m -> JsMap.wf (JsMap.delete k m).
Proof. apply JsMap_wf_filter. Qed.

Lemma JsMap_delete_absent k m : JsMap.get k m = None -> JsMap.delete k m = m.
Proof.
  intros Hn. apply filter_all. intros [k' v] Hin. cbn.
  apply negb_true_iff, String.eqb_neq. intros ->.
  apply JsMap_get_None in Hn. apply Hn, in_map_iff. exists (k, v). auto.
Qed.

Lemma JsMap_size_delete k v m :
  JsMap.wf m -> JsMap.get k m = Some v ->
  S (JsMap.size (JsMap.delete k m)) = JsMap.size m.
Proof.
  unfold JsMap.wf, JsMap.size. induction m as [|[k' v'] m IH]; cbn; [discriminate|].
  intros [Hn Hd]%NoDup_cons. destruct (String.eqb k' k) eqn:He; cbn.
  - intros _. apply String.eqb_eq in He. subst k'.
    fold (JsMap.delete k m). rewrite JsMap_delete_absent; [reflexivity|].
    apply JsMap_get_None. intros Hin. apply Hn, list_elem_of_In, Hin.
  - intros Hg. f_equal. apply IH; assumption.
Qed.

Lemma JsMap_keys_set k v m :
  JsMap.keys (JsMap.set k v m) =
  match JsMap.get k m with
  | Some _ => JsMap.keys m
  | None => JsMap.keys m ++ [k]
  end.
Proof.
  unfold JsMap.keys. induction m as [|[k' v'] m IH]; cbn; [reflexivity|].
  destruct (String.eqb k' k) eqn:He; cbn.
  - apply String.eqb_eq in He. subst k'. reflexivity.
  - rewrite IH. destruct (JsMap.get k m); reflexivity.
Qed.

Lemma JsMap_wf_set k v m : JsMap.wf m -> JsMap.wf (JsMap.set k v m).
Proof.
  unfold JsMap.wf. rewrite JsMap_keys_set.
  destruct (JsMap.get k m) eqn:Hg; [auto|].
  intros Hwf. apply NoDup_app. split_and!; [exact Hwf| |apply NoDup_singleton].
  intros x Hx [->|[]]%list_elem_of_In.
  apply JsMap_get_None in Hg. apply Hg, list_elem_of_In, Hx.
Qed.

Lemma JsMap_size_set k v m :
  JsMap.size (JsMap.set k v m) =
  match JsMap.get k m with
  | Some _ => JsMap.size m
  | None => S (JsMap.size m)
  end.
Proof.
  unfold JsMap.size.
  rewrite <- (length_map fst (JsMap.set k v m)), <- (length_map fst m).
  change (map fst (JsMap.set k v m)) with (JsMap.keys (JsMap.set k v m)).
  rewrite JsMap_keys_set.
  destruct (JsMap.get k m); [reflexivity|]. rewrite length_app. cbn. unfold JsMap.keys. lia.
Qed.

Lemma JsMap_get_set_eq k v m : JsMap.get k (JsMap.set k v m) = Some v.
Proof.
  induction m as [|[k' v'] m IH]; cbn.
  - rewrite String.eqb_refl. reflexivity.
  - destruct (String.eqb k' k) eqn:He; cbn.
    + rewrite String.eqb_refl. reflexivity.
    + rewrite He. exact IH.
Qed.

Lemma JsMap_in_set k v m k' v' :
  In (k', v') (JsMap.set k v m) -> (k' = k /\ v' = v) \/ In (k', v') m.
Proof.
  induction m as [|[k0 v0] m IH]; cbn.
  - intros [[= <- <-]|[]]. auto.
  - destruct (String.eqb k0 k) eqn:He; cbn.
    + intros [[= <- <-]|Hin]; auto.
    + intros [[= <- <-]|Hin]; [auto|]. destruct (IH Hin) as [?|?]; auto.
Qed.

End JsMapFacts.

(** ** The priority cache of the memory manager *)

Section MemoryManagerFacts.

Import MemoryManager.

Implicit Types (c : Cache) (item : CacheItem).

Lemma in_deleteKeys ks c kv :
  In kv (deleteKeys ks c) <-> In kv c /\ ~ In (fst kv) ks.
Proof.
  unfold deleteKeys. revert c. induction ks as [|k ks IH]; intros c; cbn; [tauto|].
  rewrite IH. destruct kv as [k' v]. rewrite JsMap_in_delete. cbn.
  split; [intros [[? ?] ?]|intros [? ?]]; split_and!; auto.
  intros [->|?]; auto.
Qed.

Lemma wf_deleteKeys ks c : JsMap.wf c -> JsMap.wf (deleteKeys ks c).
Proof.
  unfold deleteKeys. revert c. induction ks as [|k ks IH]; intros c Hwf; cbn; [exact Hwf|].
  apply IH, JsMap_wf_delete, Hwf.
Qed.

Lemma keyed_subset c c' :
  (forall kv, In kv c' -> In kv c) -> keyed c -> keyed c'.
Proof. intros Hsub Hk k item Hin. apply Hk, Hsub, Hin. Qed.

Lemma keyed_deleteKeys ks c : keyed c -> keyed (deleteKeys ks c).
Proof. apply keyed_subset. intros kv Hin. apply in_deleteKeys in Hin. tauto. Qed.

(** Deleting the keys of the entries selected by [p] removes exactly the
    selected entries, because a key occurs once. *)
Lemma in_delete_selected (p : string * CacheItem -> bool) c k item :
  JsMap.wf c ->
  (In (k, item) (deleteKeys (map fst (List.filter p c)) c) <->
   In (k, item) c /\ p (k, item) = false).
Proof.
  intros Hwf. rewrite in_deleteKeys. cbn. split; intros [Hin Hp]; (split; [exact Hin|]).
  - destruct (p (k, item)) eqn:E; [|reflexivity]. destruct Hp.
    apply in_map_iff. exists (k, item). split; [reflexivity|]. apply filter_In. auto.
  - intros ([k' item'] & Hk & [Hin' Hp']%filter_In)%in_map_iff. cbn in Hk. subst k'.
    rewrite (JsMap_wf_unique _ _ _ _ Hwf Hin Hin') in Hp. congruence.
Qed.

Lemma removeExpiredCacheItems_spec now c k item :
  JsMap.wf c ->
  (In (k, item) (removeExpiredCacheItems now c) <->
   In (k, item) c /\ isExpired now item = false).
Proof. intros Hwf. apply (in_delete_selected (fun kv => isExpired now (snd kv)) c k item Hwf). Qed.

Lemma performAggressiveCleanup_spec c k item :
  JsMap.wf c ->
  (In (k, item) (performAggressiveCleanup c) <-> In (k, item) c /\ priority item <= 1).
Proof.
  intros Hwf. unfold performAggressiveCleanup.
  rewrite (in_delete_selected (fun kv => 1 <? priority (snd kv)) c k item Hwf). cbn.
  rewrite Z.ltb_ge. reflexivity.
Qed.

(** *** The stable sort by timestamp *)

Lemma insertByTimestamp_perm x l : Permutation (insertByTimestamp x l) (x :: l).
Proof.
  induction l as [|y l IH]; cbn; [reflexivity|].
  destruct (timestamp x <? timestamp y); [reflexivity|].
  rewrite IH. apply perm_swap.
Qed.

Lemma insertByTimestamp_sorted x l :
  StronglySorted olderOrEqual l -> StronglySorted olderOrEqual (insertByTimestamp x l).
Proof.
  induction l as [|y l IH]; cbn; intros Hs.
  - repeat constructor.
  - apply StronglySorted_inv in Hs as [Hs Hall].
    destruct (timestamp x <? timestamp y) eqn:E.
    + apply Z.ltb_lt in E. constructor; [constructor; assumption|].
      constructor; [unfold olderOrEqual; lia|].
      rewrite List.Forall_forall in *. intros z Hz. specialize (Hall z Hz).
      unfold olderOrEqual in *. lia.
    + apply Z.ltb_ge in E. constructor; [auto|].
      rewrite List.Forall_forall in *. intros z Hz.
      apply (Permutation_in _ (insertByTimestamp_perm x l)) in Hz as [<-|Hz]; [exact E|auto].
Qed.

Lemma sortByTimestamp_spec l :
  Permutation (sortByTimestamp l) l /\ StronglySorted olderOrEqual (sortByTimestamp l).
Proof.
  unfold sortByTimestamp.
  assert (H : forall acc, StronglySorted olderOrEqual acc ->
            Permutation (fold_left (fun sorted x => insertByTimestamp x sorted) l acc) (l ++ acc) /\
            StronglySorted olderOrEqual
              (fold_left (fun sorted x => insertByTimestamp x sorted) l acc)).
  { induction l as [|x l IH]; intros acc Hacc; cbn; [auto|].
    destruct (IH (insertByTimestamp x acc) (insertByTimestamp_sorted x acc Hacc)) as [Hp Hs].
    split; [|exact Hs]. rewrite Hp, insertByTimestamp_perm. symmetry. apply Permutation_middle. }
  destruct (H [] (SSorted_nil _)) as [Hp Hs]. rewrite app_nil_r in Hp. auto.
Qed.

Lemma sorted_firstn_older (l : list CacheItem) n a b :
  StronglySorted olderOrEqual l -> In a (firstn n l) -> In b (skipn n l) ->
  timestamp a <= timestamp b.
Proof.
  revert n. induction l as [|x l IH]; intros n Hs Ha Hb.
  - rewrite firstn_nil in Ha. destruct Ha.
  - apply StronglySorted_inv in Hs as [Hs Hall]. destruct n as [|n]; cbn in Ha, Hb; [destruct Ha|].
    destruct Ha as [<-|Ha].
    + rewrite List.Forall_forall in Hall. apply Hall.
      rewrite <- (firstn_skipn n l). apply in_app_iff. right. exact Hb.
    + eapply IH; eauto.
Qed.

Lemma in_values c item : In item (JsMap.values c) <-> exists k, In (k, item) c.
Proof.
  unfold JsMap.values. rewrite in_map_iff. split.
  - intros ([k v] & <- & Hin). exists k. exact Hin.
  - intros [k Hin]. exists (k, item). auto.
Qed.

Lemma lowPriorityItems_spec c :
  (forall v, In v (lowPriorityItems c) <-> priority v = 3 /\ exists k, In (k, v) c) /\
  StronglySorted olderOrEqual (lowPriorityItems c).
Proof.
  unfold lowPriorityItems.
  destruct (sortByTimestamp_spec
              (List.filter (fun item => priority item =? 3) (JsMap.values c))) as [Hp Hs].
  split; [|exact Hs]. intros v. rewrite <- in_values. split.
  - intros Hin. apply (Permutation_in _ Hp) in Hin. apply filter_In in Hin as [Hin Hpr].
    apply Z.eqb_eq in Hpr. auto.
  - intros [Hpr Hin]. apply (Permutation_in _ (Permutation_sym Hp)).
    apply filter_In. split; [exact Hin|]. apply Z.eqb_eq, Hpr.
Qed.

Lemma removeLowPriorityItems_spec c k item :
  JsMap.wf c -> keyed c ->
  (In (k, item) (removeLowPriorityItems c) <->
   In (k, item) c /\ ~ In item (firstn (itemsToRemove c) (lowPriorityItems c))).
Proof.
  intros Hwf Hkeyed. unfold removeLowPriorityItems. rewrite in_deleteKeys. cbn.
  split; intros [Hin Hn]; (split; [exact Hin|]).
  - intros Hv. apply Hn. apply in_map_iff. exists item. split; [apply Hkeyed, Hin|exact Hv].
  - intros (v & Hk & Hv)%in_map_iff.
    assert (Hlow : In v (lowPriorityItems c)).
    { rewrite <- (firstn_skipn (itemsToRemove c) (lowPriorityItems c)).
      apply in_app_iff. auto. }
    apply lowPriorityItems_spec in Hlow as [_ [k' Hin']].
    rewrite (Hkeyed _ _ Hin') in Hk. subst k'.
    rewrite (JsMap_wf_unique _ _ _ _ Hwf Hin Hin') in Hn. auto.
Qed.

Lemma overThreshold_spec os c :
  overThreshold os c = true <-> 4 * getTotalMemory os < 5 * (768 + getCacheSize c).
Proof.
  unfold overThreshold, getUsedMemory, getModelMemory,
    MEMORY_THRESHOLD_num, MEMORY_THRESHOLD_den.
  rewrite Z.ltb_lt. destruct os; cbn [getTotalMemory]; lia.
Qed.

Lemma addCacheItem_wf os now k data prio c :
  JsMap.wf c -> keyed c ->
  JsMap.wf (addCacheItem os now k data prio c) /\ keyed (addCacheItem os now k data prio c).
Proof.
  intros Hwf Hkeyed. unfold addCacheItem.
  set (item := {| key := k; size := _; timestamp := _; priority := _ |}).
  assert (Hwf1 : JsMap.wf (JsMap.set k item c)) by apply JsMap_wf_set, Hwf.
  assert (Hk1 : keyed (JsMap.set k item c)).
  { intros k' item' [[-> ->]|Hin]%JsMap_in_set; [reflexivity|auto]. }
  unfold checkMemoryThreshold, performMemoryCleanup, removeLowPriorityItems,
    removeExpiredCacheItems.
  repeat case_match; auto using wf_deleteKeys, keyed_deleteKeys.
Qed.

(** Entries with equal timestamps keep their order of insertion. *)
Example sort_is_stable :
  map key (lowPriorityItems [entry "a" 1 5 3; entry "b" 1 2 3; entry "c" 1 5 3; entry "d" 1 2 3]) =
  ["b"; "d"; "a"; "c"].
Proof. reflexivity. Qed.

(** C4 (as amended).  For a cache [c] in which a key occurs once and every
    entry is stored under its own key:
    - the usage ratio is [(512 + cacheSize + 256) / totalMemory], with
      [totalMemory] 4096 on iOS and 8192 elsewhere, and it is above the
      threshold 0.8 when [4 * totalMemory < 5 * (768 + cacheSize)];
    - below the threshold [checkMemoryThreshold] removes nothing; above
      it, it runs [performMemoryCleanup];
    - [performMemoryCleanup] first removes exactly the entries older
      than [CACHE_EXPIRY];
    - if the ratio is still above the threshold, it then removes, once,
      the first [ceil (n / 2)] of the [n] remaining priority-3 entries in
      the order of their timestamps: every removed entry is at least as
      old as every priority-3 entry that is kept;
    - an entry that is not expired and whose priority is not 3 (Medium,
      High) is never removed. *)
Theorem cleanup_removes_expired_then_oldest_half_of_low os now c :
  JsMap.wf c -> keyed c ->
  let c1 := removeExpiredCacheItems now c in
  let lows := lowPriorityItems c1 in
  let victims := firstn (itemsToRemove c1) lows in
  (overThreshold os c = true <-> 4 * getTotalMemory os < 5 * (768 + getCacheSize c)) /\
  (overThreshold os c = false -> checkMemoryThreshold os now c = c) /\
  (overThreshold os c = true ->
     checkMemoryThreshold os now c = performMemoryCleanup os now c) /\
  (forall k item, In (k, item) c1 <-> In (k, item) c /\ now - timestamp item <= CACHE_EXPIRY) /\
  (overThreshold os c1 = false -> performMemoryCleanup os now c = c1) /\
  (overThreshold os c1 = true ->
     (forall k item, In (k, item) (performMemoryCleanup os now c) <->
                     In (k, item) c1 /\ ~ In item victims) /\
     length victims = Nat.div2 (S (length lows)) /\
     (forall v, In v lows <-> priority v = 3 /\ exists k, In (k, v) c1) /\
     (forall v s, In v victims -> In s lows -> ~ In s victims ->
                  timestamp v <= timestamp s)) /\
  (forall k item, In (k, item) c -> now - timestamp item <= CACHE_EXPIRY ->
     priority item <> 3 -> In (k, item) (performMemoryCleanup os now c)).
Proof.
  intros Hwf Hkeyed c1 lows victims.
  assert (Hwf1 : JsMap.wf c1) by apply wf_deleteKeys, Hwf.
  assert (Hk1 : keyed c1) by apply keyed_deleteKeys, Hkeyed.
  assert (Hc1 : forall k item,
            In (k, item) c1 <-> In (k, item) c /\ now - timestamp item <= CACHE_EXPIRY).
  { intros k item. unfold c1. rewrite (removeExpiredCacheItems_spec now c k item Hwf).
    unfold isExpired. rewrite Z.ltb_ge. reflexivity. }
  destruct (lowPriorityItems_spec c1) as [Hlow Hsorted].
  split_and!.
  - apply overThreshold_spec.
  - intros Ho. unfold checkMemoryThreshold. rewrite Ho. reflexivity.
  - intros Ho. unfold checkMemoryThreshold. rewrite Ho. reflexivity.
  - exact Hc1.
  - intros Ho. unfold performMemoryCleanup. fold c1. rewrite Ho. reflexivity.
  - intros Ho. unfold performMemoryCleanup. fold c1. rewrite Ho. split_and!.
    + intros k item. apply removeLowPriorityItems_spec; assumption.
    + unfold victims, itemsToRemove. fold lows. rewrite length_firstn.
      assert (Nat.div2 (S (length lows)) <= length lows)%nat; [|lia].
      rewrite Nat.div2_div. destruct (length lows); [reflexivity|].
      apply Nat.Div0.div_le_upper_bound. lia.
    + exact Hlow.
    + intros v s Hv Hs Hns. apply (sorted_firstn_older lows (itemsToRemove c1)); auto.
      rewrite <- (firstn_skipn (itemsToRemove c1) lows) in Hs.
      apply in_app_iff in Hs as [Hs|Hs]; [destruct (Hns Hs)|exact Hs].
  - intros k item Hin Hfresh Hpr. unfold performMemoryCleanup. fold c1.
    assert (Hin1 : In (k, item) c1) by (apply Hc1; auto).
    destruct (overThreshold os c1); [|exact Hin1].
    apply removeLowPriorityItems_spec; auto. split; [exact Hin1|].
    intros Hv.
    assert (Hl : In item lows).
    { unfold lows. rewrite <- (firstn_skipn (itemsToRemove c1) (lowPriorityItems c1)).
      apply in_app_iff. auto. }
    apply Hlow in Hl as [Hl _]. contradiction.
Qed.

End MemoryManagerFacts.

Lemma cleanup_witness :
  In (MemoryManager.entry "d" 10 4 2)
     (MemoryManager.performMemoryCleanup MemoryManager.ios 10
        [MemoryManager.entry "a" 3000 1 3; MemoryManager.entry "b" 3000 2 3;
         MemoryManager.entry "c" 3000 3 3; MemoryManager.entry "d" 10 4 2]).
Proof.
  set (c := [MemoryManager.entry "a" 3000 1 3; MemoryManager.entry "b" 3000 2 3;
             MemoryManager.entry "c" 3000 3 3; MemoryManager.entry "d" 10 4 2]).
  assert (Hwf : JsMap.wf c) by (apply (bool_decide_unpack _); vm_compute; reflexivity).
  assert (Hk : MemoryManager.keyed c).
  { intros k item Hin. repeat (destruct Hin as [[= <- <-]|Hin]; [reflexivity|]). destruct Hin. }
  apply (proj2 (proj2 (proj2 (proj2 (proj2 (proj2
    (cleanup_removes_expired_then_oldest_half_of_low MemoryManager.ios 10 c Hwf Hk))))))).
  - cbn. auto.
  - vm_compute. discriminate.
  - cbn. discriminate.
Defined.

(** C4, counterexample.  On the entries of the specification (Low, Low,
    Medium, High, 150 bytes each) the ratio is (768 + 600) / 4096, below
    the threshold: nothing is removed and the cache holds 600 bytes.  With
    three Low entries of 3000 bytes one pass removes two of them and
    stops, although the ratio is still above the threshold and a Low
    entry is left.  With a Medium and a High entry above the threshold
    nothing is removed. *)
Lemma cleanup_stops_after_half_of_the_low_entries :
  (let c :=
     MemoryManager.addCacheItem MemoryManager.ios 4 "d" (MemoryManager.JsString (MemoryManager.payload 150)) 1
       (MemoryManager.addCacheItem MemoryManager.ios 3 "c" (MemoryManager.JsString (MemoryManager.payload 150)) 2
          (MemoryManager.addCacheItem MemoryManager.ios 2 "b" (MemoryManager.JsString (MemoryManager.payload 150)) 3
             (MemoryManager.addCacheItem MemoryManager.ios 1 "a" (MemoryManager.JsString (MemoryManager.payload 150)) 3 []))) in
   c = [MemoryManager.entry "a" 150 1 3; MemoryManager.entry "b" 150 2 3;
        MemoryManager.entry "c" 150 3 2; MemoryManager.entry "d" 150 4 1] /\
   MemoryManager.getCacheSize c = 600 /\
   MemoryManager.overThreshold MemoryManager.ios c = false) /\
  (let c := [MemoryManager.entry "a" 3000 1 3; MemoryManager.entry "b" 3000 2 3;
             MemoryManager.entry "c" 3000 3 3] in
   MemoryManager.overThreshold MemoryManager.ios c = true /\
   MemoryManager.performMemoryCleanup MemoryManager.ios 10 c = [MemoryManager.entry "c" 3000 3 3] /\
   MemoryManager.overThreshold MemoryManager.ios [MemoryManager.entry "c" 3000 3 3] = true) /\
  (let c := [MemoryManager.entry "m" 3000 1 2; MemoryManager.entry "h" 1000 2 1] in
   MemoryManager.overThreshold MemoryManager.ios c = true /\
   MemoryManager.performMemoryCleanup MemoryManager.ios 10 c = c).
Proof. vm_compute. split_and!; reflexivity. Qed.

(** The cache half of the background signal: exactly the entries of
    priority at most 1 survive [performAggressiveCleanup]. *)
Lemma aggressive_cleanup_keeps_high (c : MemoryManager.Cache) k item :
  JsMap.wf c ->
  (In (k, item) (MemoryManager.handleAppStateChange background c) <->
   In (k, item) c /\ MemoryManager.priority item <= 1).
Proof. apply performAggressiveCleanup_spec. Qed.

(** C3, at the failing input.  Both models are loaded (usage 406) and the
    cache holds a High and two Medium entries.  After the background
    signal the two Medium entries are gone, but both models are still
    reported as loaded and the recorded usage is still 406:
    [unloadGemmaModel] and [unloadTTSModel] test [gemmaModel] and
    [ttsModel], which are [null]. *)
Theorem background_signal_leaves_the_models_loaded :
  exists st,
    run CONFIG initial
      [LoadCall Gemma; LoadCall TTS; ClockAdvance 2000; TimerFires 1; TimerFires 2] = Some st /\
    gemmaModel st = None /\ ttsModel st = None /\
    let after :=
      SignalBridge.appStateChange background
        {| SignalBridge.manager := st;
           SignalBridge.cacheItems :=
             [MemoryManager.entry "h" 100 1 1; MemoryManager.entry "m1" 100 2 2;
              MemoryManager.entry "m2" 100 3 2] |} in
    isModelLoaded Gemma (SignalBridge.manager after) = true /\
    isModelLoaded TTS (SignalBridge.manager after) = true /\
    getCurrentMemoryUsage (SignalBridge.manager after) = 406 /\
    SignalBridge.cacheItems after = [MemoryManager.entry "h" 100 1 1].
Proof.
  eexists. split; [vm_compute; reflexivity|]. vm_compute. split_and!; reflexivity.
Qed.

(** ** The translation cache *)

Section TranslationCacheFacts.

Import TranslationCache.

Context {Confidence : Type}.

Implicit Types (cache : list (string * CacheEntry Confidence)).

Lemma getFromCache_wf now k cache :
  JsMap.wf cache -> JsMap.wf (snd (getFromCache now k cache)).
Proof.
  intros Hwf. unfold getFromCache. repeat case_match; cbn; auto using JsMap_wf_delete.
Qed.

Lemma evictOldestCacheEntry_wf now cache :
  JsMap.wf cache -> JsMap.wf (evictOldestCacheEntry now cache).
Proof.
  intros Hwf. unfold evictOldestCacheEntry.
  destruct (fold_left _ _ _) as [oldestKey oldestTime].
  case_match; auto using JsMap_wf_delete.
Qed.

Lemma addToCache_wf now k txt conf cache :
  JsMap.wf cache -> JsMap.wf (addToCache now k txt conf cache).
Proof.
  intros Hwf. unfold addToCache. apply JsMap_wf_set.
  case_match; auto using evictOldestCacheEntry_wf.
Qed.

(** C8 (as amended).  In the translation cache every entry has the time
    to live of 24 hours.  An entry stored by [addToCache] at time [now0]
    is returned by [getFromCache] at time [now] exactly while its age
    [now - now0] is below it.  More generally, for an entry [e] stored
    under [k]: a lookup at an age below the time to live returns the text
    and leaves the cache alone; a lookup at an age that has reached it
    returns nothing and removes the entry, the cache has one entry less
    and [getCacheStats] reports 100 bytes less; any later lookup of [k]
    returns nothing and changes neither the cache nor its statistics.

    In the cache of the memory manager, which holds the sizes,
    [getCacheItem] is a plain [Map.get]: it reads no clock, returns the
    entry at any age and removes nothing.  An entry leaves that cache by
    age only in the expiry pass of a cleanup, when its age exceeds
    [CACHE_EXPIRY]. *)
Theorem lookup_returns_the_text_until_the_entry_expires now k cache e :
  JsMap.wf cache -> JsMap.get k cache = Some e ->
  let ttl := CACHE_EXPIRY_HOURS * 3600000 in
  (forall now0 txt conf cache0,
     fst (getFromCache now k (addToCache now0 k txt conf cache0)) =
     if now - now0 <? ttl then Some txt else None) /\
  (now - timestamp e < ttl -> getFromCache now k cache = (Some (text e), cache)) /\
  (ttl <= now - timestamp e ->
     let after := snd (getFromCache now k cache) in
     fst (getFromCache now k cache) = None /\
     after = JsMap.delete k cache /\
     JsMap.get k after = None /\
     S (JsMap.size after) = JsMap.size cache /\
     snd (getCacheStats after) = snd (getCacheStats cache) - 100 /\
     forall now', getFromCache now' k after = (None, after) /\
                  getCacheStats (snd (getFromCache now' k after)) = getCacheStats after) /\
  (forall (cacheItems : MemoryManager.Cache) key item,
     JsMap.wf cacheItems -> In (key, item) cacheItems ->
     MemoryManager.getCacheItem key cacheItems = Some item /\
     forall now',
       In (key, item) (MemoryManager.removeExpiredCacheItems now' cacheItems) <->
       now' - MemoryManager.timestamp item <= MemoryManager.CACHE_EXPIRY).
Proof.
  intros Hwf Hget ttl. split_and!.
  - intros now0 txt conf cache0. unfold getFromCache, addToCache.
    rewrite JsMap_get_set_eq. cbn [timestamp text]. fold ttl.
    destruct (now - now0 <? ttl); reflexivity.
  - intros Hfresh. unfold getFromCache. rewrite Hget.
    apply Z.ltb_lt in Hfresh. fold ttl. rewrite Hfresh. reflexivity.
  - intros Hold. unfold getFromCache. rewrite Hget.
    apply Z.ltb_ge in Hold. fold ttl. rewrite Hold. cbn [fst snd].
    pose proof (JsMap_size_delete k e cache Hwf Hget) as Hsize.
    split_and!; auto using JsMap_get_delete_eq.
    + unfold getCacheStats. cbn [snd]. lia.
    + rewrite JsMap_get_delete_eq. auto.
  - intros cacheItems key item Hwfi Hin. split.
    + unfold MemoryManager.getCacheItem. apply JsMap_In_get; assumption.
    + intros now'. rewrite (removeExpiredCacheItems_spec now' cacheItems key item Hwfi).
      unfold MemoryManager.isExpired. rewrite Z.ltb_ge. tauto.
Qed.

(** The entry is gone at the very millisecond its age reaches 24 hours. *)
Example lookup_at_the_boundary (conf : Confidence) :
  let cache := addToCache 0 "k" "text" conf [] in
  fst (getFromCache 86399999 "k" cache) = Some "text" /\
  getFromCache 86400000 "k" cache = (None, []).
Proof. split; reflexivity. Qed.

(** *** The size bound *)

Lemma oldestStep_cases (acc : string * Z) k (e : CacheEntry Confidence) :
  (oldestStep Confidence acc (k, e) = acc /\ snd acc <= timestamp e) \/
  (oldestStep Confidence acc (k, e) = (k, timestamp e) /\ timestamp e < snd acc).
Proof.
  unfold oldestStep. cbn [fst snd].
  destruct (timestamp e <? snd acc) eqn:E; [right|left]; split; auto.
  - apply Z.ltb_lt, E.
  - apply Z.ltb_ge, E.
Qed.

Lemma oldest_fold cache (acc : string * Z) :
  let r := fold_left (oldestStep Confidence) cache acc in
  (r = acc \/ exists e, In (fst r, e) cache /\ timestamp e = snd r /\ snd r < snd acc) /\
  (forall kv, In kv cache -> snd r <= timestamp (snd kv)).
Proof.
  revert acc. induction cache as [|[k e] cache IH]; intros acc; cbn [fold_left].
  - split; [auto|]. intros kv [].
  - destruct (IH (oldestStep Confidence acc (k, e))) as (H1 & H3).
    set (acc' := oldestStep Confidence acc (k, e)) in *.
    set (r := fold_left (oldestStep Confidence) cache acc') in *. cbn zeta.
    assert (Hmono : snd r <= snd acc').
    { destruct H1 as [->|(e' & _ & _ & Hlt)]; lia. }
    destruct (oldestStep_cases acc k e) as [[Heq Hle]|[Heq Hlt]]; fold acc' in Heq.
    + split.
      * destruct H1 as [H1|(e' & Hin & Ht & Hlt)]; [left; congruence|].
        right. exists e'. rewrite Heq in Hlt. split_and!; auto. right. exact Hin.
      * intros kv [<-|Hin]; cbn [snd]; [|auto]. rewrite Heq in Hmono. lia.
    + split.
      * right. destruct H1 as [H1|(e' & Hin & Ht & Hlt')].
        -- exists e. rewrite H1, Heq. cbn [fst snd]. split_and!; auto. left. reflexivity.
        -- exists e'. rewrite Heq in Hlt'. cbn [snd] in Hlt'.
           split_and!; auto; [right; exact Hin|lia].
      * intros kv [<-|Hin]; cbn [snd]; [|auto]. rewrite Heq in Hmono. exact Hmono.
Qed.

(** The bound of [MAX_CACHE_SIZE] entries is kept by an insertion
    whenever the clock has moved past the timestamp of some entry (and
    no entry is stored under the empty key). *)
Lemma addToCache_keeps_the_bound_when_an_entry_is_older now k txt conf cache :
  JsMap.wf cache ->
  (forall k' e, In (k', e) cache -> k' <> EmptyString) ->
  (JsMap.size cache <= MAX_CACHE_SIZE)%nat ->
  (exists k' e, In (k', e) cache /\ timestamp e < now) ->
  (JsMap.size (addToCache now k txt conf cache) <= MAX_CACHE_SIZE)%nat.
Proof.
  intros Hwf Hkeys Hsize (k' & e' & Hin' & Hold). unfold addToCache.
  rewrite JsMap_size_set.
  destruct (Nat.leb MAX_CACHE_SIZE (JsMap.size cache)) eqn:Hfull.
  - apply Nat.leb_le in Hfull.
    unfold evictOldestCacheEntry.
    pose proof (oldest_fold cache (EmptyString, now)) as (H1 & H3).
    destruct (fold_left _ _ _) as [oldestKey oldestTime]. cbn [fst snd] in *.
    destruct H1 as [[= -> ->]|(e & Hin & Ht & Hlt)].
    + specialize (H3 _ Hin'). cbn in H3. lia.
    + assert (Hne : oldestKey <> EmptyString) by (eapply Hkeys, Hin).
      apply String.eqb_neq in Hne. rewrite Hne.
      pose proof (JsMap_size_delete oldestKey e cache Hwf (JsMap_In_get _ _ _ Hwf Hin)).
      case_match; lia.
  - apply Nat.leb_gt in Hfull. case_match; lia.
Qed.

(** When no entry is older than the clock reading, nothing is evicted. *)
Lemma evictOldestCacheEntry_without_older_entry now cache :
  (forall kv, In kv cache -> now <= timestamp (snd kv)) ->
  evictOldestCacheEntry now cache = cache.
Proof.
  intros Hall. unfold evictOldestCacheEntry.
  pose proof (oldest_fold cache (EmptyString, now)) as (H1 & _).
  destruct (fold_left _ _ _) as [oldestKey oldestTime]. cbn [fst snd] in *.
  destruct H1 as [[= -> ->]|(e & Hin & Ht & Hlt)]; [reflexivity|].
  specialize (Hall _ Hin). cbn in Hall. lia.
Qed.

Lemma addToCache_grows_without_older_entry now k txt conf cache :
  (forall kv, In kv cache -> now <= timestamp (snd kv)) ->
  JsMap.get k cache = None ->
  JsMap.size (addToCache now k txt conf cache) = S (JsMap.size cache).
Proof.
  intros Hall Hfresh. unfold addToCache.
  rewrite (evictOldestCacheEntry_without_older_entry now cache Hall).
  rewrite JsMap_size_set. destruct (Nat.leb _ _); rewrite Hfresh; reflexivity.
Qed.

End TranslationCacheFacts.

Lemma lookup_witness :
  let cache := TranslationCache.addToCache 1000 "translation_en_hi_1" "namaste" 1 [] in
  fst (TranslationCache.getFromCache 86401000 "translation_en_hi_1" cache) = None /\
  TranslationCache.getFromCache 3000 "translation_en_hi_1" cache = (Some "namaste", cache).
Proof.
  intros cache.
  assert (Hwf : JsMap.wf cache) by (apply (bool_decide_unpack _); vm_compute; reflexivity).
  assert (Hget : JsMap.get "translation_en_hi_1" cache =
                 Some {| TranslationCache.text := "namaste"; TranslationCache.timestamp := 1000;
                         TranslationCache.confidence := 1 |}) by reflexivity.
  split.
  - apply (proj1 (proj2 (proj2
      (lookup_returns_the_text_until_the_entry_expires 86401000 _ cache _ Hwf Hget)))).
    vm_compute. discriminate.
  - apply (proj1 (proj2
      (lookup_returns_the_text_until_the_entry_expires 3000 _ cache _ Hwf Hget))).
    vm_compute. reflexivity.
Defined.

(** C8, counterexample.  An entry added to the cache of the memory manager
    at time 0 is returned by [getCacheItem] whenever it is asked for, two
    hours later as well, although [CACHE_EXPIRY] is one hour: the lookup
    reads no clock, removes nothing and the cache size stays 7.  Only the
    expiry pass of a cleanup removes the entry. *)
Lemma getCacheItem_returns_an_expired_entry :
  let cacheItems :=
    MemoryManager.addCacheItem MemoryManager.android 0 "k" (MemoryManager.JsString "payload") 2 [] in
  let item := {| MemoryManager.key := "k"; MemoryManager.size := 7;
                 MemoryManager.timestamp := 0; MemoryManager.priority := 2 |} in
  MemoryManager.CACHE_EXPIRY < 7200000 - MemoryManager.timestamp item /\
  MemoryManager.isExpired 7200000 item = true /\
  MemoryManager.getCacheItem "k" cacheItems = Some item /\
  MemoryManager.getCacheSize cacheItems = 7 /\
  MemoryManager.removeExpiredCacheItems 7200000 cacheItems = [].
Proof. vm_compute. split_and!; reflexivity. Qed.

Lemma filledCache_spec ts n :
  JsMap.wf (TranslationCache.filledCache ts n) /\
  JsMap.size (TranslationCache.filledCache ts n) = n /\
  (forall kv, In kv (TranslationCache.filledCache ts n) ->
              TranslationCache.timestamp (snd kv) = ts) /\
  JsMap.get "translation_hi_en_42" (TranslationCache.filledCache ts n) = None.
Proof.
  unfold TranslationCache.filledCache, JsMap.wf, JsMap.keys, JsMap.size. split_and!.
  - rewrite map_map. cbn [fst].
    apply (NoDup_fmap_2 (fun i : nat => String.append "translation_en_hi_" (pretty i))).
    apply NoDup_seq.
  - rewrite length_map, length_seq. reflexivity.
  - intros kv (i & <- & _)%in_map_iff. reflexivity.
  - induction (seq 0 n) as [|i l IH]; [reflexivity|]. cbn. exact IH.
Qed.

(** C10, at the failing input.  The cache holds 500 entries stamped 2000
    and the clock reads 1000 at the next insertion (it was set back):
    [evictOldestCacheEntry] starts from [oldestTime = Date.now()], finds
    no older entry and deletes nothing, and the cache holds 501 entries.
    The same happens when the 500 entries carry the timestamp of the
    insertion itself. *)
Theorem insertion_can_exceed_the_maximum_size :
  JsMap.wf (TranslationCache.filledCache 2000 500) /\
  JsMap.size (TranslationCache.filledCache 2000 500) = TranslationCache.MAX_CACHE_SIZE /\
  JsMap.size
    (TranslationCache.addToCache 1000 "translation_hi_en_42" "namaste" 1
       (TranslationCache.filledCache 2000 500)) = 501%nat /\
  JsMap.size
    (TranslationCache.addToCache 2000 "translation_hi_en_42" "namaste" 1
       (TranslationCache.filledCache 2000 500)) = 501%nat /\
  TranslationCache.evictOldestCacheEntry 1000 (TranslationCache.filledCache 2000 500) =
    TranslationCache.filledCache 2000 500.
Proof.
  destruct (filledCache_spec 2000 500) as (Hwf & Hsize & Hts & Hfresh).
  split_and!.
  - exact Hwf.
  - exact Hsize.
  - rewrite addToCache_grows_without_older_entry, ?Hsize; auto.
    intros kv Hin. rewrite (Hts kv Hin). lia.
  - rewrite addToCache_grows_without_older_entry, ?Hsize; auto.
    intros kv Hin. rewrite (Hts kv Hin). lia.
  - apply evictOldestCacheEntry_without_older_entry.
    intros kv Hin. rewrite (Hts kv Hin). lia.
Qed.

(** * Further properties of the model manager *)

(** ** Every write to the status map goes through [setModelStatus] *)

Section StatusWrites.

Variable config : ModelId -> ModelConfig.
Variable P : State -> Prop.

Hypothesis P_fields : forall st st', modelStatus st' = modelStatus st -> P st -> P st'.
Hypothesis P_set : forall m s st, P st -> P (setModelStatus (modelKey m) s st).

Ltac frame_status := intros; eapply P_fields; [|eassumption]; reflexivity.

Lemma writes_loadModel m k st : P st -> P (snd (loadModel config m k st)).
Proof.
  intros HP. unfold loadModel, waitForModelLoad, checkStatus.
  repeat case_match; cbn [snd]; auto.
  - revert HP. frame_status.
  - revert HP. frame_status.
  - assert (Hset : P (setModelStatus (modelKey m)
                      {| isLoaded := false; isLoading := true; lastUsed := now st;
                         memoryUsage := 0; error := None |} st)) by auto.
    revert Hset. frame_status.
Qed.

Lemma writes_runClosure op st : P st -> P (runClosure config op st).
Proof.
  intros HP. unfold runClosure.
  pose proof (writes_loadModel (opModel op) (QueueTask (opId op)) st HP) as Hl.
  destruct (loadModel _ _ _ _) as [[e|] st1]; cbn [snd] in *; revert Hl; frame_status.
Qed.

Lemma writes_loopTurn st : P st -> P (loopTurn config st).
Proof.
  intros HP. unfold loopTurn. destruct (requestQueue st) as [|op rest].
  - revert HP. frame_status.
  - apply writes_runClosure. revert HP. frame_status.
Qed.

Lemma writes_unload st : P st -> P (unloadGemmaModel st) /\ P (unloadTTSModel st).
Proof.
  intros HP. unfold unloadGemmaModel, unloadTTSModel. split; case_match; auto.
  - apply (P_set Gemma). revert HP. frame_status.
  - apply (P_set TTS). revert HP. frame_status.
Qed.

Lemma writes_cancelUnloadTimer st : P st -> P (cancelUnloadTimer st).
Proof. unfold cancelUnloadTimer. case_match; [frame_status|auto]. Qed.

Lemma writes_finishLoad m st : P st -> P (finishLoad config m st).
Proof.
  intros HP.
  apply (P_fields (setModelStatus (modelKey m)
           {| isLoaded := true; isLoading := false; lastUsed := now st;
              memoryUsage := memoryLimit (config m); error := None |} st)); [|apply P_set, HP].
  rewrite finishLoad_modelStatus. reflexivity.
Qed.

Lemma writes_step st e st' : step config st e = Some st' -> P st -> P st'.
Proof.
  destruct e as [m|m|id ok| |h|t|s]; cbn; intros Hstep HP.
  - injection Hstep as <-. unfold executeWith, processQueue.
    case_match.
    + revert HP. frame_status.
    + apply writes_loopTurn. revert HP. frame_status.
  - injection Hstep as <-. unfold callLoad.
    pose proof (writes_loadModel m (Direct (nextCall st))
                  (with_nextCall (S (nextCall st)) st)) as Hl.
    destruct (loadModel _ _ _ _) as [[err|] st1]; cbn [snd] in Hl.
    + assert (H1 : P st1) by (apply Hl; revert HP; frame_status).
      revert H1. frame_status.
    + apply Hl. revert HP. frame_status.
  - case_match; [|discriminate]. injection Hstep as <-. revert HP. frame_status.
  - destruct (microtasks st) as [|c rest]; [discriminate|]. injection Hstep as <-.
    destruct c as [id [e|]|]; cbn [runMicrotask closureResumes].
    + revert HP. frame_status.
    + revert HP. frame_status.
    + apply writes_loopTurn. revert HP. frame_status.
  - destruct (noMicrotask st); [|discriminate].
    destruct (findTimer h st) as [t|]; [|discriminate].
    case_match; [|discriminate]. injection Hstep as <-.
    assert (Hcl : P (clearTimeout h st)) by (revert HP; frame_status).
    destruct (callback t) as [m k|m k|key]; cbn [runCallback].
    + eapply P_fields; [apply resumeCaller_modelStatus|]. apply writes_finishLoad, Hcl.
    + unfold checkStatus. repeat case_match; simplify_eq;
        try (eapply P_fields; [apply resumeCaller_modelStatus|]);
        revert Hcl; frame_status.
    + unfold unloadCallback. destruct (writes_unload _ Hcl). repeat case_match; auto.
  - case_match; [|discriminate]. injection Hstep as <-. revert HP. frame_status.
  - destruct (noMicrotask st); [|discriminate].
    injection Hstep as <-. destruct s; cbn; auto.
    + apply writes_cancelUnloadTimer. revert HP. frame_status.
    + unfold unloadModelsOnBackground.
      assert (Hb : P (with_isBackgrounded true st)) by (revert HP; frame_status).
      apply writes_unload, writes_unload, Hb.
    + unfold unloadModelsOnBackground.
      assert (Hb : P (with_isBackgrounded true st)) by (revert HP; frame_status).
      apply writes_unload, writes_unload, Hb.
Qed.

Lemma writes_run es st st' : run config st es = Some st' -> P st -> P st'.
Proof. apply (run_invariant config P). apply writes_step. Qed.

End StatusWrites.

Lemma recordedUsage_setModelStatus_ne key key' s st :
  key <> key' -> recordedUsage key' (setModelStatus key s st) = recordedUsage key' st.
Proof. intros Hne. unfold recordedUsage. cbn. rewrite lookup_insert_ne by exact Hne. reflexivity. Qed.

(** The ledger: the usage summed over the status map is the usage
    recorded under the two keys of the models. *)
Lemma ledger config es st :
  run config initial es = Some st ->
  getCurrentMemoryUsage st = recordedUsage (modelKey Gemma) st + recordedUsage (modelKey TTS) st.
Proof.
  intros Hrun.
  apply (writes_run config
           (fun st => getCurrentMemoryUsage st =
                      recordedUsage (modelKey Gemma) st + recordedUsage (modelKey TTS) st)
           ) with (es := es) (st := initial).
  - intros st1 st2 Heq. unfold getCurrentMemoryUsage, recordedUsage. rewrite Heq. auto.
  - intros m s st1 Hst. rewrite getCurrentMemoryUsage_setModelStatus, Hst.
    destruct m; cbn [modelKey];
      rewrite recordedUsage_setModelStatus, recordedUsage_setModelStatus_ne by discriminate; lia.
  - exact Hrun.
  - reflexivity.
Qed.

(** X1.  What the status map records as used is the sum of the footprints of
    the models whose status says "loaded", in every state the event loop
    can reach and for every configuration. *)
Theorem recorded_usage_is_the_sum_of_the_loaded_footprints config es st :
  run config initial es = Some st ->
  getCurrentMemoryUsage st =
    (if isModelLoaded Gemma st then memoryLimit (config Gemma) else 0) +
    (if isModelLoaded TTS st then memoryLimit (config TTS) else 0).
Proof.
  intros Hrun. rewrite (ledger config es st Hrun).
  rewrite !(reachable_recorded_usage config es st _ Hrun). reflexivity.
Qed.

(** X2.  With the footprints that are shipped (256 and 150 of a budget of
    512) the recorded usage never exceeds 406 and no call of
    [loadGemmaModel] or [loadTTSModel] is ever refused for lack of memory,
    whatever the calls, timers and signals before it. *)
Theorem shipped_models_are_never_refused es st m k :
  run CONFIG initial es = Some st ->
  0 <= getCurrentMemoryUsage st <= 406 /\
  (fst (loadModel CONFIG m k st) = Returned None \/
   fst (loadModel CONFIG m k st) = Awaiting).
Proof.
  intros Hrun.
  pose proof (recorded_usage_is_the_sum_of_the_loaded_footprints_aux := ledger CONFIG es st Hrun).
  pose proof (reachable_recorded_usage CONFIG es st Gemma Hrun) as Hg.
  pose proof (reachable_recorded_usage CONFIG es st TTS Hrun) as Ht.
  rename recorded_usage_is_the_sum_of_the_loaded_footprints_aux into Hsum.
  rewrite Hg, Ht in Hsum. cbn [CONFIG GEMMA_CONFIG TTS_CONFIG memoryLimit] in *.
  split.
  - rewrite Hsum. repeat case_match; lia.
  - unfold loadModel, waitForModelLoad, checkStatus.
    destruct (statusFlag isLoaded (modelKey m) st) eqn:Hl; [left; reflexivity|].
    destruct (statusFlag isLoading (modelKey m) st) eqn:Hg'.
    { repeat case_match; cbn; auto. }
    assert (Hfit : checkMemoryAvailability (memoryLimit (CONFIG m))
                     (setModelStatus (modelKey m)
                        {| isLoaded := false; isLoading := true; lastUsed := now st;
                           memoryUsage := 0; error := None |} st) = true).
    { unfold checkMemoryAvailability. rewrite getCurrentMemoryUsage_setModelStatus.
      apply Z.leb_le. cbn [memoryUsage]. rewrite Hsum.
      destruct m; cbn [modelKey] in *.
      - rewrite Hg, Hl. cbn. destruct (statusFlag isLoaded "tts" st); lia.
      - rewrite Ht, Hl. cbn. destruct (statusFlag isLoaded "gemma" st); lia. }
    rewrite Hfit. right. reflexivity.
Qed.


Section QueueFacts.

Variable config : ModelId -> ModelConfig.

(** X3.  The queue never sits idle on work.  While [isProcessingQueue] is
    false no task is queued or open and no continuation of the manager
    waits.  While it is true, either exactly one task is between "popped"
    and "settled", or the round of the last task is complete and the
    continuation of [processQueue] waits in the microtask queue, where it
    will pop the next task or clear the flag.  So a queued task always has
    the loop ahead of it. *)
Theorem queue_is_never_idle_while_tasks_wait es st :
  run config initial es = Some st ->
  (isProcessingQueue st = false ->
     requestQueue st = [] /\ openTasks st = [] /\ microtasks st = []) /\
  (isProcessingQueue st = true ->
     (length (openTasks st) = 1%nat /\ ~ In LoopResumes (microtasks st)) \/
     (openTasks st = [] /\ microtasks st = [LoopResumes])) /\
  (requestQueue st <> [] -> isProcessingQueue st = true).
Proof.
  intros Hrun. destruct (reachable_invariants config es st Hrun) as (_ & _ & _ & Hq).
  destruct Hq as (n & p & [Q1 Q2 Q3 Q4 Q5 Q6 Q7 Q8]).
  unfold openTasks, resumingTasks. rewrite Q4, Q6, Q7, Q8.
  destruct p as [| |i|i err|i]; cbn.
  - rewrite (Q5 eq_refl). split_and!; [auto|discriminate|congruence].
  - split_and!; [discriminate|auto|auto].
  - split_and!; [discriminate| |auto]. intros _. left. split; [reflexivity|tauto].
  - split_and!; [discriminate| |auto]. intros _. left. split; [reflexivity|].
    intros [H|[]]; discriminate.
  - split_and!; [discriminate| |auto]. intros _. left. split; [reflexivity|tauto].
Qed.

Lemma serial_settledTasks l r :
  serial l = Some r -> settledTasks l = rev (seq 0 (countSettled l)).
Proof.
  revert r. induction l as [|e l IH]; intros r; [reflexivity|].
  cbn [serial]. destruct (serial l) as [[[s n] cur]|] eqn:Hs; [|discriminate].
  specialize (IH _ eq_refl).
  destruct e; cbn [settledTasks countSettled]; intros Hr; try exact IH.
  destruct cur as [[j b]|]; [|discriminate].
  destruct (Nat.eqb id j) eqn:E; [|discriminate]. apply Nat.eqb_eq in E. subst j.
  destruct (serial_facts l s n (Some (id, b)) Hs) as (_ & _ & _ & [_ Hc] & _).
  rewrite IH, Hc, seq_S, rev_app_distr. reflexivity.
Qed.

(** X4.  The promises of the tasks settle in the order of the submissions
    and each of them once: the tasks settled so far are 0, 1, .., in this
    order, whether they resolved or rejected. *)
Theorem tasks_settle_once_and_in_submission_order es st :
  run config initial es = Some st ->
  rev (settledTasks (log st)) = seq 0 (countSettled (log st)) /\
  NoDup (settledTasks (log st)) /\
  (countSettled (log st) <= nextTask st)%nat.
Proof.
  intros Hrun. destruct (reachable_invariants config es st Hrun) as (_ & _ & _ & Hq).
  destruct Hq as (n & p & [Hs _ _ _ _ _ _ _]).
  pose proof (serial_settledTasks _ _ Hs) as Hst.
  destruct (serial_facts _ _ _ _ Hs) as (_ & Hp & Hle & Hc & _).
  split_and!.
  - rewrite Hst, rev_involutive. reflexivity.
  - rewrite Hst, <- Permutation_rev. apply NoDup_seq.
  - destruct (phaseRound p) as [[i b]|]; lia.
Qed.

(** *** The log only grows *)

Lemma log_loadModel m k st :
  exists newer, log (snd (loadModel config m k st)) = newer ++ log st.
Proof.
  unfold loadModel, waitForModelLoad, checkStatus.
  repeat case_match; cbn;
    first [exists []; reflexivity | eexists [_]; reflexivity | eexists [_; _]; reflexivity].
Qed.

Lemma log_runClosure op st :
  exists newer, log (runClosure config op st) = newer ++ log st.
Proof.
  unfold runClosure.
  destruct (log_loadModel (opModel op) (QueueTask (opId op)) st) as [newer Hl].
  destruct (loadModel _ _ _ _) as [[e|] st1]; cbn [snd] in *; cbn; rewrite Hl.
  - exists (LoadSettled (QueueTask (opId op)) (opModel op) e :: newer). reflexivity.
  - exists newer. reflexivity.
Qed.

(** While the continuation of [processQueue] waits, the calls that come
    first leave it waiting and open no round. *)
Lemma loopPending_run n calls st st' :
  run config st calls = Some st' ->
  Forall (fun e => e <> Microtask) calls ->
  timerInv st -> queueAt n LoopPending st ->
  timerInv st' /\ queueAt n LoopPending st'.
Proof.
  revert st. induction calls as [|e calls IH]; cbn; intros st Hrun Hev Hti Hq.
  - injection Hrun as <-. auto.
  - destruct (step config st e) as [st1|] eqn:He; [|discriminate].
    apply Forall_cons in Hev as [Hne Hev].
    apply (IH st1 Hrun Hev); [eapply timerInv_step; eauto|].
    destruct e as [m|m|id ok| |h|t|s]; cbn in He.
    + injection He as <-. exact (queueAt_executeWith config m n LoopPending st Hq).
    + injection He as <-. revert Hq. apply queueAt_same, queueSame_callLoad.
    + destruct (existsb _ _) eqn:Hex; [|discriminate].
      destruct (queueAt_operationDone id ok n LoopPending st Hex Hq) as [Hp _]. discriminate.
    + congruence.
    + unfold noMicrotask in He. rewrite (qa_micro _ _ _ Hq) in He. discriminate.
    + destruct (now st <=? t); [|discriminate]. injection He as <-.
      revert Hq. apply queueAt_same. split; reflexivity.
    + unfold noMicrotask in He. rewrite (qa_micro _ _ _ Hq) in He. discriminate.
Qed.

(** X5.  When the operation of a task settles, with a result or with an
    error, the promise of the task settles and the continuation of
    [processQueue] joins the microtask queue.  Whatever is called before
    it runs (submissions, loads, clock readings), it is still the next
    microtask and no other task has been popped; when it runs, it pops the
    head of the queue, which is the task submitted right after the one
    that settled, or, with an empty queue, ends the loop and clears
    [isProcessingQueue]. *)
Theorem next_task_is_popped_when_an_operation_settles es st id ok st' calls st1 :
  run config initial es = Some st ->
  step config st (OperationDone id ok) = Some st' ->
  run config st' calls = Some st1 ->
  Forall (fun e => e <> Microtask) calls ->
  log st' = Settled id ok :: log st /\
  microtasks st1 = [LoopResumes] /\
  countPopped (log st1) = S id /\ countSettled (log st1) = S id /\
  exists st2,
    step config st1 Microtask = Some st2 /\
    match requestQueue st1 with
    | [] => isProcessingQueue st2 = false /\ log st2 = log st1
    | op :: _ => opId op = S id /\ exists newer, log st2 = newer ++ Popped (S id) :: log st1
    end.
Proof.
  intros Hrun Hstep Hcalls Hev.
  destruct (reachable_invariants config es st Hrun) as (Hti & _ & _ & (n & p & Hq)).
  pose proof (timerInv_step config _ _ _ Hstep Hti) as Hti'.
  cbn in Hstep.
  destruct (existsb (Nat.eqb id) (pendingOps st)) eqn:Hp; [|discriminate].
  injection Hstep as <-.
  destruct (queueAt_operationDone id ok n p st Hp Hq) as [-> Hq'].
  assert (Hn : n = S id).
  { destruct (serial_facts _ _ _ _ (qa_serial _ _ _ Hq)) as (_ & _ & _ & [Hn _] & _). exact Hn. }
  subst n.
  destruct (loopPending_run (S id) calls _ st1 Hcalls Hev Hti' Hq') as [Hti1 Hq1].
  pose proof (qa_micro _ _ _ Hq1) as Hm. cbn in Hm.
  destruct (serial_facts _ _ _ _ (qa_serial _ _ _ Hq1)) as (_ & Hpop & _ & Hset & _).
  cbn in Hset.
  split; [reflexivity|]. split; [exact Hm|]. split; [exact Hpop|]. split; [congruence|].
  cbn [step]. rewrite Hm. eexists. split; [reflexivity|].
  destruct (queueAt_microtask config LoopResumes [] (S id) LoopPending st1 Hm Hq1)
    as [_ [(_ & _ & Hturn)|(i & err & Hx & _)]]; [|discriminate].
  cbn [runMicrotask] in *. unfold loopTurn in *. cbn [requestQueue with_microtasks] in *.
  destruct (requestQueue st1) as [|op rest].
  - split; reflexivity.
  - destruct Hturn as [Hid _]. split; [exact Hid|].
    match goal with |- context [runClosure config op ?s] =>
      destruct (log_runClosure op s) as [newer Hr]
    end.
    rewrite Hr. cbn. rewrite Hid. exists newer. reflexivity.
Qed.

End QueueFacts.

(** X6.  [cleanup()] cancels the pending idle timer and nothing else that the
    manager holds: the statuses, the queued tasks, the running operation
    and the timers of loads in flight stay as they are. *)
Theorem cleanup_cancels_the_unload_timer_only config es st :
  run config initial es = Some st ->
  unloadTimers (cleanup st) = [] /\ unloadTimer (cleanup st) = None /\
  modelStatus (cleanup st) = modelStatus st /\
  requestQueue (cleanup st) = requestQueue st /\
  pendingOps (cleanup st) = pendingOps st /\
  (forall t, isUnload (callback t) = false -> (In t (timers (cleanup st)) <-> In t (timers st))).
Proof.
  intros Hrun. destruct (reachable_invariants config es st Hrun) as (Hti & Hnm & _ & _).
  unfold cleanup.
  assert (Hnm' : noModel (cancelUnloadTimer st)).
  { destruct (cancelUnloadTimer_frame st) as (_ & _ & _ & _ & Hg & Ht & _).
    destruct Hnm as [H1 H2]. split; congruence. }
  destruct (noModel_unload _ Hnm') as [Hg Ht]. rewrite Hg, Ht.
  destruct (cancelUnloadTimer_unloadTimers st Hti) as [H1 H2].
  destruct (cancelUnloadTimer_frame st) as (_ & _ & Hms & _ & _ & _ & Hq & _ & _ & Hp & _).
  split_and!; auto.
  intros t Ht'. apply cancelUnloadTimer_other; assumption.
Qed.

Section Frozen.

Variable config : ModelId -> ModelConfig.
Variable m : ModelId.
Variable s : ModelStatus.
Hypothesis s_loaded : isLoaded s = true.

Lemma frozen_fields st st' : modelStatus st' = modelStatus st -> statusIs m s st -> statusIs m s st'.
Proof. unfold statusIs. intros ->. auto. Qed.

Ltac frame_frozen := intros; eapply frozen_fields; [|eassumption]; reflexivity.

Lemma frozen_loadModel m' k st : statusIs m s st -> statusIs m s (snd (loadModel config m' k st)).
Proof.
  intros Hf. destruct (decide (m' = m)) as [->|Hne].
  - unfold loadModel, statusFlag. rewrite Hf, s_loaded. exact Hf.
  - unfold statusIs in *. unfold loadModel, waitForModelLoad, checkStatus.
    repeat case_match; cbn [snd]; try exact Hf;
      try (cbn; exact Hf); cbn;
      rewrite ?lookup_insert_ne by (intros Heq; apply modelKey_inj in Heq; congruence);
      exact Hf.
Qed.

Lemma frozen_runClosure op st : statusIs m s st -> statusIs m s (runClosure config op st).
Proof.
  intros Hf. unfold runClosure.
  pose proof (frozen_loadModel (opModel op) (QueueTask (opId op)) st Hf) as Hl.
  destruct (loadModel _ _ _ _) as [[e|] st1]; cbn [snd] in *; revert Hl; frame_frozen.
Qed.

Lemma frozen_loopTurn st : statusIs m s st -> statusIs m s (loopTurn config st).
Proof.
  intros Hf. unfold loopTurn. destruct (requestQueue st) as [|op rest].
  - revert Hf. frame_frozen.
  - apply frozen_runClosure. revert Hf. frame_frozen.
Qed.

Lemma frozen_step st e st' :
  step config st e = Some st' -> timerInv st -> noModel st -> lifeInv config st ->
  statusIs m s st -> statusIs m s st'.
Proof.
  destruct e as [m0|m0|id ok| |h|t|a]; cbn; intros Hstep Hti Hnm Hlife Hf.
  - injection Hstep as <-. unfold executeWith, processQueue.
    case_match.
    + revert Hf. frame_frozen.
    + apply frozen_loopTurn. revert Hf. frame_frozen.
  - injection Hstep as <-. unfold callLoad.
    pose proof (frozen_loadModel m0 (Direct (nextCall st))
                  (with_nextCall (S (nextCall st)) st)) as Hl.
    destruct (loadModel _ _ _ _) as [[err|] st1]; cbn [snd] in Hl.
    + assert (Hf1 : statusIs m s st1) by (apply Hl; revert Hf; frame_frozen).
      revert Hf1. frame_frozen.
    + apply Hl. revert Hf. frame_frozen.
  - case_match; [|discriminate]. injection Hstep as <-. revert Hf. frame_frozen.
  - destruct (microtasks st) as [|c rest]; [discriminate|]. injection Hstep as <-.
    destruct c as [id [e|]|]; cbn [runMicrotask closureResumes].
    + revert Hf. frame_frozen.
    + revert Hf. frame_frozen.
    + apply frozen_loopTurn. revert Hf. frame_frozen.
  - destruct (noMicrotask st); [|discriminate].
    destruct (findTimer h st) as [t|] eqn:Hfind; [|discriminate].
    case_match; [|discriminate]. injection Hstep as <-.
    assert (Hcl : statusIs m s (clearTimeout h st)) by (revert Hf; frame_frozen).
    destruct (callback t) as [m0 k|m0 k|key] eqn:Hcb; cbn [runCallback].
    + eapply frozen_fields; [apply resumeCaller_modelStatus|].
      unfold statusIs. rewrite finishLoad_modelStatus.
      destruct (decide (m0 = m)) as [->|Hne].
      * exfalso. destruct Hlife as [_ Hload]. specialize (Hload m).
        destruct (findTimer_In _ _ _ Hfind) as [Hin _].
        assert (Hl : statusFlag isLoading (modelKey m) st = true).
        { apply (li_loading _ _ _ Hload). exists t. split; [exact Hin|]. exists k. exact Hcb. }
        unfold statusFlag in Hl. rewrite Hf in Hl.
        destruct (li_exclusive _ _ _ Hload s Hf s_loaded) as [Hx _]. congruence.
      * rewrite lookup_insert_ne by (intros Heq; apply modelKey_inj in Heq; congruence).
        exact Hcl.
    + unfold checkStatus. repeat case_match; simplify_eq;
        try (eapply frozen_fields; [apply resumeCaller_modelStatus|]);
        revert Hcl; frame_frozen.
    + assert (Hn : noModel (clearTimeout h st)) by exact Hnm.
      unfold unloadCallback. destruct (noModel_unload _ Hn) as [-> ->].
      repeat case_match; exact Hcl.
  - case_match; [|discriminate]. injection Hstep as <-. revert Hf. frame_frozen.
  - destruct (noMicrotask st); [|discriminate].
    injection Hstep as <-. destruct a; cbn; auto.
    + destruct (cancelUnloadTimer_frame (with_isBackgrounded false st)) as (_ & _ & Hms & _).
      unfold statusIs. rewrite Hms. exact Hf.
    + assert (Hb : noModel (with_isBackgrounded true st)) by exact Hnm.
      unfold unloadModelsOnBackground. destruct (noModel_unload _ Hb) as [-> ->]. exact Hf.
    + assert (Hb : noModel (with_isBackgrounded true st)) by exact Hnm.
      unfold unloadModelsOnBackground. destruct (noModel_unload _ Hb) as [-> ->]. exact Hf.
Qed.

Lemma frozen_run es st st' :
  run config st es = Some st' ->
  timerInv st -> noModel st -> lifeInv config st -> queueInv st ->
  statusIs m s st -> statusIs m s st'.
Proof.
  revert st. induction es as [|e es IH]; cbn; intros st Hrun Hti Hnm Hlife Hq Hf.
  - injection Hrun as <-. exact Hf.
  - destruct (step config st e) as [st1|] eqn:He; [|discriminate].
    apply (IH st1 Hrun);
      eauto using timerInv_step, noModel_step, lifeInv_step, queueInv_step, frozen_step.
Qed.

End Frozen.

(** X7.  Once the status of a model says "loaded", the entry is never written
    again, whatever happens afterwards: the model stays loaded, its
    footprint stays recorded, no error appears and [lastUsed] keeps the
    time at which the load completed (a later use of the model does not
    refresh it). *)
Theorem a_loaded_status_is_never_written_again config es st es' st' m s :
  run config initial es = Some st ->
  run config st es' = Some st' ->
  modelStatus st !! modelKey m = Some s -> isLoaded s = true ->
  modelStatus st' !! modelKey m = Some s /\ isModelLoaded m st' = true.
Proof.
  intros Hrun Hrun' Hs Hl.
  destruct (reachable_invariants config es st Hrun) as (Hti & Hnm & Hlife & Hq).
  pose proof (frozen_run config m s Hl es' st st' Hrun' Hti Hnm Hlife Hq Hs) as Hf.
  split; [exact Hf|]. unfold isModelLoaded, statusFlag. rewrite Hf. exact Hl.
Qed.

Lemma a_loaded_status_witness :
  exists st st',
    run CONFIG initial [LoadCall Gemma; ClockAdvance 2000; TimerFires 1] = Some st /\
    run CONFIG st [ClockAdvance 9000; ExecuteWith Gemma; Microtask; OperationDone 0 true;
                   Microtask; AppStateChange background; ClockAdvance 302000; TimerFires 2]
      = Some st' /\
    modelStatus st' !! modelKey Gemma =
      Some {| isLoaded := true; isLoading := false; lastUsed := 2000;
              memoryUsage := 256; error := None |}.
Proof.
  destruct (run CONFIG initial [LoadCall Gemma; ClockAdvance 2000; TimerFires 1])
    as [st|] eqn:Hrun; [|vm_compute in Hrun; discriminate].
  destruct (run CONFIG st [ClockAdvance 9000; ExecuteWith Gemma; Microtask; OperationDone 0 true;
                           Microtask; AppStateChange background; ClockAdvance 302000;
                           TimerFires 2])
    as [st'|] eqn:Hrun'.
  - exists st, st'. split; [reflexivity|]. split; [exact Hrun'|].
    apply (a_loaded_status_is_never_written_again CONFIG _ st _ st' Gemma _ Hrun Hrun').
    + vm_compute in Hrun. injection Hrun as <-. reflexivity.
    + reflexivity.
  - exfalso. vm_compute in Hrun. injection Hrun as <-. vm_compute in Hrun'. discriminate.
Defined.


Lemma usage_ext st st' :
  modelStatus st' = modelStatus st -> getCurrentMemoryUsage st' = getCurrentMemoryUsage st.
Proof. unfold getCurrentMemoryUsage. intros ->. reflexivity. Qed.

Section Commit.

Variable config : ModelId -> ModelConfig.

Lemma loading_is_not_counted st m :
  lifeInv config st -> statusFlag isLoading (modelKey m) st = true ->
  recordedUsage (modelKey m) st = 0 /\ statusFlag isLoaded (modelKey m) st = false.
Proof.
  intros [_ Hload] Hl. specialize (Hload m). unfold statusFlag, recordedUsage in *.
  destruct (modelStatus st !! modelKey m) as [s|] eqn:Hs; [|discriminate].
  destruct (isLoaded s) eqn:E.
  - destruct (li_exclusive _ _ _ Hload s Hs E) as [Hx _]. congruence.
  - split; [|reflexivity]. apply (li_unloaded _ _ _ Hload s Hs E).
Qed.

Lemma idle_is_not_counted st m :
  lifeInv config st -> statusFlag isLoaded (modelKey m) st = false ->
  recordedUsage (modelKey m) st = 0.
Proof.
  intros [_ Hload] Hl. specialize (Hload m). unfold statusFlag, recordedUsage in *.
  destruct (modelStatus st !! modelKey m) as [s|] eqn:Hs; [|reflexivity].
  apply (li_unloaded _ _ _ Hload s Hs Hl).
Qed.

Lemma pending_load_is_loading st t m k :
  lifeInv config st -> In t (timers st) -> callback t = LoadResolved m k ->
  statusFlag isLoading (modelKey m) st = true.
Proof.
  intros [_ Hload] Hin Hcb. apply (li_loading _ _ _ (Hload m)).
  exists t. split; [exact Hin|]. exists k. exact Hcb.
Qed.

Lemma usage_finishLoad m st :
  getCurrentMemoryUsage (finishLoad config m st) =
  getCurrentMemoryUsage st - recordedUsage (modelKey m) st + memoryLimit (config m).
Proof.
  rewrite (usage_ext (setModelStatus (modelKey m)
                {| isLoaded := true; isLoading := false; lastUsed := now st;
                   memoryUsage := memoryLimit (config m); error := None |} st)
             (finishLoad config m st))
    by (rewrite finishLoad_modelStatus; reflexivity).
  rewrite getCurrentMemoryUsage_setModelStatus. reflexivity.
Qed.

Lemma usage_load_timer h t m k st :
  lifeInv config st -> findTimer h st = Some t -> callback t = LoadResolved m k ->
  getCurrentMemoryUsage (runCallback config (callback t) (clearTimeout h st)) =
  getCurrentMemoryUsage st + memoryLimit (config m).
Proof.
  intros Hlife Hfind Hcb. rewrite Hcb. cbn [runCallback].
  rewrite (usage_ext _ _ (resumeCaller_modelStatus k m _)), usage_finishLoad.
  destruct (findTimer_In _ _ _ Hfind) as [Hin _].
  pose proof (pending_load_is_loading st t m k Hlife Hin Hcb) as Hl.
  destruct (loading_is_not_counted st m Hlife Hl) as [Hr _].
  change (recordedUsage (modelKey m) (clearTimeout h st)) with (recordedUsage (modelKey m) st).
  change (getCurrentMemoryUsage (clearTimeout h st)) with (getCurrentMemoryUsage st).
  rewrite Hr. lia.
Qed.

(** X8.  The memory check counts what is loaded, not what is being loaded:
    a model whose load is in flight has no usage recorded, and when the
    timer of the load runs the footprint is added to the recorded usage
    without a second check. *)
Theorem a_load_in_flight_is_not_counted es st :
  run config initial es = Some st ->
  (forall m, statusFlag isLoading (modelKey m) st = true ->
     recordedUsage (modelKey m) st = 0 /\ isModelLoaded m st = false) /\
  (forall h t m k st',
     findTimer h st = Some t -> callback t = LoadResolved m k ->
     step config st (TimerFires h) = Some st' ->
     getCurrentMemoryUsage st' = getCurrentMemoryUsage st + memoryLimit (config m)).
Proof.
  intros Hrun. destruct (reachable_invariants config es st Hrun) as (_ & _ & Hlife & _).
  split.
  - intros m Hl. apply loading_is_not_counted; assumption.
  - intros h t m k st' Hfind Hcb Hstep. cbn in Hstep. rewrite Hfind in Hstep.
    destruct (noMicrotask st); [|discriminate].
    destruct (due t <=? now st); [|discriminate]. injection Hstep as <-.
    apply (usage_load_timer h t m k st Hlife Hfind Hcb).
Qed.

(** *** Runs that enter through the queue only *)

Lemma budgetInv_subset st st' :
  (forall t, In t (timers st') -> In t (timers st)) ->
  modelStatus st' = modelStatus st -> budgetInv config st -> budgetInv config st'.
Proof.
  intros Hsub Hms [H1 H2 H3]. split.
  - intros t Hin. apply H1, Hsub, Hin.
  - intros t m k Hin Hcb. rewrite (usage_ext _ _ Hms). apply (H2 t m k (Hsub t Hin) Hcb).
  - rewrite (usage_ext _ _ Hms). exact H3.
Qed.

Lemma budgetInv_fields st st' :
  timers st' = timers st -> modelStatus st' = modelStatus st ->
  budgetInv config st -> budgetInv config st'.
Proof. intros Ht Hms. apply budgetInv_subset; [rewrite Ht; auto|exact Hms]. Qed.

Ltac frame_budget := intros; eapply budgetInv_fields; [ | |eassumption]; reflexivity.

Lemma budgetInv_usage st st' :
  timers st' = timers st -> getCurrentMemoryUsage st' = getCurrentMemoryUsage st ->
  budgetInv config st -> budgetInv config st'.
Proof.
  intros Ht Hu [H1 H2 H3]. split.
  - rewrite Ht. exact H1.
  - rewrite Ht, Hu. exact H2.
  - rewrite Hu. exact H3.
Qed.

Lemma budgetInv_setTimeout cb delay st :
  (forall k, timerTask {| handle := nextHandle st; due := now st + delay; callback := cb |} = k ->
             isUnload cb = false -> k <> None) ->
  (forall m k, cb = LoadResolved m k ->
               getCurrentMemoryUsage st + memoryLimit (config m) <= 512) ->
  budgetInv config st -> budgetInv config (snd (setTimeout cb delay st)).
Proof.
  intros Hk Hfit [H1 H2 H3].
  assert (Hu : getCurrentMemoryUsage (snd (setTimeout cb delay st)) = getCurrentMemoryUsage st)
    by reflexivity.
  split; rewrite ?Hu; [| |exact H3]; cbn [setTimeout snd with_nextHandle with_timers timers].
  - intros t [Hin|[<-|[]]]%in_app_iff; [auto|]. cbn [callback]. intros E. apply (Hk _ eq_refl E).
  - intros t m k [Hin|[<-|[]]]%in_app_iff Hcb; [apply (H2 t m k Hin Hcb)|].
    cbn [callback] in Hcb. apply (Hfit m k Hcb).
Qed.

Lemma budgetInv_loadModel m i st :
  lifeInv config st -> budgetInv config st ->
  budgetInv config (snd (loadModel config m (QueueTask i) st)).
Proof.
  intros Hlife Hb. unfold loadModel, waitForModelLoad, checkStatus.
  destruct (statusFlag isLoaded (modelKey m) st) eqn:Hl; [exact Hb|].
  pose proof (idle_is_not_counted st m Hlife Hl) as Hr.
  assert (Hpoll : budgetInv config (snd (setTimeout (CheckStatus m (QueueTask i)) 100 st))).
  { apply budgetInv_setTimeout; [|discriminate|exact Hb]. intros k <- _. discriminate. }
  destruct (statusFlag isLoading (modelKey m) st) eqn:Hg.
  { repeat case_match; cbn [snd]; auto. }
  set (st1 := setModelStatus (modelKey m) _ st).
  assert (Hu1 : getCurrentMemoryUsage st1 = getCurrentMemoryUsage st).
  { unfold st1. rewrite getCurrentMemoryUsage_setModelStatus, Hr. cbn. lia. }
  assert (Hb1 : budgetInv config st1) by (revert Hb; apply budgetInv_usage; [reflexivity|exact Hu1]).
  destruct (checkMemoryAvailability (memoryLimit (config m)) st1) eqn:Hfit; cbn [negb snd].
  - unfold checkMemoryAvailability in Hfit. apply Z.leb_le in Hfit.
    apply budgetInv_setTimeout; [| |exact Hb1].
    + intros k <- _. discriminate.
    + intros m' k' [= <- _]. lia.
  - revert Hb1. apply budgetInv_usage; [reflexivity|].
    rewrite getCurrentMemoryUsage_setModelStatus.
    unfold st1 at 2. rewrite recordedUsage_setModelStatus. cbn. lia.
Qed.

Lemma budgetInv_runClosure op st :
  lifeInv config st -> budgetInv config st ->
  budgetInv config (runClosure config op st).
Proof.
  intros Hlife Hb. unfold runClosure.
  pose proof (budgetInv_loadModel (opModel op) (opId op) st Hlife Hb) as Hl.
  destruct (loadModel _ _ _ _) as [[e|] st1]; cbn [snd] in *; revert Hl; frame_budget.
Qed.

Lemma budgetInv_loopTurn st :
  lifeInv config st -> budgetInv config st -> budgetInv config (loopTurn config st).
Proof.
  intros Hlife Hb. unfold loopTurn. destruct (requestQueue st) as [|op rest].
  - revert Hb. frame_budget.
  - apply budgetInv_runClosure.
    + revert Hlife. apply lifeInv_fields; reflexivity.
    + revert Hb. frame_budget.
Qed.

Lemma omap_nil {A B} (f : A -> option B) (l : list A) x :
  omap f l = [] -> In x l -> f x = None.
Proof.
  induction l as [|y l IH]; cbn; [intros _ []|].
  destruct (f y) eqn:E; [discriminate|]. intros H [<-|Hin]; auto.
Qed.

Lemma sole_waiter st l1 t l2 :
  queueInv st -> timers st = l1 ++ t :: l2 -> timerTask t <> None ->
  forall t', In t' (l1 ++ l2) -> timerTask t' = None.
Proof.
  intros Hq Hs Htask.
  assert (Hlen : (length (waitingTasks st) <= 1)%nat).
  { destruct Hq as (n & p & Hq). rewrite (qa_waiting _ _ _ Hq). destruct p; cbn; lia. }
  rewrite (waitingTasks_split st l1 t l2 Hs) in Hlen.
  destruct (timerTask t) as [i|]; [|congruence].
  rewrite !length_app in Hlen. cbn in Hlen.
  assert (H1 : omap timerTask l1 = [])
    by (destruct (omap timerTask l1); [reflexivity|cbn in Hlen; lia]).
  assert (H2 : omap timerTask l2 = [])
    by (destruct (omap timerTask l2); [reflexivity|cbn in Hlen; lia]).
  intros t' [Hin|Hin]%in_app_iff; eauto using omap_nil.
Qed.

Lemma budgetInv_step st e st' :
  step config st e = Some st' -> (forall m, e <> LoadCall m) ->
  timerInv st -> noModel st -> lifeInv config st -> queueInv st ->
  budgetInv config st -> budgetInv config st'.
Proof.
  destruct e as [m|m|id ok| |h|t|a]; cbn; intros Hstep Hev Hti Hnm Hlife Hq Hb.
  - injection Hstep as <-. unfold executeWith, processQueue.
    case_match.
    + revert Hb. frame_budget.
    + apply budgetInv_loopTurn.
      * revert Hlife. apply lifeInv_fields; reflexivity.
      * revert Hb. frame_budget.
  - destruct (Hev m eq_refl).
  - case_match; [|discriminate]. injection Hstep as <-. revert Hb. frame_budget.
  - destruct (microtasks st) as [|c rest]; [discriminate|]. injection Hstep as <-.
    destruct c as [id [e|]|]; cbn [runMicrotask closureResumes].
    + revert Hb. frame_budget.
    + revert Hb. frame_budget.
    + apply budgetInv_loopTurn.
      * revert Hlife. apply lifeInv_fields; reflexivity.
      * revert Hb. frame_budget.
  - destruct (noMicrotask st); [|discriminate].
    destruct (findTimer h st) as [t|] eqn:Hfind; [|discriminate].
    case_match; [|discriminate]. injection Hstep as <-.
    destruct (findTimer_In _ _ _ Hfind) as [Hin Hh].
    assert (Hcl : budgetInv config (clearTimeout h st)).
    { revert Hb. apply budgetInv_subset; [|reflexivity].
      intros t' Hin'. cbn in Hin'. apply filter_In in Hin'. tauto. }
    destruct (callback t) as [m k|m k|key] eqn:Hcb.
    + (* the load completes *)
      pose proof (usage_load_timer h t m k st Hlife Hfind Hcb) as Hu. rewrite Hcb in Hu.
      cbn [runCallback] in Hu.
      assert (Hother : forall t', In t' (timers (clearTimeout h st)) ->
                isUnload (callback t') = true).
      { destruct (findTimer_split h st t (ti_nodup _ Hti) Hfind) as (l1 & l2 & Hs & Hc & _).
        assert (Htask : timerTask t <> None).
        { apply (bi_callers _ _ Hb t Hin). rewrite Hcb. reflexivity. }
        intros t' Hin'. rewrite Hc in Hin'.
        pose proof (sole_waiter st l1 t l2 Hq Hs Htask t' Hin') as Hnone.
        destruct (isUnload (callback t')) eqn:E; [reflexivity|].
        exfalso. apply (bi_callers _ _ Hcl t'); [rewrite Hc; exact Hin'|exact E|exact Hnone]. }
      cbn [runCallback].
      assert (Htimers : forall t', In t' (timers (resumeCaller k m (finishLoad config m (clearTimeout h st)))) ->
                isUnload (callback t') = true).
      { intros t' Hin'. rewrite (proj1 (resumeCaller_timers k m _)) in Hin'.
        destruct (isUnload (callback t')) eqn:E; [reflexivity|].
        apply (finishLoad_timers config m (clearTimeout h st) t') in Hin'; [|apply timerInv_clearTimeout, Hti|exact E].
        rewrite (Hother t' Hin') in E. discriminate. }
      split.
      * intros t' Hin' E. rewrite (Htimers t' Hin') in E. discriminate.
      * intros t' m' k' Hin' Hcb'. apply Htimers in Hin'. rewrite Hcb' in Hin'. discriminate.
      * rewrite Hu. apply (bi_pending _ _ Hb t m k Hin Hcb).
    + (* a poll *)
      cbn [runCallback]. unfold checkStatus.
      assert (Hk : timerTask t <> None).
      { apply (bi_callers _ _ Hb t Hin). rewrite Hcb. reflexivity. }
      unfold timerTask in Hk. rewrite Hcb in Hk.
      assert (Hpoll : budgetInv config (snd (setTimeout (CheckStatus m k) 100 (clearTimeout h st)))).
      { destruct Hcl as [H1 H2 H3]. split.
        - intros t' [Hin'|[<-|[]]]%in_app_iff; [auto|]. intros _. exact Hk.
        - intros t' m' k' [Hin'|[<-|[]]]%in_app_iff Hcb'; [|discriminate].
          apply (H2 t' m' k' Hin' Hcb').
        - exact H3. }
      repeat case_match; simplify_eq; auto;
        (eapply budgetInv_fields; [apply resumeCaller_timers|apply resumeCaller_modelStatus|]);
        exact Hcl.
    + cbn [runCallback].
      assert (Hn : noModel (clearTimeout h st)) by exact Hnm.
      unfold unloadCallback. destruct (noModel_unload _ Hn) as [-> ->].
      repeat case_match; exact Hcl.
  - case_match; [|discriminate]. injection Hstep as <-. revert Hb. frame_budget.
  - destruct (noMicrotask st); [|discriminate].
    injection Hstep as <-. destruct a; cbn; auto.
    + assert (Hti' : timerInv (with_isBackgrounded false st))
        by (revert Hti; apply timerInv_fields; reflexivity).
      assert (Hb' : budgetInv config (with_isBackgrounded false st)) by (revert Hb; frame_budget).
      revert Hb'. apply budgetInv_subset.
      * intros t Hin. unfold cancelUnloadTimer in Hin. case_match; [|exact Hin].
        cbn in Hin. apply filter_In in Hin. tauto.
      * apply cancelUnloadTimer_frame.
    + assert (Hn : noModel (with_isBackgrounded true st)) by exact Hnm.
      unfold unloadModelsOnBackground. destruct (noModel_unload _ Hn) as [-> ->].
      revert Hb. frame_budget.
    + assert (Hn : noModel (with_isBackgrounded true st)) by exact Hnm.
      unfold unloadModelsOnBackground. destruct (noModel_unload _ Hn) as [-> ->].
      revert Hb. frame_budget.
Qed.

Lemma budgetInv_run es st st' :
  run config st es = Some st' -> Forall (fun e => forall m, e <> LoadCall m) es ->
  timerInv st -> noModel st -> lifeInv config st -> queueInv st ->
  budgetInv config st -> budgetInv config st'.
Proof.
  revert st. induction es as [|e es IH]; cbn; intros st Hrun Hev Hti Hnm Hlife Hq Hb.
  - injection Hrun as <-. exact Hb.
  - destruct (step config st e) as [st1|] eqn:He; [|discriminate].
    apply Forall_cons in Hev as [He1 Hev].
    apply (IH st1 Hrun Hev);
      eauto using timerInv_step, noModel_step, lifeInv_step, queueInv_step, budgetInv_step.
Qed.

(** X9.  When the models are used through [executeWithGemma] and
    [executeWithTTS] only (no direct call of a load method), the recorded
    usage never exceeds the 512 MB of [checkMemoryAvailability], for all
    footprints: at most one load is in flight, and its footprint was
    checked against a usage that cannot change before it is committed. *)
Theorem queue_only_runs_stay_within_the_budget es st :
  run config initial es = Some st ->
  Forall (fun e => forall m, e <> LoadCall m) es ->
  getCurrentMemoryUsage st <= 512 /\
  (forall t1 t2 m1 k1 m2 k2, In t1 (timers st) -> In t2 (timers st) ->
     callback t1 = LoadResolved m1 k1 -> callback t2 = LoadResolved m2 k2 -> t1 = t2) /\
  (forall t m k, In t (timers st) -> callback t = LoadResolved m k ->
     getCurrentMemoryUsage st + memoryLimit (config m) <= 512).
Proof.
  intros Hrun Hev.
  destruct (reachable_invariants config es st Hrun) as (Hti & Hnm & Hlife & Hq).
  assert (Hb : budgetInv config st).
  { apply (budgetInv_run es initial st Hrun Hev);
      auto using timerInv_initial, lifeInv_initial, queueInv_initial.
    - split; reflexivity.
    - split.
      + intros t [].
      + intros t m k [].
      + vm_compute. discriminate. }
  split_and!.
  - apply (bi_usage _ _ Hb).
  - intros t1 t2 m1 k1 m2 k2 Hin1 Hin2 Hcb1 Hcb2.
    assert (Hk1 : timerTask t1 <> None) by (apply (bi_callers _ _ Hb t1 Hin1); rewrite Hcb1; reflexivity).
    assert (Hk2 : timerTask t2 <> None) by (apply (bi_callers _ _ Hb t2 Hin2); rewrite Hcb2; reflexivity).
    apply (NoDup_map_eq handle (timers st)); [apply (ti_nodup _ Hti)|exact Hin1|exact Hin2|].
    destruct (decide (handle t1 = handle t2)) as [Heq|Hne]; [exact Heq|exfalso].
    apply in_split in Hin1 as (l1 & l2 & Hs).
    rewrite Hs in Hin2. apply in_app_iff in Hin2 as [Hin2|[->|Hin2]].
    + apply Hk2, (sole_waiter st l1 t1 l2 Hq Hs Hk1). apply in_app_iff. auto.
    + congruence.
    + apply Hk2, (sole_waiter st l1 t1 l2 Hq Hs Hk1). apply in_app_iff. auto.
  - intros t m k Hin Hcb. apply (bi_pending _ _ Hb t m k Hin Hcb).
Qed.

End Commit.

Lemma recorded_usage_witness :
  exists st,
    run CONFIG initial [ExecuteWith TTS; ClockAdvance 2000; TimerFires 1; LoadCall Gemma] = Some st /\
    getCurrentMemoryUsage st =
      (if isModelLoaded Gemma st then memoryLimit (CONFIG Gemma) else 0) +
      (if isModelLoaded TTS st then memoryLimit (CONFIG TTS) else 0).
Proof.
  destruct (run CONFIG initial _) as [st|] eqn:Hrun; [|vm_compute in Hrun; discriminate].
  exists st. split; [reflexivity|].
  exact (recorded_usage_is_the_sum_of_the_loaded_footprints CONFIG _ st Hrun).
Defined.

Lemma shipped_models_witness :
  exists st,
    run CONFIG initial
      [LoadCall Gemma; LoadCall TTS; ClockAdvance 2000; TimerFires 1; TimerFires 2] = Some st /\
    0 <= getCurrentMemoryUsage st <= 406 /\
    (fst (loadModel CONFIG TTS (Direct 2) st) = Returned None \/
     fst (loadModel CONFIG TTS (Direct 2) st) = Awaiting).
Proof.
  destruct (run CONFIG initial _) as [st|] eqn:Hrun; [|vm_compute in Hrun; discriminate].
  exists st. split; [reflexivity|].
  exact (shipped_models_are_never_refused _ st TTS (Direct 2) Hrun).
Defined.

Lemma queue_is_never_idle_witness :
  exists st,
    run CONFIG initial
      [ExecuteWith Gemma; ExecuteWith TTS; ClockAdvance 2000; TimerFires 1; Microtask;
       OperationDone 0 true] = Some st /\
    requestQueue st = [{| opId := 1; opModel := TTS |}] /\
    isProcessingQueue st = true /\
    ((length (openTasks st) = 1%nat /\ ~ In LoopResumes (microtasks st)) \/
     (openTasks st = [] /\ microtasks st = [LoopResumes])).
Proof.
  destruct (run CONFIG initial _) as [st|] eqn:Hrun; [|vm_compute in Hrun; discriminate].
  exists st. split; [reflexivity|].
  pose proof (queue_is_never_idle_while_tasks_wait CONFIG _ st Hrun) as (_ & H2 & H3).
  assert (Hqueue : requestQueue st = [{| opId := 1; opModel := TTS |}]).
  { vm_compute in Hrun. injection Hrun as <-. reflexivity. }
  assert (Hflag : isProcessingQueue st = true) by (apply H3; rewrite Hqueue; discriminate).
  split; [exact Hqueue|]. split; [exact Hflag|]. exact (H2 Hflag).
Defined.

Lemma tasks_settle_witness :
  exists st,
    run CONFIG initial
      [ExecuteWith Gemma; ExecuteWith TTS; ClockAdvance 2000; TimerFires 1; Microtask;
       OperationDone 0 false; Microtask; ClockAdvance 4000; TimerFires 3; Microtask;
       OperationDone 1 true] = Some st /\
    rev (settledTasks (log st)) = seq 0 (countSettled (log st)) /\
    NoDup (settledTasks (log st)) /\
    (countSettled (log st) <= nextTask st)%nat.
Proof.
  destruct (run CONFIG initial _) as [st|] eqn:Hrun; [|vm_compute in Hrun; discriminate].
  exists st. split; [reflexivity|].
  exact (tasks_settle_once_and_in_submission_order CONFIG _ st Hrun).
Defined.

Lemma next_task_witness :
  exists st st' st1 st2,
    run CONFIG initial
      [ExecuteWith Gemma; ClockAdvance 2000; TimerFires 1; Microtask] = Some st /\
    step CONFIG st (OperationDone 0 false) = Some st' /\
    run CONFIG st' [ExecuteWith TTS; ClockAdvance 2500; ExecuteWith Gemma] = Some st1 /\
    microtasks st1 = [LoopResumes] /\
    requestQueue st1 = [{| opId := 1; opModel := TTS |}; {| opId := 2; opModel := Gemma |}] /\
    step CONFIG st1 Microtask = Some st2 /\
    exists newer, log st2 = newer ++ Popped 1 :: log st1.
Proof.
  destruct (run CONFIG initial _) as [st|] eqn:Hrun; [|vm_compute in Hrun; discriminate].
  destruct (step CONFIG st (OperationDone 0 false)) as [st'|] eqn:Hstep;
    [|exfalso; vm_compute in Hrun; injection Hrun as <-; vm_compute in Hstep; discriminate].
  destruct (run CONFIG st' [ExecuteWith TTS; ClockAdvance 2500; ExecuteWith Gemma])
    as [st1|] eqn:Hcalls;
    [|exfalso; vm_compute in Hrun; injection Hrun as <-; vm_compute in Hstep;
      injection Hstep as <-; vm_compute in Hcalls; discriminate].
  assert (Hev : Forall (fun e => e <> Microtask)
                  [ExecuteWith TTS; ClockAdvance 2500; ExecuteWith Gemma])
    by (repeat (constructor; [discriminate|]); constructor).
  pose proof (next_task_is_popped_when_an_operation_settles CONFIG _ st 0%nat false st' _ st1
                Hrun Hstep Hcalls Hev) as (_ & Hm & _ & _ & st2 & Hmicro & Hnext).
  assert (Hqueue : requestQueue st1 =
                   [{| opId := 1; opModel := TTS |}; {| opId := 2; opModel := Gemma |}]).
  { vm_compute in Hrun. injection Hrun as <-. vm_compute in Hstep. injection Hstep as <-.
    vm_compute in Hcalls. injection Hcalls as <-. reflexivity. }
  exists st, st', st1, st2. split; [reflexivity|]. split; [exact Hstep|].
  split; [exact Hcalls|]. split; [exact Hm|]. split; [exact Hqueue|]. split; [exact Hmicro|].
  rewrite Hqueue in Hnext. exact (proj2 Hnext).
Defined.

Lemma cleanup_cancels_witness :
  exists st,
    run CONFIG initial
      [ExecuteWith Gemma; ClockAdvance 2000; TimerFires 1; ExecuteWith TTS] = Some st /\
    unloadTimers st <> [] /\
    unloadTimers (cleanup st) = [] /\ unloadTimer (cleanup st) = None /\
    modelStatus (cleanup st) = modelStatus st /\
    requestQueue (cleanup st) = requestQueue st.
Proof.
  destruct (run CONFIG initial _) as [st|] eqn:Hrun; [|vm_compute in Hrun; discriminate].
  exists st. split; [reflexivity|].
  pose proof (cleanup_cancels_the_unload_timer_only CONFIG _ st Hrun) as (H1 & H2 & H3 & H4 & _).
  split; [|split_and!; assumption].
  vm_compute in Hrun. injection Hrun as <-. vm_compute. discriminate.
Defined.

Lemma a_load_in_flight_witness :
  let config := fun m => withMemoryLimit 300 (CONFIG m) in
  exists st st',
    run config initial [LoadCall Gemma; LoadCall TTS; ClockAdvance 2000; TimerFires 1] = Some st /\
    step config st (TimerFires 2) = Some st' /\
    getCurrentMemoryUsage st' = getCurrentMemoryUsage st + memoryLimit (config TTS) /\
    getCurrentMemoryUsage st' = 600.
Proof.
  intros config.
  destruct (run config initial _) as [st|] eqn:Hrun; [|vm_compute in Hrun; discriminate].
  destruct (step config st (TimerFires 2)) as [st'|] eqn:Hstep.
  - exists st, st'. split; [reflexivity|]. split; [exact Hstep|].
    assert (Hfind : findTimer 2 st =
                    Some {| handle := 2; due := 2000; callback := LoadResolved TTS (Direct 1) |}).
    { vm_compute in Hrun. injection Hrun as <-. reflexivity. }
    pose proof (proj2 (a_load_in_flight_is_not_counted config _ st Hrun)
                  2%nat _ TTS (Direct 1) st' Hfind eq_refl Hstep) as Hu.
    split; [exact Hu|].
    vm_compute in Hrun. injection Hrun as <-. vm_compute in Hstep. injection Hstep as <-.
    reflexivity.
  - exfalso. vm_compute in Hrun. injection Hrun as <-. vm_compute in Hstep. discriminate.
Defined.

Lemma queue_only_runs_witness :
  let config := fun m => withMemoryLimit 300 (CONFIG m) in
  exists st,
    run config initial
      [ExecuteWith Gemma; ExecuteWith TTS; ClockAdvance 2000; TimerFires 1; Microtask;
       OperationDone 0 true; Microtask; Microtask] = Some st /\
    In (Settled 1 false) (log st) /\
    getCurrentMemoryUsage st <= 512.
Proof.
  intros config.
  destruct (run config initial _) as [st|] eqn:Hrun; [|vm_compute in Hrun; discriminate].
  exists st. split; [reflexivity|]. split.
  - vm_compute in Hrun. injection Hrun as <-. cbn. auto.
  - apply (queue_only_runs_stay_within_the_budget config _ st Hrun).
    repeat (constructor; [intros m; discriminate|]). constructor.
Defined.


(** * Further properties of the priority cache *)

Section CacheItems.

Import MemoryManager.

Implicit Types (c : Cache) (item : CacheItem).

Lemma JsMap_get_delete_ne {V} k k' (m : list (string * V)) :
  k' <> k -> JsMap.get k' (JsMap.delete k m) = JsMap.get k' m.
Proof.
  intros Hne. induction m as [|[k0 v0] m IH]; cbn; [reflexivity|].
  destruct (String.eqb k0 k) eqn:E; cbn.
  - apply String.eqb_eq in E. subst k0.
    assert (E' : String.eqb k k' = false) by (apply String.eqb_neq; congruence).
    rewrite E'. exact IH.
  - destruct (String.eqb k0 k'); [reflexivity|exact IH].
Qed.

Lemma JsMap_In_keys {V} k (m : list (string * V)) :
  In k (JsMap.keys m) <-> exists v, In (k, v) m.
Proof.
  unfold JsMap.keys. rewrite in_map_iff. split.
  - intros ([k' v] & <- & Hin). exists v. exact Hin.
  - intros [v Hin]. exists (k, v). auto.
Qed.

Lemma victims_are_low c item :
  In item (firstn (itemsToRemove c) (lowPriorityItems c)) -> priority item = 3.
Proof.
  intros Hv.
  assert (Hl : In item (lowPriorityItems c)).
  { rewrite <- (firstn_skipn (itemsToRemove c) (lowPriorityItems c)). apply in_app_iff. auto. }
  apply lowPriorityItems_spec in Hl. tauto.
Qed.


(** X11.  An entry inserted with priority 3 while the usage is above the
    threshold, into a cache that holds no other entry of priority 3, is
    removed by the cleanup that its own insertion triggers: the half of
    the low-priority entries that is removed is rounded up, to the entry
    itself. *)
Theorem a_low_entry_can_be_removed_by_its_own_insertion os now k data c :
  JsMap.wf c -> keyed c ->
  (forall k' item, In (k', item) c -> k' <> k -> priority item <> 3) ->
  let item := {| key := k; size := estimateDataSize data; timestamp := now; priority := 3 |} in
  overThreshold os (JsMap.set k item c) = true ->
  overThreshold os (removeExpiredCacheItems now (JsMap.set k item c)) = true ->
  getCacheItem k (addCacheItem os now k data 3 c) = None.
Proof.
  intros Hwf Hkeyed Hothers item Hover Hover1.
  unfold getCacheItem, addCacheItem, checkMemoryThreshold, performMemoryCleanup.
  fold item. set (c' := JsMap.set k item c) in *. rewrite Hover, Hover1.
  set (c1 := removeExpiredCacheItems now c') in *.
  assert (Hwf' : JsMap.wf c') by apply JsMap_wf_set, Hwf.
  assert (Hk' : keyed c').
  { intros k' item' [[-> ->]|Hin]%JsMap_in_set; [reflexivity|auto]. }
  assert (Hwf1 : JsMap.wf c1) by apply wf_deleteKeys, Hwf'.
  assert (Hk1 : keyed c1) by apply keyed_deleteKeys, Hk'.
  assert (Hin' : In (k, item) c') by apply JsMap_get_In, JsMap_get_set_eq.
  assert (Hin1 : In (k, item) c1).
  { apply removeExpiredCacheItems_spec; [exact Hwf'|]. split; [exact Hin'|].
    unfold isExpired, CACHE_EXPIRY. cbn. apply Z.ltb_ge. lia. }
  destruct (lowPriorityItems_spec c1) as [Hlow _].
  assert (Hall : forall v, In v (lowPriorityItems c1) -> v = item).
  { intros v [Hp [k' Hv]]%Hlow.
    assert (Hv' : In (k', v) c').
    { apply (removeExpiredCacheItems_spec now c' k' v Hwf') in Hv. tauto. }
    destruct (String.eqb_spec k' k) as [->|Hne].
    - apply (JsMap_wf_unique k v item c' Hwf' Hv' Hin').
    - apply JsMap_in_set in Hv' as [[-> _]|Hv']; [congruence|].
      destruct (Hothers k' v Hv' Hne Hp). }
  assert (Hvictim : In item (firstn (itemsToRemove c1) (lowPriorityItems c1))).
  { unfold itemsToRemove.
    assert (Hi : In item (lowPriorityItems c1)) by (apply Hlow; split; [reflexivity|eauto]).
    destruct (lowPriorityItems c1) as [|v rest]; [destruct Hi|].
    rewrite (Hall v (or_introl eq_refl)). cbn [length Nat.div2 firstn]. left. reflexivity. }
  apply JsMap_get_None. intros [v Hv]%JsMap_In_keys.
  apply (removeLowPriorityItems_spec c1 k v Hwf1 Hk1) in Hv as [Hv Hn].
  assert (v = item).
  { apply (JsMap_wf_unique k v item c1 Hwf1 Hv Hin1). }
  subst v. exact (Hn Hvictim).
Qed.

Lemma checkMemoryThreshold_subset os now c kv :
  In kv (checkMemoryThreshold os now c) -> In kv c.
Proof.
  unfold checkMemoryThreshold, performMemoryCleanup, removeLowPriorityItems,
    removeExpiredCacheItems.
  repeat case_match; rewrite ?in_deleteKeys; tauto.
Qed.

(** X12.  [performPeriodicCleanup] reads the clock for its own expiry pass
    ([now]) and, when the usage is above the threshold afterwards, again
    for the pass of [performMemoryCleanup] ([now']).  It adds nothing; no
    entry that was older than [CACHE_EXPIRY] at the first reading is left,
    nor one that was at the second reading when that pass ran; every
    entry that is expired at neither reading and is not of priority 3 is
    still there; and below the threshold the result is that of the first
    pass alone. *)
Theorem periodic_cleanup_leaves_no_expired_entry os now now' c :
  JsMap.wf c -> keyed c ->
  (forall k item, In (k, item) (performPeriodicCleanup os now now' c) ->
     In (k, item) c /\ now - timestamp item <= CACHE_EXPIRY /\
     (overThreshold os (removeExpiredCacheItems now c) = true ->
      now' - timestamp item <= CACHE_EXPIRY)) /\
  (forall k item, In (k, item) c ->
     now - timestamp item <= CACHE_EXPIRY -> now' - timestamp item <= CACHE_EXPIRY ->
     priority item <> 3 -> In (k, item) (performPeriodicCleanup os now now' c)) /\
  (overThreshold os (removeExpiredCacheItems now c) = false ->
   performPeriodicCleanup os now now' c = removeExpiredCacheItems now c).
Proof.
  intros Hwf Hkeyed. unfold performPeriodicCleanup.
  set (c1 := removeExpiredCacheItems now c).
  assert (Hwf1 : JsMap.wf c1) by apply wf_deleteKeys, Hwf.
  assert (Hk1 : keyed c1) by apply keyed_deleteKeys, Hkeyed.
  assert (Hc1 : forall k item,
            In (k, item) c1 <-> In (k, item) c /\ now - timestamp item <= CACHE_EXPIRY).
  { intros k item. unfold c1. rewrite (removeExpiredCacheItems_spec now c k item Hwf).
    unfold isExpired. rewrite Z.ltb_ge. reflexivity. }
  assert (Hc2 : forall k item,
            In (k, item) (removeExpiredCacheItems now' c1) <->
            In (k, item) c1 /\ now' - timestamp item <= CACHE_EXPIRY).
  { intros k item. rewrite (removeExpiredCacheItems_spec now' c1 k item Hwf1).
    unfold isExpired. rewrite Z.ltb_ge. reflexivity. }
  split; [|split].
  - intros k item Hin.
    pose proof (checkMemoryThreshold_subset os now' c1 _ Hin) as Hin1.
    apply Hc1 in Hin1 as [Hc Hfresh]. split; [exact Hc|]. split; [exact Hfresh|].
    intros Hover. unfold checkMemoryThreshold, performMemoryCleanup in Hin.
    rewrite Hover in Hin.
    assert (Hin2 : In (k, item) (removeExpiredCacheItems now' c1)).
    { destruct (overThreshold os (removeExpiredCacheItems now' c1)); [|exact Hin].
      unfold removeLowPriorityItems in Hin. rewrite in_deleteKeys in Hin. tauto. }
    apply Hc2 in Hin2. tauto.
  - intros k item Hin Hfresh Hfresh' Hprio.
    assert (Hin1 : In (k, item) c1) by (apply Hc1; auto).
    unfold checkMemoryThreshold. destruct (overThreshold os c1); [|exact Hin1].
    unfold performMemoryCleanup.
    assert (Hin2 : In (k, item) (removeExpiredCacheItems now' c1)) by (apply Hc2; auto).
    destruct (overThreshold os (removeExpiredCacheItems now' c1)); [|exact Hin2].
    apply removeLowPriorityItems_spec.
    + apply wf_deleteKeys, Hwf1.
    + apply keyed_deleteKeys, Hk1.
    + split; [exact Hin2|]. intros Hv. apply victims_are_low in Hv. congruence.
  - intros Hunder. unfold checkMemoryThreshold. rewrite Hunder. reflexivity.
Qed.

Lemma deleteKeys_filter ks c :
  deleteKeys ks c = List.filter (fun kv => negb (existsb (String.eqb (fst kv)) ks)) c.
Proof.
  unfold deleteKeys. revert c. induction ks as [|k ks IH]; intros c; cbn [fold_left existsb].
  - symmetry. apply filter_all. reflexivity.
  - rewrite IH. unfold JsMap.delete. induction c as [|kv c IHc]; cbn; [reflexivity|].
    destruct (String.eqb (fst kv) k); cbn; [exact IHc|].
    destruct (existsb _ ks); cbn; [exact IHc|]. f_equal. exact IHc.
Qed.

Lemma delete_selected_filter (p : string * CacheItem -> bool) c :
  JsMap.wf c ->
  deleteKeys (map fst (List.filter p c)) c = List.filter (fun kv => negb (p kv)) c.
Proof.
  intros Hwf. rewrite deleteKeys_filter. apply List.filter_ext_in. intros [k v] Hin.
  f_equal. cbn [fst]. apply eq_true_iff_eq. rewrite existsb_exists. split.
  - intros (k' & ([k0 v0] & Hk0 & [Hin0 Hp]%filter_In)%in_map_iff & He%String.eqb_eq).
    cbn in Hk0. subst k0 k'. rewrite (JsMap_wf_unique k v v0 c Hwf Hin Hin0). exact Hp.
  - intros Hp. exists k. split; [|apply String.eqb_refl].
    apply in_map_iff. exists (k, v). split; [reflexivity|]. apply filter_In. auto.
Qed.

(** X13.  When the application leaves the foreground the cache keeps exactly
    its entries of priority at most 1, in their order of insertion, and a
    second signal changes nothing more. *)
Theorem aggressive_cleanup_keeps_the_high_entries_in_order c :
  JsMap.wf c ->
  performAggressiveCleanup c = List.filter (fun kv => priority (snd kv) <=? 1) c /\
  handleAppStateChange ModelManager.background c = performAggressiveCleanup c /\
  handleAppStateChange ModelManager.inactive c = performAggressiveCleanup c /\
  performAggressiveCleanup (performAggressiveCleanup c) = performAggressiveCleanup c.
Proof.
  intros Hwf.
  assert (Hspec : forall c', JsMap.wf c' ->
            performAggressiveCleanup c' = List.filter (fun kv => priority (snd kv) <=? 1) c').
  { intros c' Hwf'. unfold performAggressiveCleanup. rewrite delete_selected_filter by exact Hwf'.
    apply List.filter_ext. intros kv. rewrite Z.leb_antisym. reflexivity. }
  split_and!; try reflexivity; [apply Hspec, Hwf|].
  rewrite (Hspec c Hwf), Hspec by apply JsMap_wf_filter, Hwf.
  apply filter_all. intros kv [_ Hp]%filter_In. exact Hp.
Qed.

Lemma getCacheSize_cons k item c : getCacheSize ((k, item) :: c) = size item + getCacheSize c.
Proof.
  unfold getCacheSize. cbn.
  assert (H : forall l z, fold_left (fun totalSize x => totalSize + size x) l z =
                          z + fold_left (fun totalSize x => totalSize + size x) l 0).
  { induction l as [|x l IH]; intros z; cbn [fold_left]; [lia|].
    rewrite IH, (IH (0 + size x)). lia. }
  rewrite H. reflexivity.
Qed.

(** X14.  [getCacheStats] agrees with the cache: [totalSize] is the size that
    [getUsedMemory] adds to the 768 MB of the application and the models,
    and when every priority is 1, 2 or 3 the three counters add up to
    [totalItems]. *)
Theorem cache_statistics_add_up c :
  (forall k item, In (k, item) c -> priority item = 1 \/ priority item = 2 \/ priority item = 3) ->
  let stats := getCacheStats c in
  totalItems stats =
    (fst (fst (priorityBreakdown stats)) + snd (fst (priorityBreakdown stats)) +
     snd (priorityBreakdown stats))%nat /\
  getUsedMemory c = 768 + totalSize stats.
Proof.
  intros Hprio. cbn. split; [|unfold getUsedMemory, getModelMemory; lia].
  unfold countPriority, JsMap.size, JsMap.values.
  induction c as [|[k item] c IH]; [reflexivity|]. cbn [map List.filter length snd].
  specialize (IH (fun k' item' H => Hprio k' item' (or_intror H))).
  destruct (Hprio k item (or_introl eq_refl)) as [Hp|[Hp|Hp]]; rewrite Hp; cbn; lia.
Qed.

Lemma getCacheSize_delete k item c :
  JsMap.wf c -> JsMap.get k c = Some item ->
  getCacheSize (JsMap.delete k c) = getCacheSize c - size item.
Proof.
  unfold JsMap.wf. induction c as [|[k0 v0] c IH]; [discriminate|].
  intros [Hn Hd]%NoDup_cons Hget. cbn [JsMap.get] in Hget.
  unfold JsMap.delete. cbn [List.filter fst]. fold (JsMap.delete k c).
  destruct (String.eqb k0 k) eqn:E; cbn [negb].
  - injection Hget as ->. apply String.eqb_eq in E. subst k0.
    rewrite JsMap_delete_absent.
    + rewrite getCacheSize_cons. lia.
    + apply JsMap_get_None. intros Hin. apply Hn, list_elem_of_In, Hin.
  - rewrite !getCacheSize_cons, IH by assumption. lia.
Qed.

(** X15.  [removeCacheItem] removes the entry of its key and no other: the key
    is not found afterwards, every other key is found as before, and the
    cache size drops by the size of the entry. *)
Theorem removeCacheItem_removes_one_entry k c :
  JsMap.wf c ->
  getCacheItem k (removeCacheItem k c) = None /\
  (forall k', k' <> k -> getCacheItem k' (removeCacheItem k c) = getCacheItem k' c) /\
  (forall item, getCacheItem k c = Some item ->
     S (JsMap.size (removeCacheItem k c)) = JsMap.size c /\
     getCacheSize (removeCacheItem k c) = getCacheSize c - size item) /\
  (getCacheItem k c = None -> removeCacheItem k c = c).
Proof.
  intros Hwf. unfold getCacheItem, removeCacheItem. split_and!.
  - apply JsMap_get_delete_eq.
  - intros k' Hne. apply JsMap_get_delete_ne, Hne.
  - intros item Hget. split; [apply (JsMap_size_delete k item c Hwf Hget)|].
    apply getCacheSize_delete; assumption.
  - apply JsMap_delete_absent.
Qed.

(** *** The listeners of memory warnings *)

Lemma indexOf_spec listener l :
  match indexOf listener l with
  | Some index =>
      exists before after, l = before ++ listener :: after /\ ~ In listener before /\
                           length before = index
  | None => ~ In listener l
  end.
Proof.
  induction l as [|x l IH]; cbn; [auto|].
  destruct (Nat.eqb x listener) eqn:E.
  - apply Nat.eqb_eq in E. subst x. exists [], l. auto.
  - apply Nat.eqb_neq in E. destruct (indexOf listener l) as [i|]; cbn.
    + destruct IH as (before & after & -> & Hn & Hlen). exists (x :: before), after.
      split_and!; [reflexivity| |cbn; congruence]. intros [?|?]; auto.
    + intros [?|?]; auto.
Qed.

Lemma first_occurrence_unique (x : nat) before after before' after' :
  before ++ x :: after = before' ++ x :: after' ->
  ~ In x before -> ~ In x before' -> before' = before /\ after' = after.
Proof.
  revert before'. induction before as [|y b IH]; intros [|y' b'] Heq Hn Hn'; cbn in *.
  - injection Heq as <-. auto.
  - injection Heq as <- _. destruct Hn'. auto.
  - injection Heq as -> _. destruct Hn. auto.
  - injection Heq as -> Heq. destruct (IH b' Heq) as [-> ->]; auto.
Qed.

(** X16.  [removeMemoryWarningListener] takes out the first registration of
    the listener and leaves the others in place and in order: a listener
    that was added once and is removed is gone; one that was added twice
    is still registered once; removing an unknown listener changes
    nothing. *)
Theorem removeMemoryWarningListener_removes_the_first_registration listener l :
  (forall before after, l = before ++ listener :: after -> ~ In listener before ->
     removeMemoryWarningListener listener l = before ++ after) /\
  (~ In listener l ->
     removeMemoryWarningListener listener l = l /\
     removeMemoryWarningListener listener (addMemoryWarningListener listener l) = l /\
     removeMemoryWarningListener listener
       (addMemoryWarningListener listener (addMemoryWarningListener listener l)) =
     addMemoryWarningListener listener l).
Proof.
  assert (Hfirst : forall before after, ~ In listener before ->
            removeMemoryWarningListener listener (before ++ listener :: after) = before ++ after).
  { intros before after Hn. unfold removeMemoryWarningListener.
    pose proof (indexOf_spec listener (before ++ listener :: after)) as Hi.
    destruct (indexOf listener (before ++ listener :: after)) as [i|].
    - destruct Hi as (b' & a' & Heq & Hn' & Hlen).
      destruct (first_occurrence_unique listener before after b' a' Heq Hn Hn') as [-> ->].
      rewrite <- Hlen. rewrite firstn_app, firstn_all, Nat.sub_diag. cbn [firstn].
      rewrite app_nil_r. f_equal.
      change (S (length before)) with (1 + length before)%nat.
      rewrite <- skipn_skipn, skipn_app, skipn_all, Nat.sub_diag. reflexivity.
    - destruct Hi. apply in_app_iff. right. left. reflexivity. }
  split.
  - intros before after -> Hn. apply Hfirst, Hn.
  - intros Hn. split_and!.
    + unfold removeMemoryWarningListener.
      pose proof (indexOf_spec listener l) as Hi.
      destruct (indexOf listener l) as [i|]; [|reflexivity].
      destruct Hi as (b & a & -> & _). destruct Hn. apply in_app_iff. right. left. reflexivity.
    + unfold addMemoryWarningListener. rewrite Hfirst by exact Hn. apply app_nil_r.
    + unfold addMemoryWarningListener. rewrite <- app_assoc. cbn [app].
      rewrite Hfirst by exact Hn. reflexivity.
Qed.

End CacheItems.

Lemma keyed_entries (c : MemoryManager.Cache) :
  Forall (fun kv => MemoryManager.key (snd kv) = fst kv) c -> MemoryManager.keyed c.
Proof.
  intros Hall k item Hin. rewrite List.Forall_forall in Hall. apply (Hall (k, item) Hin).
Qed.


Lemma a_low_entry_witness :
  let c := [MemoryManager.entry "h" 3000 1 1] in
  MemoryManager.getCacheItem "low"
    (MemoryManager.addCacheItem MemoryManager.ios 10 "low"
       (MemoryManager.JsString "namaste") 3 c) = None /\
  MemoryManager.addCacheItem MemoryManager.ios 10 "low"
    (MemoryManager.JsString "namaste") 3 c = c.
Proof.
  intros c. split; [|reflexivity].
  apply (a_low_entry_can_be_removed_by_its_own_insertion
           MemoryManager.ios 10 "low" (MemoryManager.JsString "namaste") c).
  - apply (bool_decide_unpack _). vm_compute. reflexivity.
  - apply keyed_entries. repeat constructor.
  - intros k' item [[= <- <-]|[]] _. cbn. discriminate.
  - reflexivity.
  - reflexivity.
Defined.

Lemma periodic_cleanup_witness :
  let c := [MemoryManager.entry "old" 10 0 1; MemoryManager.entry "big" 6000 3000000 2;
            MemoryManager.entry "aged" 10 1 2] in
  let after := MemoryManager.performPeriodicCleanup MemoryManager.android 3600001 3600002 c in
  MemoryManager.overThreshold MemoryManager.android
    (MemoryManager.removeExpiredCacheItems 3600001 c) = true /\
  In (MemoryManager.entry "big" 6000 3000000 2) after /\
  ~ In (MemoryManager.entry "old" 10 0 1) after /\
  ~ In (MemoryManager.entry "aged" 10 1 2) after.
Proof.
  intros c after.
  assert (Hwf : JsMap.wf c) by (apply (bool_decide_unpack _); vm_compute; reflexivity).
  assert (Hk : MemoryManager.keyed c) by (apply keyed_entries; repeat constructor).
  assert (Hover : MemoryManager.overThreshold MemoryManager.android
                    (MemoryManager.removeExpiredCacheItems 3600001 c) = true)
    by (vm_compute; reflexivity).
  destruct (periodic_cleanup_leaves_no_expired_entry MemoryManager.android 3600001 3600002 c
              Hwf Hk) as (Hout & Hin & _).
  split; [exact Hover|]. split; [|split].
  - apply Hin; [cbn; auto|cbn; unfold MemoryManager.CACHE_EXPIRY; lia
                |cbn; unfold MemoryManager.CACHE_EXPIRY; lia|cbn; discriminate].
  - intros H. apply Hout in H as (_ & H & _). cbn in H. unfold MemoryManager.CACHE_EXPIRY in H. lia.
  - intros H. apply Hout in H as (_ & _ & H). specialize (H Hover).
    cbn in H. unfold MemoryManager.CACHE_EXPIRY in H. lia.
Defined.

Lemma aggressive_cleanup_witness :
  MemoryManager.performAggressiveCleanup
    [MemoryManager.entry "h1" 10 1 1; MemoryManager.entry "m" 10 2 2;
     MemoryManager.entry "h2" 10 3 1; MemoryManager.entry "l" 10 4 3] =
  [MemoryManager.entry "h1" 10 1 1; MemoryManager.entry "h2" 10 3 1].
Proof.
  set (c := [MemoryManager.entry "h1" 10 1 1; MemoryManager.entry "m" 10 2 2;
             MemoryManager.entry "h2" 10 3 1; MemoryManager.entry "l" 10 4 3]).
  assert (Hwf : JsMap.wf c) by (apply (bool_decide_unpack _); vm_compute; reflexivity).
  rewrite (proj1 (aggressive_cleanup_keeps_the_high_entries_in_order c Hwf)). reflexivity.
Defined.

Lemma cache_statistics_witness :
  let c := [MemoryManager.entry "h" 10 1 1; MemoryManager.entry "m" 20 2 2;
            MemoryManager.entry "l" 30 3 3; MemoryManager.entry "l2" 40 4 3] in
  MemoryManager.getCacheStats c =
    {| MemoryManager.totalItems := 4; MemoryManager.totalSize := 100;
       MemoryManager.priorityBreakdown := (1%nat, 1%nat, 2%nat) |} /\
  MemoryManager.getUsedMemory c = 768 + MemoryManager.totalSize (MemoryManager.getCacheStats c).
Proof.
  intros c. split; [reflexivity|].
  apply (cache_statistics_add_up c).
  intros k item Hin.
  repeat (destruct Hin as [[= <- <-]|Hin]; [cbn; auto|]). destruct Hin.
Defined.

Lemma removeCacheItem_witness :
  let c := [MemoryManager.entry "a" 10 1 1; MemoryManager.entry "b" 20 2 2] in
  MemoryManager.getCacheItem "a" (MemoryManager.removeCacheItem "a" c) = None /\
  MemoryManager.getCacheItem "b" (MemoryManager.removeCacheItem "a" c) =
    MemoryManager.getCacheItem "b" c.
Proof.
  intros c.
  assert (Hwf : JsMap.wf c) by (apply (bool_decide_unpack _); vm_compute; reflexivity).
  destruct (removeCacheItem_removes_one_entry "a" c Hwf) as (H1 & H2 & _).
  split; [exact H1|]. apply H2. discriminate.
Defined.

(** * Properties of the translation service *)

Section TextFacts.

Import Js TranslationService.

Implicit Types (s w : CodeUnits) (ws : list CodeUnits).

Lemma Js_split_not_nil sep s : split sep s <> [].
Proof.
  destruct s as [|c rest]; cbn; [discriminate|].
  destruct (c =? sep); [discriminate|]. destruct (split sep rest); discriminate.
Qed.

Lemma Js_join_cons sep w ws : ws <> [] -> join sep (w :: ws) = w ++ sep :: join sep ws.
Proof. destruct ws; [congruence|reflexivity]. Qed.

Lemma Js_join_split sep s : join sep (split sep s) = s.
Proof.
  induction s as [|c rest IH]; cbn [split]; [reflexivity|].
  pose proof (Js_split_not_nil sep rest) as Hne.
  destruct (c =? sep) eqn:E.
  - apply Z.eqb_eq in E. subst c. rewrite Js_join_cons by exact Hne. rewrite IH. reflexivity.
  - destruct (split sep rest) as [|w ws]; [congruence|].
    destruct ws as [|w' ws].
    + cbn in *. congruence.
    + rewrite Js_join_cons by discriminate. rewrite Js_join_cons in IH by discriminate.
      rewrite <- IH. reflexivity.
Qed.

Lemma Js_split_no_sep sep s w : In w (split sep s) -> ~ In sep w.
Proof.
  revert w. induction s as [|c rest IH]; cbn [split]; intros w.
  - intros [<-|[]] [].
  - destruct (c =? sep) eqn:E.
    + intros [<-|Hin]; [intros []|auto].
    + apply Z.eqb_neq in E. pose proof (Js_split_not_nil sep rest) as Hne.
      destruct (split sep rest) as [|w0 ws]; [congruence|].
      intros [<-|Hin].
      * intros [?|Hin]; [congruence|]. apply (IH w0); [left; reflexivity|exact Hin].
      * apply IH. right. exact Hin.
Qed.

Lemma Js_split_app_word sep w s :
  ~ In sep w -> split sep (w ++ sep :: s) = w :: split sep s.
Proof.
  induction w as [|c w IH]; cbn [app split]; intros Hn.
  - rewrite Z.eqb_refl. reflexivity.
  - assert (E : (c =? sep) = false) by (apply Z.eqb_neq; intros ->; apply Hn; left; reflexivity).
    rewrite E, IH; [reflexivity|]. intros Hin. apply Hn. right. exact Hin.
Qed.

Lemma Js_split_word sep w : ~ In sep w -> split sep w = [w].
Proof.
  induction w as [|c w IH]; cbn [split]; intros Hn; [reflexivity|].
  assert (E : (c =? sep) = false) by (apply Z.eqb_neq; intros ->; apply Hn; left; reflexivity).
  rewrite E, IH; [reflexivity|]. intros Hin. apply Hn. right. exact Hin.
Qed.

Lemma Js_split_join sep ws :
  ws <> [] -> (forall w, In w ws -> ~ In sep w) -> split sep (join sep ws) = ws.
Proof.
  induction ws as [|w ws IH]; [congruence|]. intros _ Hall.
  destruct ws as [|w' ws].
  - cbn. apply Js_split_word, Hall. left. reflexivity.
  - rewrite Js_join_cons by discriminate. rewrite Js_split_app_word.
    + f_equal. apply IH; [discriminate|]. intros x Hx. apply Hall. right. exact Hx.
    + apply Hall. left. reflexivity.
Qed.

Lemma Js_join_app sep ws1 ws2 :
  ws1 <> [] -> ws2 <> [] -> join sep (ws1 ++ ws2) = join sep ws1 ++ sep :: join sep ws2.
Proof.
  induction ws1 as [|w ws1 IH]; [congruence|]. intros _ Hne.
  destruct ws1 as [|w' ws1].
  - cbn [app]. rewrite Js_join_cons by exact Hne. reflexivity.
  - change ((w :: w' :: ws1) ++ ws2) with (w :: ((w' :: ws1) ++ ws2)).
    rewrite Js_join_cons by discriminate. rewrite IH by (discriminate || exact Hne).
    rewrite (Js_join_cons sep w (w' :: ws1)) by discriminate.
    rewrite <- app_assoc. reflexivity.
Qed.

Lemma Js_slice_prefix {A} (l : list A) (n : Z) :
  0 <= n -> slice 0 n l = firstn (Z.to_nat n) l.
Proof.
  intros Hn. unfold slice, sliceIndex.
  assert (E0 : (0 <? 0) = false) by reflexivity. rewrite E0.
  assert (En : (n <? 0) = false) by (apply Z.ltb_ge; exact Hn). rewrite En.
  rewrite (Z.min_l 0) by lia. cbn [Z.to_nat skipn]. rewrite Z.sub_0_r.
  destruct (Z.le_ge_cases n (Z.of_nat (length l))).
  - rewrite Z.min_l by lia. reflexivity.
  - rewrite Z.min_r by lia. rewrite Nat2Z.id.
    rewrite (firstn_all2 (n:=Z.to_nat n)) by lia. apply firstn_all.
Qed.

Lemma Js_slice_window {A} (l : list A) (i n : Z) :
  0 <= i -> 0 <= n -> slice i (i + n) l = firstn (Z.to_nat n) (skipn (Z.to_nat i) l).
Proof.
  intros Hi Hn. unfold slice, sliceIndex.
  assert (Ei : (i <? 0) = false) by (apply Z.ltb_ge; exact Hi). rewrite Ei.
  assert (En : (i + n <? 0) = false) by (apply Z.ltb_ge; lia). rewrite En.
  destruct (Z.le_ge_cases i (Z.of_nat (length l))) as [Hle|Hge].
  - rewrite (Z.min_l i) by lia.
    destruct (Z.le_ge_cases (i + n) (Z.of_nat (length l))).
    + rewrite Z.min_l by lia. f_equal. lia.
    + rewrite Z.min_r by lia.
      rewrite !firstn_all2; auto; rewrite length_skipn; lia.
  - rewrite !Z.min_r by lia. rewrite Z.sub_diag. cbn [Z.to_nat firstn].
    rewrite (skipn_all2 (n := Z.to_nat i)) by lia. rewrite firstn_nil. reflexivity.
Qed.


(** *** [truncateTextForTokens] *)

(** X17.  For a limit of at least one word, [truncateTextForTokens] returns a
    prefix of the text that holds the first [maxTokens] words (runs of
    code units between single spaces), or the whole text when it has no
    more words than that; truncating the result again changes nothing;
    and a text without a space is returned whole, however long. *)
Theorem truncateTextForTokens_keeps_the_first_words text maxTokens :
  1 <= maxTokens ->
  let t := truncateTextForTokens text maxTokens in
  (exists rest, text = t ++ rest) /\
  split 32 t = firstn (Z.to_nat maxTokens) (split 32 text) /\
  Z.of_nat (length (split 32 t)) = Z.min maxTokens (Z.of_nat (length (split 32 text))) /\
  truncateTextForTokens t maxTokens = t /\
  (~ In 32 text -> t = text).
Proof.
  intros Hmax t. unfold t, truncateTextForTokens.
  pose proof (Js_split_not_nil 32 text) as Hne.
  pose proof (Js_join_split 32 text) as Hjs.
  destruct (Z.of_nat (length (split 32 text)) <=? maxTokens) eqn:E.
  - apply Z.leb_le in E. split_and!.
    + exists []. rewrite app_nil_r. reflexivity.
    + rewrite firstn_all2 by lia. reflexivity.
    + lia.
    + rewrite (proj2 (Z.leb_le _ _) E). reflexivity.
    + reflexivity.
  - apply Z.leb_gt in E. rewrite Js_slice_prefix by lia.
    set (k := Z.to_nat maxTokens) in *. set (words := split 32 text) in *.
    assert (Hk : (1 <= k < length words)%nat) by lia.
    assert (Hhead : firstn k words <> []).
    { destruct words; [congruence|]. destruct k; [lia|]. discriminate. }
    assert (Htail : skipn k words <> []).
    { intros H0. apply (f_equal (@length _)) in H0. rewrite length_skipn in H0. cbn in H0. lia. }
    assert (Hsplit : split 32 (join 32 (firstn k words)) = firstn k words).
    { apply Js_split_join; [exact Hhead|]. intros w Hw. apply (Js_split_no_sep 32 text).
      fold words. rewrite <- (firstn_skipn k words). apply in_app_iff. left. exact Hw. }
    split_and!.
    + exists (32 :: join 32 (skipn k words)).
      rewrite <- Js_join_app by assumption. rewrite firstn_skipn. symmetry. exact Hjs.
    + exact Hsplit.
    + rewrite Hsplit, length_firstn. lia.
    + rewrite Hsplit, length_firstn.
      assert (E' : (Z.of_nat (Nat.min k (length words)) <=? maxTokens) = true)
        by (apply Z.leb_le; lia).
      rewrite E'. reflexivity.
    + intros Hno. exfalso. unfold words in Hk. rewrite (Js_split_word 32 text Hno) in Hk.
      cbn in Hk. lia.
Qed.

(** *** [hashText] *)

Lemma toInt32_mod x : toInt32 x mod 2 ^ 32 = x mod 2 ^ 32.
Proof.
  unfold toInt32. rewrite Zminus_mod, Z.mod_mod by lia.
  rewrite <- Zminus_mod. f_equal. lia.
Qed.

Lemma toInt32_congr x y : x mod 2 ^ 32 = y mod 2 ^ 32 -> toInt32 x = toInt32 y.
Proof.
  intros H. unfold toInt32. f_equal.
  rewrite (Zplus_mod x), (Zplus_mod y), H. reflexivity.
Qed.

Lemma toInt32_range x : - 2 ^ 31 <= toInt32 x < 2 ^ 31.
Proof. unfold toInt32. pose proof (Z.mod_pos_bound (x + 2 ^ 31) (2 ^ 32)). lia. Qed.

Lemma toInt32_idem x : toInt32 (toInt32 x) = toInt32 x.
Proof. apply toInt32_congr, toInt32_mod. Qed.

Lemma hashStep_spec p c : hashStep (toInt32 p) c = toInt32 (31 * p + c).
Proof.
  unfold hashStep, band, shl. rewrite Z.land_diag, !toInt32_idem.
  change (5 mod 32) with 5. rewrite Z.shiftl_mul_pow2 by lia.
  apply toInt32_congr.
  rewrite Zplus_mod, Zminus_mod, !toInt32_mod.
  rewrite (Zmult_mod (toInt32 p)), toInt32_mod.
  rewrite <- Zmult_mod, <- Zminus_mod, <- Zplus_mod. f_equal. lia.
Qed.

Lemma hashLoop_spec text p :
  fold_left hashStep text (toInt32 p) = toInt32 (fold_left (fun h c => 31 * h + c) text p).
Proof.
  revert p. induction text as [|c text IH]; intros p; cbn [fold_left]; [reflexivity|].
  rewrite hashStep_spec. apply IH.
Qed.


(** X18.  [hashText] prints the signed 32-bit value of the polynomial
    [c0 * 31^(n-1) + ... + c(n-1)] over the code units of the text, so the
    hash takes fewer than [2^32] values and distinct texts collide:
    raising one code unit by 1 and lowering the next one by 31 leaves the
    hash unchanged ("Aa" and "BB"). *)
Theorem hashText_is_a_polynomial_hash_modulo_2_32 :
  (forall text,
     hashLoop text = toInt32 (polynomial31 text) /\
     - 2 ^ 31 <= hashLoop text < 2 ^ 31) /\
  (forall before after a b,
     hashText (before ++ [a; b + 31] ++ after) = hashText (before ++ [a + 1; b] ++ after)).
Proof.
  assert (Hpoly : forall text, hashLoop text = toInt32 (polynomial31 text)).
  { intros text. unfold hashLoop, polynomial31. change 0 with (toInt32 0) at 1.
    apply hashLoop_spec. }
  split.
  - intros text. split; [apply Hpoly|]. rewrite Hpoly. apply toInt32_range.
  - intros before after a b. unfold hashText. f_equal. rewrite !Hpoly. f_equal.
    unfold polynomial31. rewrite !fold_left_app. cbn [fold_left]. f_equal. lia.
Qed.

(** X19.  A request is looked up under its language pair and the hash of its
    text only: once the translation of one request is stored, a request
    with the same language pair and a text of the same hash is answered
    from the cache with that translation, until the entry expires. *)
Theorem requests_with_equal_hashes_share_a_cache_entry
    {Confidence : Type} (now0 now : Z) (r1 r2 : TranslationRequest)
    (txt : string) (conf : Confidence) (cache : TranslationCache.Cache Confidence) :
  fromLang r1 = fromLang r2 -> toLang r1 = toLang r2 ->
  hashLoop (text r1) = hashLoop (text r2) ->
  txt <> EmptyString -> now - now0 < 86400000 ->
  generateCacheKey r1 = generateCacheKey r2 /\
  fst (translateText now r2 (translateTextResume now0 r1 txt conf cache)) = FromCache txt.
Proof.
  intros Hfrom Hto Hhash Htxt Hfresh.
  assert (Hkey : generateCacheKey r1 = generateCacheKey r2).
  { unfold generateCacheKey, hashText. rewrite Hfrom, Hto, Hhash. reflexivity. }
  split; [exact Hkey|].
  unfold translateText, translateTextResume, TranslationCache.getFromCache,
    TranslationCache.addToCache.
  rewrite Hkey, JsMap_get_set_eq. cbn [TranslationCache.timestamp TranslationCache.text].
  assert (E : (now - now0 <? TranslationCache.CACHE_EXPIRY_HOURS * 3600000) = true)
    by (apply Z.ltb_lt; exact Hfresh).
  rewrite E. apply String.eqb_neq in Htxt. rewrite Htxt. reflexivity.
Qed.

End TextFacts.

Lemma requests_with_equal_hashes_witness :
  let r1 := {| TranslationService.text := Js.ascii "Aa";
               TranslationService.fromLang := "en"; TranslationService.toLang := "hi";
               TranslationService.maxTokens := None |} in
  let r2 := {| TranslationService.text := Js.ascii "BB";
               TranslationService.fromLang := "en"; TranslationService.toLang := "hi";
               TranslationService.maxTokens := None |} in
  TranslationService.generateCacheKey r1 = "translation_en_hi_2112" /\
  TranslationService.generateCacheKey r1 = TranslationService.generateCacheKey r2 /\
  fst (TranslationService.translateText 5000 r2
         (TranslationService.translateTextResume 1000 r1 "namaste" 1 [])) =
    TranslationService.FromCache "namaste".
Proof.
  intros r1 r2. split; [vm_compute; reflexivity|].
  apply (requests_with_equal_hashes_share_a_cache_entry 1000 5000 r1 r2 "namaste" 1 []).
  - reflexivity.
  - reflexivity.
  - reflexivity.
  - discriminate.
  - lia.
Defined.

Lemma truncateTextForTokens_witness :
  let text := Js.ascii "how are you today" in
  let t := TranslationService.truncateTextForTokens text 2 in
  t = Js.ascii "how are" /\
  (exists rest, text = t ++ rest) /\
  Js.split 32 t = firstn 2 (Js.split 32 text).
Proof.
  intros text t. split; [reflexivity|].
  pose proof (truncateTextForTokens_keeps_the_first_words text 2 ltac:(lia)) as (H1 & H2 & _).
  exact (conj H1 H2).
Defined.

Section StreamFacts.

Import Js TranslationService.

Lemma Js_join_two_words sep (ws : list CodeUnits) : (2 <= length ws)%nat -> join sep ws <> [].
Proof.
  destruct ws as [|w [|w' ws]]; cbn [length]; try lia. intros _.
  rewrite Js_join_cons by discriminate. destruct w; discriminate.
Qed.

Lemma streamLoop_spec (words : list CodeUnits) fuel :
  forall i acc tokens,
    0 <= i < Z.of_nat (length words) ->
    Z.of_nat (length words) - i <= Z.of_nat fuel ->
    i = 0 \/ 2 <= i ->
    acc = join 32 (firstn (Z.to_nat i) words) ->
    exists earlier last,
      streamLoop fuel words i acc tokens = earlier ++ [last] /\
      isComplete last = true /\
      (forall r, In r earlier -> isComplete r = false) /\
      Z.of_nat (length earlier) = (Z.of_nat (length words) - i - 1) / 32 /\
      tokensUsed last = tokens + 32 * (Z.of_nat (length earlier) + 1) /\
      forall (j : nat) r, (earlier ++ [last]) !! j = Some r ->
        partialText r = join 32 (firstn (Z.to_nat (i + 32 * (Z.of_nat j + 1))) words).
Proof.
  induction fuel as [|fuel IH]; intros i acc tokens Hi Hfuel Hstart Hacc; [lia|].
  cbn [streamLoop]. unfold STREAM_CHUNK_SIZE.
  assert (E : (i <? Z.of_nat (length words)) = true) by (apply Z.ltb_lt; lia). rewrite E.
  rewrite Js_slice_window by lia.
  set (acc' := acc ++ _ ++ _).
  assert (Hacc' : acc' = join 32 (firstn (Z.to_nat (i + 32)) words)).
  { unfold acc'. replace (Z.to_nat (i + 32)) with (Z.to_nat i + Z.to_nat 32)%nat by lia.
    rewrite <- take_take_drop.
    assert (Hchunk : firstn (Z.to_nat 32) (skipn (Z.to_nat i) words) <> []).
    { intros H0. apply (f_equal (@length _)) in H0.
      rewrite length_firstn, length_skipn in H0. cbn [length] in H0. lia. }
    destruct Hstart as [->|Hi2].
    - subst acc. reflexivity.
    - assert (Hne : acc <> []).
      { subst acc. apply Js_join_two_words. rewrite length_firstn. lia. }
      rewrite Js_join_app; [|intros H0; apply Hne; subst acc; rewrite H0; reflexivity|exact Hchunk].
      rewrite <- Hacc. destruct acc; [congruence|]. reflexivity. }
  destruct (Z.of_nat (length words) <=? i + 32) eqn:Hdone.
  - apply Z.leb_le in Hdone.
    assert (Hrest : streamLoop fuel words (i + 32) acc' (tokens + 32) = []).
    { destruct fuel; [reflexivity|]. cbn [streamLoop].
      assert (E' : (i + 32 <? Z.of_nat (length words)) = false) by (apply Z.ltb_ge; lia).
      rewrite E'. reflexivity. }
    rewrite Hrest.
    exists [], {| partialText := acc'; isComplete := true; tokensUsed := tokens + 32 |}.
    split_and!.
    + reflexivity.
    + reflexivity.
    + intros r [].
    + cbn [length]. rewrite Z.div_small; lia.
    + cbn [tokensUsed length]. lia.
    + intros [|j] r Hj.
      * cbn in Hj. injection Hj as <-. cbn [partialText].
        rewrite Hacc'. do 2 f_equal; lia.
      * cbn in Hj. destruct j; discriminate.
  - apply Z.leb_gt in Hdone.
    destruct (IH (i + 32) acc' (tokens + 32)) as (earlier & last & Heq & Hc & He & Hlen & Htok & Hpart);
      [lia|lia|lia|exact Hacc'|].
    rewrite Heq.
    exists ({| partialText := acc'; isComplete := false; tokensUsed := tokens + 32 |} :: earlier), last.
    split_and!.
    + reflexivity.
    + exact Hc.
    + intros r [<-|Hr]; [reflexivity|auto].
    + cbn [length]. rewrite Nat2Z.inj_succ, Hlen.
      replace (Z.of_nat (length words) - i - 1)
        with (Z.of_nat (length words) - (i + 32) - 1 + 1 * 32) by lia.
      rewrite Z.div_add by lia. lia.
    + rewrite Htok. cbn [length]. lia.
    + intros [|j] r Hj.
      * cbn in Hj. injection Hj as <-. cbn [partialText]. rewrite Hacc'. do 2 f_equal; lia.
      * change ((earlier ++ [last]) !! j = Some r) in Hj.
        rewrite (Hpart j r Hj). do 2 f_equal. lia.
Qed.

(** X20.  The chunks that [translateTextStream] hands to [onChunk]: chunk
    number [j] carries the first [32 * (j + 1)] words of the translated
    text, joined by single spaces as they were; the last chunk carries the
    whole text and is the only one flagged complete; [tokensUsed] counts
    32 per chunk, whatever the number of words. *)
Theorem translateTextStream_ends_with_the_whole_text (text : CodeUnits) :
  exists earlier last,
    translateTextStream text = earlier ++ [last] /\
    partialText last = text /\
    isComplete last = true /\
    (forall r, In r earlier -> isComplete r = false) /\
    Z.of_nat (length earlier) = (Z.of_nat (length (split 32 text)) - 1) / 32 /\
    tokensUsed last = 32 * Z.of_nat (length (translateTextStream text)) /\
    forall (j : nat) r, translateTextStream text !! j = Some r ->
      partialText r = join 32 (firstn (32 * (j + 1)) (split 32 text)).
Proof.
  unfold translateTextStream.
  pose proof (Js_split_not_nil 32 text) as Hne.
  assert (Hlen : (1 <= length (split 32 text))%nat).
  { destruct (split 32 text); [congruence|cbn; lia]. }
  destruct (streamLoop_spec (split 32 text) (length (split 32 text)) 0 [] 0)
    as (earlier & last & Heq & Hc & He & Hn & Htok & Hpart); [lia|lia|auto|reflexivity|].
  exists earlier, last. rewrite Heq. split_and!; auto.
  - rewrite (Hpart (length earlier) last).
    + rewrite firstn_all2; [apply Js_join_split|].
      assert (Z.of_nat (length (split 32 text)) - 0 - 1 <
              32 * ((Z.of_nat (length (split 32 text)) - 0 - 1) / 32) + 32); [|lia].
      pose proof (Z.mul_div_le (Z.of_nat (length (split 32 text)) - 0 - 1) 32).
      pose proof (Z.mod_pos_bound (Z.of_nat (length (split 32 text)) - 0 - 1) 32).
      pose proof (Z.div_mod (Z.of_nat (length (split 32 text)) - 0 - 1) 32). lia.
    + rewrite lookup_app_r by lia. rewrite Nat.sub_diag. reflexivity.
  - rewrite Hn. f_equal. lia.
  - rewrite Htok, length_app. cbn [length]. lia.
  - intros j r Hj. rewrite (Hpart j r Hj). do 2 f_equal. lia.
Qed.

End StreamFacts.

Section LanguageFacts.

Import Js TranslationService.

Lemma test_true class text :
  test class text = true <->
  exists c r, In c text /\ In r class /\ fst r <= c <= snd r.
Proof.
  unfold test. rewrite existsb_exists. split.
  - intros (c & Hc & (r & Hr & Hin)%existsb_exists). exists c, r.
    unfold inRange in Hin. apply andb_true_iff in Hin as [H1%Z.leb_le H2%Z.leb_le]. auto.
  - intros (c & r & Hc & Hr & H1 & H2). exists c. split; [exact Hc|].
    apply existsb_exists. exists r. split; [exact Hr|].
    unfold inRange. apply andb_true_iff. split; apply Z.leb_le; assumption.
Qed.

Lemma test_one lo hi text :
  test [(lo, hi)] text = true <-> exists c, In c text /\ lo <= c <= hi.
Proof.
  rewrite test_true. split.
  - intros (c & r & Hc & [<-|[]] & Hr). exists c. auto.
  - intros (c & Hc & Hr). exists c, (lo, hi). cbn. auto.
Qed.

Lemma test_false class text :
  test class text = false <->
  forall c r, In c text -> In r class -> ~ fst r <= c <= snd r.
Proof.
  rewrite <- not_true_iff_false, test_true. split.
  - intros Hn c r Hc Hr H. apply Hn. exists c, r. auto.
  - intros Hall (c & r & Hc & Hr & H). exact (Hall c r Hc Hr H).
Qed.

(** X21.  [simpleLanguageDetection] tests the Devanagari range twice, first
    for Hindi: it answers "hi" exactly when the text holds a code unit of
    that range and never answers "ne".  The ideographs are tested for
    Chinese before the pattern for Japanese, which contains them: the
    answer is "ja" only for a text with kana and without ideographs. *)
Theorem simpleLanguageDetection_never_answers_nepali (text : CodeUnits) :
  simpleLanguageDetection text <> "ne" /\
  (simpleLanguageDetection text = "hi" <-> exists c, In c text /\ 0x0900 <= c <= 0x097F) /\
  (simpleLanguageDetection text = "ja" ->
     (exists c, In c text /\ 0x3040 <= c <= 0x30FF) /\
     forall c, In c text -> ~ 0x4E00 <= c <= 0x9FFF).
Proof.
  unfold simpleLanguageDetection.
  change nepaliPattern with hindiPattern.
  destruct (test hindiPattern text) eqn:Hhi.
  { split_and!; [discriminate| |discriminate].
    split; [intros _|reflexivity]. apply (test_one 0x0900 0x097F), Hhi. }
  assert (Hnohi : ~ exists c, In c text /\ 0x0900 <= c <= 0x097F).
  { intros H. apply (test_one 0x0900 0x097F) in H. unfold hindiPattern in Hhi. congruence. }
  split_and!.
  - repeat case_match; discriminate.
  - split; [|intros H; destruct (Hnohi H)]. repeat case_match; discriminate.
  - destruct (test chinesePattern text) eqn:Hzh; [repeat case_match; discriminate|].
    destruct (test japanesePattern text) eqn:Hja; [|repeat case_match; discriminate].
    intros _. split.
    + apply test_true in Hja as (c & r & Hc & Hr & H1 & H2). exists c. split; [exact Hc|].
      unfold japanesePattern in Hr. cbn in Hr.
      destruct Hr as [<-|[<-|[<-|[]]]]; cbn in H1, H2; try lia.
      exfalso. rewrite test_false in Hzh. apply (Hzh c (0x4E00, 0x9FFF) Hc); cbn; auto.
    + intros c Hc. rewrite test_false in Hzh. apply (Hzh c (0x4E00, 0x9FFF) Hc). cbn. auto.
Qed.

(** X22.  The answer is "en", the default, exactly when no code unit of the
    text lies in one of the tested ranges: Cyrillic, Arabic, the Indic
    blocks from Devanagari to Malayalam, kana, the ideographs and
    Hangul.  A text in Latin script is taken for English. *)
Theorem simpleLanguageDetection_defaults_to_english (text : CodeUnits) :
  simpleLanguageDetection text = "en" <->
  forall c, In c text ->
    ~ (0x0400 <= c <= 0x04FF \/ 0x0600 <= c <= 0x06FF \/ 0x0900 <= c <= 0x0D7F \/
       0x3040 <= c <= 0x30FF \/ 0x4E00 <= c <= 0x9FFF \/ 0xAC00 <= c <= 0xD7AF).
Proof.
  unfold simpleLanguageDetection. split.
  - intros Hen c Hc Hr.
    repeat (match type of Hen with
            | (if test ?p text then _ else _) = _ =>
                let E := fresh "E" in
                destruct (test p text) eqn:E; [discriminate|]; rewrite test_false in E;
                specialize (E c)
            end).
    unfold hindiPattern, nepaliPattern, bengaliPattern, tamilPattern, teluguPattern,
      kannadaPattern, malayalamPattern, gujaratiPattern, punjabiPattern, odiaPattern,
      arabicPattern, chinesePattern, japanesePattern, koreanPattern, cyrillicPattern in *.
    cbn [In] in *.
    assert (H1 := E _ Hc (or_introl eq_refl)).
    assert (H2 := E0 _ Hc (or_introl eq_refl)).
    assert (H3 := E1 _ Hc (or_introl eq_refl)).
    assert (H4 := E2 _ Hc (or_introl eq_refl)).
    assert (H5 := E3 _ Hc (or_introl eq_refl)).
    assert (H6 := E4 _ Hc (or_introl eq_refl)).
    assert (H7 := E5 _ Hc (or_introl eq_refl)).
    assert (H8 := E6 _ Hc (or_introl eq_refl)).
    assert (H9 := E7 _ Hc (or_introl eq_refl)).
    assert (H10 := E8 _ Hc (or_introl eq_refl)).
    assert (H11 := E9 _ Hc (or_introl eq_refl)).
    assert (H12 := E10 _ Hc (or_introl eq_refl)).
    assert (H13 := E11 _ Hc (or_introl eq_refl)).
    assert (H13a := E11 _ Hc (or_intror (or_introl eq_refl))).
    assert (H14 := E12 _ Hc (or_introl eq_refl)).
    assert (H15 := E13 _ Hc (or_introl eq_refl)).
    cbn [fst snd] in *. lia.
  - intros Hall.
    assert (Hno : forall p, (forall r, In r p ->
              0x0400 <= fst r /\ snd r <= 0x04FF \/ 0x0600 <= fst r /\ snd r <= 0x06FF \/
              0x0900 <= fst r /\ snd r <= 0x0D7F \/ 0x3040 <= fst r /\ snd r <= 0x30FF \/
              0x4E00 <= fst r /\ snd r <= 0x9FFF \/ 0xAC00 <= fst r /\ snd r <= 0xD7AF) ->
            test p text = false).
    { intros p Hp. apply test_false. intros c r Hc Hr Hin.
      apply (Hall c Hc). specialize (Hp r Hr). lia. }
    rewrite !Hno; [reflexivity|..];
      intros r Hr; cbn in Hr;
      repeat (destruct Hr as [<-|Hr]; [cbn; lia|]); destruct Hr.
Qed.

(** *** [validateTranslationRequest] *)

Lemma trimStart_nil s : trimStart s = [] <-> forall c, In c s -> isWhiteSpace c = true.
Proof.
  induction s as [|c s IH]; cbn [trimStart].
  - split; [intros _ c []|reflexivity].
  - destruct (isWhiteSpace c) eqn:E.
    + rewrite IH. split.
      * intros H c' [<-|Hc']; auto.
      * intros H c' Hc'. apply H. right. exact Hc'.
    + split; [discriminate|]. intros H. specialize (H c (or_introl eq_refl)). congruence.
Qed.

Lemma trimStart_head s c rest : trimStart s = c :: rest -> isWhiteSpace c = false.
Proof.
  induction s as [|x s IH]; cbn [trimStart]; [discriminate|].
  destruct (isWhiteSpace x) eqn:E; [exact IH|]. intros [= -> _]. exact E.
Qed.

Lemma trim_nil s : trim s = [] <-> forall c, In c s -> isWhiteSpace c = true.
Proof.
  unfold trim. split.
  - intros H. apply (f_equal (@rev _)) in H. rewrite rev_involutive in H. cbn in H.
    rewrite trimStart_nil in H.
    destruct (trimStart s) as [|c0 s0] eqn:Hs.
    + apply trimStart_nil, Hs.
    + pose proof (trimStart_head s c0 s0 Hs) as Hc0.
      rewrite (H c0) in Hc0; [discriminate|].
      apply in_rev. rewrite rev_involutive. left. reflexivity.
  - intros H. apply trimStart_nil in H. rewrite H. reflexivity.
Qed.

(** X23.  [validateTranslationRequest] accepts a request exactly when its text
    holds a code unit that is not white space and both language codes
    are non-empty; a text of spaces, tabs and line breaks only is rejected
    as empty, and the text is examined before the languages. *)
Theorem validateTranslationRequest_accepts_texts_with_a_visible_code_unit
    (request : TranslationRequest) :
  (validateTranslationRequest request = None <->
     (exists c, In c (text request) /\ isWhiteSpace c = false) /\
     fromLang request <> EmptyString /\ toLang request <> EmptyString) /\
  ((forall c, In c (text request) -> isWhiteSpace c = true) ->
     validateTranslationRequest request = Some "Translation text cannot be empty").
Proof.
  unfold validateTranslationRequest.
  assert (Hblank : (Nat.eqb (length (text request)) 0 ||
                    Nat.eqb (length (trim (text request))) 0) = true <->
                   forall c, In c (text request) -> isWhiteSpace c = true).
  { rewrite orb_true_iff, !Nat.eqb_eq, <- trim_nil. split.
    - intros [H|H].
      + destruct (text request); [reflexivity|discriminate].
      + destruct (trim (text request)); [reflexivity|discriminate].
    - intros H. right. rewrite H. reflexivity. }
  split.
  - destruct (_ || _) eqn:E.
    + split; [discriminate|]. intros [(c & Hc & Hw) _].
      rewrite (proj1 Hblank eq_refl c Hc) in Hw. discriminate.
    + assert (Hvis : exists c, In c (text request) /\ isWhiteSpace c = false).
      { destruct (existsb (fun c => negb (isWhiteSpace c)) (text request)) eqn:Hex.
        - apply existsb_exists in Hex as (c & Hc & Hw). exists c.
          apply negb_true_iff in Hw. auto.
        - assert (Hall : forall c, In c (text request) -> isWhiteSpace c = true).
          { intros c Hc. destruct (isWhiteSpace c) eqn:Hw; [reflexivity|].
            assert (existsb (fun c => negb (isWhiteSpace c)) (text request) = true).
            { apply existsb_exists. exists c. rewrite Hw. auto. }
            congruence. }
          apply Hblank in Hall. congruence. }
      destruct (String.eqb (fromLang request) "") eqn:Ef;
        destruct (String.eqb (toLang request) "") eqn:Et; cbn [orb];
        rewrite ?String.eqb_eq, ?String.eqb_neq in *;
        (split; [try discriminate; intros _; auto|intros (_ & Hf & Ht); try congruence]).
  - intros Hall. apply Hblank in Hall. rewrite Hall. reflexivity.
Qed.

End LanguageFacts.


(** ** The translation cache, again *)

Section CacheEviction.

Import TranslationCache.

Context {Confidence : Type}.

Implicit Types (cache : list (string * CacheEntry Confidence)).

Lemma JsMap_get_filter {V} (p : string * V -> bool) k (m : list (string * V)) :
  JsMap.wf m ->
  JsMap.get k (List.filter p m) =
  match JsMap.get k m with
  | Some v => if p (k, v) then Some v else None
  | None => None
  end.
Proof.
  intros Hwf. destruct (JsMap.get k m) as [v|] eqn:Hg.
  - apply JsMap_get_In in Hg. destruct (p (k, v)) eqn:Hp.
    + apply JsMap_In_get; [apply JsMap_wf_filter, Hwf|]. apply filter_In. auto.
    + apply JsMap_get_None. intros [v' [Hin Hp']%filter_In]%JsMap_In_keys.
      rewrite (JsMap_wf_unique k v' v m Hwf Hin Hg) in Hp'. congruence.
  - apply JsMap_get_None. intros [v' [Hin _]%filter_In]%JsMap_In_keys.
    apply (proj1 (JsMap_get_None k m) Hg). apply JsMap_In_keys. eauto.
Qed.


(** X25.  When some entry is older than the clock reading,
    [evictOldestCacheEntry] deletes one entry, and it is an entry whose
    timestamp is the smallest of the cache. *)
Theorem eviction_removes_an_oldest_entry now cache :
  JsMap.wf cache ->
  (forall k e, In (k, e) cache -> k <> EmptyString) ->
  (exists k e, In (k, e) cache /\ timestamp e < now) ->
  exists k e,
    In (k, e) cache /\
    (forall kv, In kv cache -> timestamp e <= timestamp (snd kv)) /\
    evictOldestCacheEntry now cache = JsMap.delete k cache /\
    JsMap.get k (evictOldestCacheEntry now cache) = None /\
    S (JsMap.size (evictOldestCacheEntry now cache)) = JsMap.size cache.
Proof.
  intros Hwf Hkeys (k' & e' & Hin' & Hold). unfold evictOldestCacheEntry.
  pose proof (oldest_fold cache (EmptyString, now)) as (H1 & H3).
  destruct (fold_left _ _ _) as [oldestKey oldestTime]. cbn [fst snd] in *.
  destruct H1 as [[= -> ->]|(e & Hin & Ht & Hlt)].
  - specialize (H3 _ Hin'). cbn in H3. lia.
  - assert (Hne : oldestKey <> EmptyString) by (eapply Hkeys, Hin).
    apply String.eqb_neq in Hne. rewrite Hne.
    exists oldestKey, e. split_and!.
    + exact Hin.
    + intros kv Hkv. rewrite Ht. apply H3, Hkv.
    + reflexivity.
    + apply JsMap_get_delete_eq.
    + apply (JsMap_size_delete oldestKey e cache Hwf). apply JsMap_In_get; assumption.
Qed.

Lemma evictOldestCacheEntry_subset now cache kv :
  In kv (evictOldestCacheEntry now cache) -> In kv cache.
Proof.
  unfold evictOldestCacheEntry. destruct (fold_left _ _ _) as [oldestKey oldestTime].
  case_match; [auto|]. unfold JsMap.delete. rewrite filter_In. tauto.
Qed.

Lemma addToCache_entries now k txt conf cache k' e :
  In (k', e) (addToCache now k txt conf cache) ->
  (k' = k /\ timestamp e = now) \/ In (k', e) cache.
Proof.
  unfold addToCache. intros [[-> ->]|Hin]%JsMap_in_set; [left; auto|right].
  revert Hin. case_match; [apply evictOldestCacheEntry_subset|auto].
Qed.

Lemma generateCacheKey_not_empty r : TranslationService.generateCacheKey r <> EmptyString.
Proof. unfold TranslationService.generateCacheKey. discriminate. Qed.

Lemma completeAll_cons (c : TranslationService.Completion Confidence) rest cache :
  TranslationService.completeAll (c :: rest) cache =
  TranslationService.completeAll rest
    (addToCache (TranslationService.completedAt c) (TranslationService.generateCacheKey (TranslationService.completedRequest c))
       (TranslationService.completedText c) (TranslationService.completedConfidence c) cache).
Proof. reflexivity. Qed.

Lemma completeAll_bound (completions : list (TranslationService.Completion Confidence)) :
  forall cache,
    Sorted Z.lt (map TranslationService.completedAt completions) ->
    JsMap.wf cache ->
    (forall k e, In (k, e) cache -> k <> EmptyString) ->
    (JsMap.size cache <= MAX_CACHE_SIZE)%nat ->
    (forall k e c, In (k, e) cache -> In c completions -> timestamp e < TranslationService.completedAt c) ->
    (JsMap.size (TranslationService.completeAll completions cache) <= MAX_CACHE_SIZE)%nat /\
    JsMap.wf (TranslationService.completeAll completions cache).
Proof.
  induction completions as [|c rest IH]; intros cache Hsorted Hwf Hkeys Hsize Hold.
  - auto.
  - cbn [map] in Hsorted. apply Sorted_inv in Hsorted as [Hsorted Hhd].
    rewrite completeAll_cons.
    apply IH.
    + exact Hsorted.
    + apply addToCache_wf, Hwf.
    + intros k e [[-> _]|Hin]%addToCache_entries; [apply generateCacheKey_not_empty|eauto].
    + destruct cache as [|[k0 e0] cache0] eqn:Hc.
      * cbn. unfold MAX_CACHE_SIZE. lia.
      * apply addToCache_keeps_the_bound_when_an_entry_is_older; auto.
        exists k0, e0. split; [left; reflexivity|]. apply (Hold k0 e0 c); left; reflexivity.
    + intros k e c' [[_ He]|Hin]%addToCache_entries Hc'.
      * rewrite He. clear -Hsorted Hhd Hc'.
        assert (Hall : Forall (Z.lt (TranslationService.completedAt c)) (map TranslationService.completedAt rest)).
        { apply Sorted_extends; [intros x y z; lia|]. constructor; assumption. }
        rewrite List.Forall_forall in Hall. apply Hall, in_map, Hc'.
      * apply (Hold k e c' Hin). right. exact Hc'.
Qed.

(** X26.  As long as the clock reading increases from one completed
    translation to the next, the translation cache never holds more than
    [MAX_CACHE_SIZE] entries and no key twice, for every sequence of
    requests. *)
Theorem the_cache_stays_within_its_maximum_size_while_the_clock_advances
    (completions : list (TranslationService.Completion Confidence)) :
  Sorted Z.lt (map TranslationService.completedAt completions) ->
  (JsMap.size (TranslationService.completeAll completions []) <= MAX_CACHE_SIZE)%nat /\
  JsMap.wf (TranslationService.completeAll completions []).
Proof.
  intros Hsorted. apply completeAll_bound.
  - exact Hsorted.
  - apply NoDup_nil. exact I.
  - intros k e [].
  - cbn. lia.
  - intros k e c [].
Qed.

End CacheEviction.


Lemma eviction_witness :
  let cache :=
    TranslationCache.addToCache 2000 "translation_en_hi_2" "dhanyavad" 1
      (TranslationCache.addToCache 1000 "translation_en_hi_1" "namaste" 1 []) in
  exists k e,
    In (k, e) cache /\
    (forall kv, In kv cache -> TranslationCache.timestamp e <= TranslationCache.timestamp (snd kv)) /\
    TranslationCache.evictOldestCacheEntry 3000 cache = JsMap.delete k cache.
Proof.
  intros cache.
  assert (Hwf : JsMap.wf cache) by (apply (bool_decide_unpack _); vm_compute; reflexivity).
  destruct (eviction_removes_an_oldest_entry 3000 cache Hwf) as (k & e & H1 & H2 & H3 & _).
  - intros k e Hin. repeat (destruct Hin as [[= <- <-]|Hin]; [discriminate|]). destruct Hin.
  - eexists _, _. split; [left; reflexivity|]. cbn. lia.
  - exists k, e. auto.
Defined.

Lemma the_cache_bound_witness :
  let r := {| TranslationService.text := Js.ascii "hello";
              TranslationService.fromLang := "en"; TranslationService.toLang := "hi";
              TranslationService.maxTokens := None |} in
  (JsMap.size
     (TranslationService.completeAll
        [{| TranslationService.completedAt := 1500; TranslationService.completedRequest := r; TranslationService.completedText := "namaste";
            TranslationService.completedConfidence := 1 |};
         {| TranslationService.completedAt := 3000; TranslationService.completedRequest := r; TranslationService.completedText := "namaste";
            TranslationService.completedConfidence := 1 |}] []) <= TranslationCache.MAX_CACHE_SIZE)%nat.
Proof.
  intros r.
  apply (the_cache_stays_within_its_maximum_size_while_the_clock_advances
           [{| TranslationService.completedAt := 1500; TranslationService.completedRequest := r; TranslationService.completedText := "namaste";
               TranslationService.completedConfidence := 1 |};
            {| TranslationService.completedAt := 3000; TranslationService.completedRequest := r; TranslationService.completedText := "namaste";
               TranslationService.completedConfidence := 1 |}]).
  cbn. repeat constructor.
Defined.

(** * Properties of the speech service *)

Section SpeechFacts.

Import Js SpeechService.

Lemma addAudioChunk_window chunk (audioChunks : list AudioChunk) :
  (length audioChunks <= MAX_AUDIO_CHUNKS)%nat ->
  addAudioChunk chunk audioChunks =
  skipn (length (audioChunks ++ [chunk]) - MAX_AUDIO_CHUNKS) (audioChunks ++ [chunk]).
Proof.
  intros Hlen. unfold addAudioChunk.
  destruct (Nat.ltb MAX_AUDIO_CHUNKS (length (audioChunks ++ [chunk]))) eqn:E.
  - apply Nat.ltb_lt in E. rewrite length_app in *. cbn [length] in *.
    replace (length audioChunks + 1 - MAX_AUDIO_CHUNKS)%nat with 1%nat by lia.
    destruct (audioChunks ++ [chunk]); reflexivity.
  - apply Nat.ltb_ge in E.
    replace (length (audioChunks ++ [chunk]) - MAX_AUDIO_CHUNKS)%nat with 0%nat by lia.
    reflexivity.
Qed.

Lemma addAudioChunk_fold (added audioChunks : list AudioChunk) :
  (length audioChunks <= MAX_AUDIO_CHUNKS)%nat ->
  fold_left (fun chunks chunk => addAudioChunk chunk chunks) added audioChunks =
  skipn (length (audioChunks ++ added) - MAX_AUDIO_CHUNKS) (audioChunks ++ added).
Proof.
  revert audioChunks.
  induction added as [|chunk added IH]; intros audioChunks Hlen; cbn [fold_left].
  - rewrite app_nil_r. replace (length audioChunks - MAX_AUDIO_CHUNKS)%nat with 0%nat by lia.
    reflexivity.
  - rewrite IH.
    + rewrite addAudioChunk_window by exact Hlen.
      set (d := (length (audioChunks ++ [chunk]) - MAX_AUDIO_CHUNKS)%nat).
      assert (Hd : (d <= length (audioChunks ++ [chunk]))%nat) by (unfold d; lia).
      replace (skipn d (audioChunks ++ [chunk]) ++ added)
        with (skipn d ((audioChunks ++ [chunk]) ++ added)).
      2:{ rewrite skipn_app. replace (d - length (audioChunks ++ [chunk]))%nat with 0%nat by lia.
          reflexivity. }
      rewrite skipn_skipn, <- app_assoc. cbn [app]. f_equal.
      rewrite length_skipn, !length_app. cbn [length]. unfold d.
      rewrite length_app. cbn [length]. lia.
    + rewrite addAudioChunk_window by exact Hlen. rewrite length_skipn. lia.
Qed.

(** X27.  [audioChunks] is a window on the chunks that were added: after any
    number of [addAudioChunk] calls it holds the last [MAX_AUDIO_CHUNKS]
    (10) chunks of what it held plus what was added, in order, and never
    more than 10. *)
Theorem audio_chunks_are_the_last_ten_added (added audioChunks : list AudioChunk) :
  (length audioChunks <= MAX_AUDIO_CHUNKS)%nat ->
  let result := fold_left (fun chunks chunk => addAudioChunk chunk chunks) added audioChunks in
  result = skipn (length (audioChunks ++ added) - MAX_AUDIO_CHUNKS) (audioChunks ++ added) /\
  (length result <= MAX_AUDIO_CHUNKS)%nat /\
  fst (getMemoryUsage result) = Nat.min MAX_AUDIO_CHUNKS (length audioChunks + length added).
Proof.
  intros Hlen result.
  pose proof (addAudioChunk_fold added audioChunks Hlen) as Hres. fold result in Hres.
  split; [|split].
  - exact Hres.
  - rewrite Hres, length_skipn. lia.
  - cbn [getMemoryUsage fst]. rewrite Hres, length_skipn, length_app. lia.
Qed.

Lemma ceilDiv_spec a b : 0 < b -> b * (ceilDiv a b - 1) < a <= b * ceilDiv a b.
Proof.
  intros Hb. unfold ceilDiv.
  pose proof (Z.div_mod (- a) b ltac:(lia)). pose proof (Z.mod_pos_bound (- a) b Hb). lia.
Qed.

Lemma chunkLoop_spec (words : list CodeUnits) (chunkSize : Z) fuel :
  1 <= chunkSize ->
  forall i,
    0 <= i < Z.of_nat (length words) ->
    Z.of_nat (length words) - i <= Z.of_nat fuel ->
    let chunks := chunkLoop fuel words chunkSize i in
    join 32 chunks = join 32 (skipn (Z.to_nat i) words) /\
    chunkSize * (Z.of_nat (length chunks) - 1) < Z.of_nat (length words) - i
      <= chunkSize * Z.of_nat (length chunks) /\
    chunks <> [].
Proof.
  intros Hsize. induction fuel as [|fuel IH]; intros i Hi Hfuel; [lia|].
  cbn [chunkLoop].
  assert (E : (i <? Z.of_nat (length words)) = true) by (apply Z.ltb_lt; lia). rewrite E.
  rewrite Js_slice_window by lia.
  destruct (Z.of_nat (length words) <=? i + chunkSize) eqn:Hdone.
  - apply Z.leb_le in Hdone.
    assert (Hrest : chunkLoop fuel words chunkSize (i + chunkSize) = []).
    { destruct fuel; [reflexivity|]. cbn [chunkLoop].
      assert (E' : (i + chunkSize <? Z.of_nat (length words)) = false) by (apply Z.ltb_ge; lia).
      rewrite E'. reflexivity. }
    rewrite Hrest. cbn zeta. split; [|split; [cbn [length]; lia|discriminate]].
    cbn [join]. rewrite firstn_all2; [reflexivity|]. rewrite length_skipn. lia.
  - apply Z.leb_gt in Hdone.
    destruct (IH (i + chunkSize)) as (Hjoin & Hcount & Hne); [lia|lia|].
    cbn zeta. split; [|split; [cbn [length]; lia|discriminate]].
    rewrite Js_join_cons by exact Hne. rewrite Hjoin.
    replace (Z.to_nat (i + chunkSize)) with (Z.to_nat chunkSize + Z.to_nat i)%nat by lia.
    rewrite <- skipn_skipn.
    rewrite <- Js_join_app; [rewrite firstn_skipn; reflexivity| |].
    + intros H0. apply (f_equal (@length _)) in H0.
      rewrite length_firstn, length_skipn in H0. cbn [length] in H0. lia.
    + intros H0. apply (f_equal (@length _)) in H0.
      rewrite !length_skipn in H0. cbn [length] in H0. lia.
Qed.

Lemma speakLoop_completes btoa fuel words chunkSize :
  forall i audioChunks handed generated,
    map (generateAudioChunk btoa) (chunkLoop fuel words chunkSize i) = map Some generated ->
    speakLoop btoa fuel words chunkSize i audioChunks handed =
      (fold_left (fun chunks chunk => addAudioChunk chunk chunks) generated audioChunks,
       handed ++ generated, true).
Proof.
  induction fuel as [|fuel IH]; intros i audioChunks handed generated Hgen;
    cbn [speakLoop chunkLoop] in *.
  - destruct generated; [|discriminate]. rewrite app_nil_r. reflexivity.
  - destruct (i <? Z.of_nat (length words)).
    + destruct generated as [|g generated]; [discriminate|].
      cbn [map] in Hgen. injection Hgen as Hg Hrest. rewrite Hg.
      rewrite (IH _ _ _ _ Hrest). cbn [fold_left]. rewrite <- app_assoc. reflexivity.
    + destruct generated; [|discriminate]. rewrite app_nil_r. reflexivity.
Qed.

Lemma speakLoop_throws btoa fuel words chunkSize :
  forall i audioChunks handed stored handed',
    speakLoop btoa fuel words chunkSize i audioChunks handed = (stored, handed', false) ->
    exists before chunk generated,
      firstn (S (length before)) (chunkLoop fuel words chunkSize i) = before ++ [chunk] /\
      map (generateAudioChunk btoa) before = map Some generated /\
      generateAudioChunk btoa chunk = None /\
      handed' = handed ++ generated.
Proof.
  induction fuel as [|fuel IH]; intros i audioChunks handed stored handed' Hrun;
    cbn [speakLoop chunkLoop] in *; [discriminate|].
  destruct (i <? Z.of_nat (length words)); [|discriminate].
  destruct (generateAudioChunk btoa (join 32 (slice i (i + chunkSize) words))) as [g|] eqn:Hg.
  - destruct (IH _ _ _ _ _ Hrun) as (before & chunk & generated & Hcut & Hgen & Hnone & Hh).
    exists (join 32 (slice i (i + chunkSize) words) :: before), chunk, (g :: generated).
    split; [|split; [|split]].
    + cbn [length firstn app]. rewrite Hcut. reflexivity.
    + cbn [map]. rewrite Hg, Hgen. reflexivity.
    + exact Hnone.
    + rewrite Hh, <- app_assoc. reflexivity.
  - injection Hrun as _ Hh. exists [], (join 32 (slice i (i + chunkSize) words)), [].
    split; [reflexivity|split; [reflexivity|split; [exact Hg|]]].
    rewrite app_nil_r. symmetry. exact Hh.
Qed.


End SpeechFacts.

Lemma audio_chunks_witness :
  let chunk (i : Z) := {| SpeechService.data := pretty i; SpeechService.isComplete := false;
                          SpeechService.duration := 2000 |} in
  fold_left (fun chunks c => SpeechService.addAudioChunk c chunks)
    (map chunk [10; 11; 12]) (map chunk [0; 1; 2; 3; 4; 5; 6; 7; 8; 9]) =
  map chunk [3; 4; 5; 6; 7; 8; 9; 10; 11; 12].
Proof.
  intros chunk.
  assert (Hlen : Nat.le (length (map chunk [0; 1; 2; 3; 4; 5; 6; 7; 8; 9]))
                        SpeechService.MAX_AUDIO_CHUNKS) by (vm_compute; lia).
  rewrite (proj1 (audio_chunks_are_the_last_ten_added
                    (map chunk [10; 11; 12]) (map chunk [0; 1; 2; 3; 4; 5; 6; 7; 8; 9]) Hlen)).
  reflexivity.
Defined.


Section SilenceFacts.

Import SpeechService.


Lemma monitorAll_stopped samples r :
  isRecording r = false -> monitorAll samples r = r.
Proof.
  intros Hr. unfold monitorAll. induction samples as [|s samples IH]; cbn [fold_left]; [reflexivity|].
  unfold monitorAudioLevel at 2. rewrite Hr. cbn. exact IH.
Qed.

Lemma monitor_cases s r :
  isRecording r = true -> recording r = true ->
  (isSilent s = false /\ monitorAudioLevel s r = listening 0) \/
  (isSilent s = true /\ silenceStartTime r = 0 /\ monitorAudioLevel s r = listening (sampledAt s)) \/
  (isSilent s = true /\ silenceStartTime r <> 0 /\
   SILENCE_TIMEOUT <= sampledAt s - silenceStartTime r /\
   monitorAudioLevel s r = stopRecording r) \/
  (isSilent s = true /\ silenceStartTime r <> 0 /\
   sampledAt s - silenceStartTime r < SILENCE_TIMEOUT /\
   monitorAudioLevel s r = listening (silenceStartTime r)).
Proof.
  intros H1 H2. unfold monitorAudioLevel. rewrite H1, H2. cbn [negb orb].
  destruct (isSilent s); [|left; auto]. right.
  destruct (silenceStartTime r =? 0) eqn:E0.
  - apply Z.eqb_eq in E0. left. auto.
  - apply Z.eqb_neq in E0. right.
    destruct (SILENCE_TIMEOUT <=? sampledAt s - silenceStartTime r) eqn:E.
    + apply Z.leb_le in E. left. auto.
    + apply Z.leb_gt in E. right. auto.
Qed.

Lemma stop_is_sound samples :
  forall r, isRecording r = true -> recording r = true ->
    isRecording (monitorAll samples r) = false ->
    (silenceStartTime r <> 0 /\
     exists run last after,
       samples = run ++ last :: after /\
       Forall (fun s => isSilent s = true) (run ++ [last]) /\
       SILENCE_TIMEOUT <= sampledAt last - silenceStartTime r) \/
    silentStretch samples.
Proof.
  induction samples as [|s samples IH]; intros r H1 H2 Hstop.
  - cbn in Hstop. congruence.
  - change (monitorAll (s :: samples) r) with (monitorAll samples (monitorAudioLevel s r)) in Hstop.
    destruct (monitor_cases s r H1 H2) as [(Hs & Hm)|[(Hs & H0 & Hm)|[(Hs & H0 & Ht & Hm)|(Hs & H0 & Ht & Hm)]]];
      rewrite Hm in Hstop.
    + destruct (IH (listening 0) eq_refl eq_refl Hstop) as [[Hne _]|Hst]; [cbn in Hne; congruence|].
      right. destruct Hst as (b & f & run & l & a & -> & Hall & Hd).
      exists (s :: b), f, run, l, a. auto.
    + destruct (IH (listening (sampledAt s)) eq_refl eq_refl Hstop)
        as [[_ (run & l & a & -> & Hall & Hd)]|Hst].
      * right. exists [], s, run, l, a. cbn [silenceStartTime listening] in Hd.
        split; [reflexivity|]. split; [constructor; assumption|exact Hd].
      * right. destruct Hst as (b & f & run & l & a & -> & Hall & Hd).
        exists (s :: b), f, run, l, a. auto.
    + left. split; [exact H0|]. exists [], s, samples.
      split; [reflexivity|]. split; [repeat constructor; exact Hs|exact Ht].
    + destruct (IH (listening (silenceStartTime r)) eq_refl eq_refl Hstop)
        as [[_ (run & l & a & -> & Hall & Hd)]|Hst].
      * left. split; [exact H0|]. exists (s :: run), l, a. cbn [silenceStartTime listening] in Hd.
        split; [reflexivity|]. split; [constructor; assumption|exact Hd].
      * right. destruct Hst as (b & f & run & l & a & -> & Hall & Hd).
        exists (s :: b), f, run, l, a. auto.
Qed.

Lemma stop_is_complete_from start samples :
  forall run last after,
    samples = run ++ last :: after ->
    Forall (fun s => isSilent s = true) (run ++ [last]) ->
    start <> 0 -> SILENCE_TIMEOUT <= sampledAt last - start ->
    isRecording (monitorAll samples (listening start)) = false.
Proof.
  induction samples as [|s samples IH]; intros run last after Heq Hall H0 Hd.
  - destruct run; discriminate.
  - change (monitorAll (s :: samples) (listening start))
      with (monitorAll samples (monitorAudioLevel s (listening start))).
    assert (Hs : isSilent s = true).
    { destruct run as [|x run]; cbn in Heq; injection Heq as <- _;
        apply Forall_inv in Hall; exact Hall. }
    destruct (monitor_cases s (listening start) eq_refl eq_refl)
      as [(Hs' & _)|[(_ & H0' & _)|[(_ & _ & _ & Hm)|(_ & _ & Ht & Hm)]]];
      cbn [silenceStartTime listening] in *; try congruence.
    + rewrite Hm. rewrite monitorAll_stopped; reflexivity.
    + rewrite Hm. destruct run as [|x run]; cbn in Heq; injection Heq as <- Heq.
      * lia.
      * apply (IH run last after Heq); auto. apply Forall_inv_tail in Hall. exact Hall.
Qed.

Lemma stop_is_complete samples :
  forall r, isRecording r = true -> recording r = true ->
    Forall (fun s => sampledAt s <> 0) samples ->
    StronglySorted (fun a b => sampledAt a <= sampledAt b) samples ->
    Forall (fun s => silenceStartTime r <> 0 -> silenceStartTime r <= sampledAt s) samples ->
    silentStretch samples ->
    isRecording (monitorAll samples r) = false.
Proof.
  induction samples as [|s samples IH]; intros r H1 H2 Hpos Hsorted Hstart Hst.
  - destruct Hst as (b & f & run & l & a & Heq & _). destruct b; discriminate.
  - change (monitorAll (s :: samples) r) with (monitorAll samples (monitorAudioLevel s r)).
    apply StronglySorted_inv in Hsorted as [Hsorted Hle].
    pose proof (Forall_inv Hpos) as Hs0. apply Forall_inv_tail in Hpos.
    pose proof (Forall_inv Hstart) as Hss. apply Forall_inv_tail in Hstart.
    destruct Hst as (b & f & run & l & a & Heq & Hall & Hd).
    destruct b as [|s' b]; cbn [app] in Heq; injection Heq as <- Heq.
    + (* the stretch begins with this sample *)
      pose proof (Forall_inv Hall) as Hsf. cbn beta in Hsf. apply Forall_inv_tail in Hall.
      destruct (monitor_cases s r H1 H2)
        as [(Hs' & _)|[(_ & H0 & Hm)|[(_ & _ & _ & Hm)|(_ & H0 & Ht & Hm)]]];
        try congruence; rewrite Hm.
      * apply (stop_is_complete_from (sampledAt s) _ run l a Heq Hall Hs0 Hd).
      * rewrite monitorAll_stopped; reflexivity.
      * apply (stop_is_complete_from (silenceStartTime r) _ run l a Heq Hall H0).
        specialize (Hss H0). lia.
    + (* the stretch begins later *)
      assert (Hst : silentStretch samples) by (exists b, f, run, l, a; auto).
      destruct (monitor_cases s r H1 H2)
        as [(_ & Hm)|[(_ & _ & Hm)|[(_ & _ & _ & Hm)|(_ & _ & _ & Hm)]]]; rewrite Hm.
      * apply IH; auto. apply Forall_forall. intros x _ Hx. cbn in Hx. congruence.
      * apply IH; auto. rewrite List.Forall_forall in *. intros x Hx _. cbn. exact (Hle x Hx).
      * rewrite monitorAll_stopped; reflexivity.
      * apply IH; auto.
Qed.

(** X29.  Recording stops by itself exactly when the samples of the audio
    level contain a stretch of silence: consecutive samples below 10, the
    last of them at least 5000 ms after the first; a single louder sample
    starts the count again.  This holds for a clock that does not run
    backwards and never reads 0, the value by which [silenceStartTime]
    says that no silence has begun. *)
Theorem recording_stops_itself_after_five_seconds_of_silence (samples : list Sample) :
  Forall (fun s => sampledAt s <> 0) samples ->
  StronglySorted (fun a b => sampledAt a <= sampledAt b) samples ->
  (isRecording (monitorAll samples started) = false <-> silentStretch samples).
Proof.
  intros Hpos Hsorted. split.
  - intros Hstop.
    destruct (stop_is_sound samples started eq_refl eq_refl Hstop) as [[Hne _]|Hst];
      [cbn in Hne; congruence|exact Hst].
  - apply stop_is_complete; auto.
    apply Forall_forall. intros x _ Hx. cbn in Hx. congruence.
Qed.

End SilenceFacts.

(** Three quiet samples spread over five seconds stop the recording; the
    fourth sample is not looked at any more. *)
Lemma recording_stops_witness :
  let samples :=
    [ {| SpeechService.sampledAt := 1000; SpeechService.audioLevel := (3 # 1)%Q |};
      {| SpeechService.sampledAt := 3500; SpeechService.audioLevel := (19 # 2)%Q |};
      {| SpeechService.sampledAt := 6000; SpeechService.audioLevel := (0 # 1)%Q |};
      {| SpeechService.sampledAt := 6100; SpeechService.audioLevel := (50 # 1)%Q |} ] in
  SpeechService.isRecording
    (SpeechService.monitorAll samples SpeechService.started) = false /\
  SpeechService.silentStretch samples.
Proof.
  intros samples.
  assert (Hpos : Forall (fun s => SpeechService.sampledAt s <> 0) samples)
    by (repeat (constructor; [discriminate|]); constructor).
  assert (Hsorted : StronglySorted
            (fun a b => SpeechService.sampledAt a <= SpeechService.sampledAt b) samples)
    by (repeat constructor; cbn; lia).
  pose proof (recording_stops_itself_after_five_seconds_of_silence samples Hpos Hsorted)
    as [Hstop _].
  split; [reflexivity|apply Hstop; reflexivity].
Defined.

